(** * seo-manager: the generation pipeline of [main.py], embedded and verified

    The development follows [src/src/main.py]: the category detector
    ([detect_product_type]), the similarity gate ([check_similarity], on
    top of [difflib.SequenceMatcher]), the response parser
    ([parse_seo_response]), the generation orchestrator ([generate_seo]),
    the per-item loop of [main] and the body cleaner ([strip_html]).

    Modelling conventions.
    - A Python [str] is a list of characters; characters are the code points
      below 256 (the type [ascii]), with [str.lower], [str.isspace] and the
      regular-expression class [\s] as Python defines them on that range.
    - A similarity score is the exact quotient [2*M/T] in [Q], kept in lowest
      terms.  Python computes the double nearest to that quotient; rounding
      is monotone and, for texts shorter than 2^26 characters, distinct
      quotients (and the threshold 4/5) round to distinct doubles, so every
      comparison the program makes has the same outcome on the quotients.
    - The text-generation service, the process-level random source, the
      prompt tables and [strip_html] are collaborators of the orchestrator;
      they are parameters of the model (class [Collaborators] and the
      [client] argument).
    - Effects (service requests, [time.sleep], the progress file) are made
      explicit in a state record threaded through a small state-and-error
      monad. *)

From Stdlib Require Import Ascii String List QArith Qcanon Lia Bool Arith ZArith NArith
  Permutation Sorting.Sorted.
From Equations Require Import Equations.
From stdpp Require Import gmap strings list fin_maps.

Open Scope nat_scope.

Abbreviation str := (list ascii).

(** A string literal of the source as a [str]. *)
Definition lit (s : string) : str := list_ascii_of_string s.

(** ** Python [str] primitives used by the program *)

Module Str.

(** [str.lower] on one code point below 256: [A-Z] and the Latin-1 capitals
    U+00C0..U+00DE (but for the multiplication sign U+00D7) move up by 32. *)
Definition lower_char (c : ascii) : ascii :=
  let n := N_of_ascii c in
  if (((65 <=? n) && (n <=? 90)) ||
      ((192 <=? n) && (n <=? 222) && negb (n =? 215)))%N
  then ascii_of_N (n + 32) else c.

Definition lower (s : str) : str := map lower_char s.

(** [str.isspace] for one code point below 256; the class [\s] of [re] on
    [str] patterns is the same set. *)
Definition isspace (c : ascii) : bool :=
  let n := N_of_ascii c in
  (((9 <=? n) && (n <=? 13)) || ((28 <=? n) && (n <=? 32)) ||
   (n =? 133) || (n =? 160))%N.

Fixpoint lstrip (s : str) : str :=
  match s with
  | [] => []
  | c :: r => if isspace c then lstrip r else s
  end.

Definition rstrip (s : str) : str := rev (lstrip (rev s)).

(** [s.strip()] *)
Definition strip (s : str) : str := rstrip (lstrip s).

(** [s.split(sep)] for a one-character separator. *)
Fixpoint split (sep : ascii) (s : str) : list str :=
  match s with
  | [] => [[]]
  | c :: r =>
      if Ascii.eqb c sep then [] :: split sep r
      else match split sep r with
           | p :: ps => (c :: p) :: ps
           | [] => [[c]]
           end
  end.

(** [s.split(sep, 1)] for a one-character separator: at most one cut. *)
Fixpoint split1 (sep : ascii) (s : str) : list str :=
  match s with
  | [] => [[]]
  | c :: r =>
      if Ascii.eqb c sep then [[]; r]
      else match split1 sep r with
           | p :: ps => (c :: p) :: ps
           | [] => [[c]]
           end
  end.

(** [s.startswith(p)] *)
Fixpoint startswith (p s : str) : bool :=
  match p, s with
  | [], _ => true
  | _ :: _, [] => false
  | x :: p', y :: s' => Ascii.eqb x y && startswith p' s'
  end.

(** [sub in s] *)
Fixpoint contains (sub s : str) : bool :=
  startswith sub s ||
  match s with
  | [] => false
  | _ :: r => contains sub r
  end.

(** [s.replace(old, new)]: leftmost non-overlapping occurrences; for an
    empty [old] Python puts [new] before every character and at the end. *)
Equations? replace (old new s : str) : str by wf (length s) lt :=
  replace [] new s := new ++ flat_map (fun c => c :: new) s;
  replace (o :: os) new [] := [];
  replace (o :: os) new (c :: r) with startswith (o :: os) (c :: r) => {
    | true := new ++ replace (o :: os) new (drop (length os) r);
    | false := c :: replace (o :: os) new r }.
Proof. all: rewrite ?length_drop; simpl; lia. Qed.

(** Position of the first [>] of [s], if any. *)
Fixpoint find_gt (s : str) : option nat :=
  match s with
  | [] => None
  | c :: r => if Ascii.eqb c ">" then Some 0 else S <$> find_gt r
  end.

(** With [r] the text after a [<]: the number of characters of [r] that the
    pattern [<[^>]+>] consumes there, or [None] when it does not match (the
    class needs one character other than [>], then the next [>] closes). *)
Definition tag_len (r : str) : option nat :=
  match r with
  | [] => None
  | c :: r' => if Ascii.eqb c ">" then None else (fun k => S (S k)) <$> find_gt r'
  end.

(** [re.sub(r"<[^>]+>", "", s)] *)
Equations? strip_tags (s : str) : str by wf (length s) lt :=
  strip_tags [] := [];
  strip_tags (c :: r) with (if Ascii.eqb c "<" then tag_len r else None) => {
    | Some n := strip_tags (drop n r);
    | None := c :: strip_tags r }.
Proof. all: rewrite ?length_drop; simpl; lia. Qed.

(** [re.sub(r"\s+", " ", s)], as the scanner that emits one space per run;
    [in_run] tells that the previous character was white space. *)
Fixpoint collapse_from (in_run : bool) (s : str) : str :=
  match s with
  | [] => []
  | c :: r =>
      if isspace c
      then (if in_run then collapse_from true r else " "%char :: collapse_from true r)
      else c :: collapse_from false r
  end.

Definition collapse_ws (s : str) : str := collapse_from false s.

(** [s.replace(c, "")] for a one-character [c]. *)
Definition remove_char (c : ascii) (s : str) : str :=
  filter (fun x => negb (Ascii.eqb x c)) s.

End Str.

(** ** [difflib.SequenceMatcher(None, a, b)] of the Python standard library

    The program calls [SequenceMatcher(None, a, b).ratio()]; the model follows
    CPython's [difflib]: [__chain_b], [find_longest_match],
    [get_matching_blocks] and [ratio].  With [isjunk=None] the junk set is
    empty, so the two loops of [find_longest_match] that absorb junk never
    run and are left out; [autojunk] keeps its default [True]. *)

Module Difflib.

(** A match [(i, j, k)]: [a[i:i+k] == b[j:j+k]]. *)
Definition block : Type := nat * nat * nat.

(** The loop of [__chain_b]: [b2j.setdefault(elt, []).append(i)]. *)
Fixpoint index_elts (i : nat) (b : str) (b2j : gmap ascii (list nat))
  : gmap ascii (list nat) :=
  match b with
  | [] => b2j
  | elt :: r => index_elts (S i) r (<[elt := default [] (b2j !! elt) ++ [i]]> b2j)
  end.

(** [__chain_b]: for [len(b) >= 200] the elements occurring more than
    [len(b) // 100 + 1] times are "popular" and deleted from [b2j]. *)
Definition chain_b (b : str) : gmap ascii (list nat) :=
  let b2j := index_elts 0 b ∅ in
  let n := length b in
  if 200 <=? n
  then filter (fun kv => length kv.2 <= n / 100 + 1) b2j
  else b2j.

(** [j2len.get(j-1, 0)]; the key [-1] is never present. *)
Definition j2len_get_pred (j2len : gmap nat nat) (j : nat) : nat :=
  match j with
  | 0 => 0
  | S j' => default 0 (j2len !! j')
  end.

Section Matcher.
Variables a b : str.
Variable b2j : gmap ascii (list nat).

(** State of the scan: [(besti, bestj, bestsize)] and [newj2len]. *)
Definition scan_state : Type := block * gmap nat nat.

(** The body of the inner loop for one [j] in range. *)
Definition scan_j (i : nat) (j2len : gmap nat nat) (st : scan_state) (j : nat)
  : scan_state :=
  let '((besti, bestj, bestsize), newj2len) := st in
  let k := j2len_get_pred j2len j + 1 in
  (if bestsize <? k then (i + 1 - k, j + 1 - k, k) else (besti, bestj, bestsize),
   <[j := k]> newj2len).

(** [for j in b2j.get(a[i], nothing)], with its [continue] below [blo] and
    its [break] from [bhi] on. *)
Fixpoint scan_js (blo bhi i : nat) (j2len : gmap nat nat) (js : list nat)
  (st : scan_state) : scan_state :=
  match js with
  | [] => st
  | j :: js' =>
      if j <? blo then scan_js blo bhi i j2len js' st
      else if bhi <=? j then st
      else scan_js blo bhi i j2len js' (scan_j i j2len st j)
  end.

Definition b2j_get (i : nat) : list nat :=
  match a !! i with
  | Some elt => default [] (b2j !! elt)
  | None => []
  end.

(** [for i in range(alo, ahi)], over the list of the remaining [i]. *)
Fixpoint scan_rows (blo bhi : nat) (rows : list nat) (best : block)
  (j2len : gmap nat nat) : block :=
  match rows with
  | [] => best
  | i :: rows' =>
      let '(best', newj2len) := scan_js blo bhi i j2len (b2j_get i) (best, ∅) in
      scan_rows blo bhi rows' best' newj2len
  end.

Definition same_at (i j : nat) : bool :=
  match a !! i, b !! j with
  | Some x, Some y => Ascii.eqb x y
  | _, _ => false
  end.

(** [while besti > alo and bestj > blo and a[besti-1] == b[bestj-1]] *)
Fixpoint extend_back (alo blo besti bestj bestsize : nat) : block :=
  match besti with
  | 0 => (besti, bestj, bestsize)
  | S besti' =>
      if (alo <? besti) && (blo <? bestj) && same_at besti' (bestj - 1)
      then extend_back alo blo besti' (bestj - 1) (bestsize + 1)
      else (besti, bestj, bestsize)
  end.

(** [while besti+bestsize < ahi and bestj+bestsize < bhi and
    a[besti+bestsize] == b[bestj+bestsize]]; [room] is
    [ahi - (besti+bestsize)], so the first test is [room > 0]. *)
Fixpoint extend_fwd (room bhi besti bestj bestsize : nat) : block :=
  match room with
  | 0 => (besti, bestj, bestsize)
  | S room' =>
      if (bestj + bestsize <? bhi) && same_at (besti + bestsize) (bestj + bestsize)
      then extend_fwd room' bhi besti bestj (bestsize + 1)
      else (besti, bestj, bestsize)
  end.

Definition find_longest_match (alo ahi blo bhi : nat) : block :=
  let '(besti, bestj, bestsize) :=
    scan_rows blo bhi (seq alo (ahi - alo)) (alo, blo, 0) ∅ in
  let '(besti, bestj, bestsize) := extend_back alo blo besti bestj bestsize in
  extend_fwd (ahi - (besti + bestsize)) bhi besti bestj bestsize.

(** The [while queue] loop of [get_matching_blocks]; the head of [queue]
    is the end of Python's list ([pop] and [append] work there).  [None]
    when [fuel] iterations do not empty the queue. *)
Fixpoint blocks_loop (fuel : nat) (queue : list (nat * nat * nat * nat))
  (matching_blocks : list block) : option (list block) :=
  match queue with
  | [] => Some matching_blocks
  | (alo, ahi, blo, bhi) :: queue' =>
      match fuel with
      | 0 => None
      | S fuel' =>
          let '(i, j, k) := find_longest_match alo ahi blo bhi in
          if k =? 0 then blocks_loop fuel' queue' matching_blocks
          else
            let q1 := if (alo <? i) && (blo <? j)
                      then (alo, i, blo, j) :: queue' else queue' in
            let q2 := if (i + k <? ahi) && (j + k <? bhi)
                      then (i + k, ahi, j + k, bhi) :: q1 else q1 in
            blocks_loop fuel' q2 (matching_blocks ++ [(i, j, k)])
      end
  end.

End Matcher.

(** [get_matching_blocks], before the blocks are sorted and adjacent ones
    merged: [ratio] only adds up the sizes, which both steps keep.  Every
    iteration takes a range off the queue and puts back ranges that are
    together narrower, so [2 * len(a) + 1] iterations are enough
    ([get_matching_blocks_total] below). *)
Definition get_matching_blocks (a b : str) : option (list block) :=
  blocks_loop a b (chain_b b) (2 * length a + 1) [(0, length a, 0, length b)] [].

(** [_calculate_ratio(matches, length)] *)
Definition calculate_ratio (matches len : nat) : Q :=
  if len =? 0 then 1%Q
  else Qred (Z.of_nat (2 * matches) # Pos.of_nat len).

(** [SequenceMatcher(None, a, b).ratio()] *)
Definition ratio (a b : str) : Q :=
  let blocks := default [] (get_matching_blocks a b) in
  calculate_ratio (list_sum (map (fun t : block => t.2) blocks)) (length a + length b).

End Difflib.

(** ** Notions used to reason on the matcher *)

Module Matching.
Import Difflib.

(** The best match lies in [a[alo:ahi]]. *)
Definition in_range (alo ahi : nat) (best : block) : Prop :=
  alo <= best.1.1 /\ best.1.1 + best.2 <= ahi.

(** The best match lies in [b[blo:bhi]]. *)
Definition in_range_b (blo bhi : nat) (best : block) : Prop :=
  blo <= best.1.2 /\ best.1.2 + best.2 <= bhi.

(** A length recorded for [j] fits between [blo] and [j]. *)
Definition lengths_fit (blo : nat) (j2len : gmap nat nat) : Prop :=
  forall j k, j2len !! j = Some k -> blo <= j /\ k <= S j - blo.

(** No recorded length exceeds [bound]. *)
Definition lengths_le (bound : nat) (j2len : gmap nat nat) : Prop :=
  forall j k, j2len !! j = Some k -> k <= bound.

(** The width of the ranges that wait in the queue. *)
Definition weight (queue : list (nat * nat * nat * nat)) : nat :=
  list_sum (map (fun q => 2 * (q.1.1.2 - q.1.1.1) + 1) queue).

Definition well_formed (queue : list (nat * nat * nat * nat)) : Prop :=
  Forall (fun q => q.1.1.1 <= q.1.1.2) queue.

(** The number of matched elements. *)
Definition total_size (blocks : list block) : nat :=
  list_sum (map (fun t : block => t.2) blocks).

(** The elements of [a], and of [b], in the ranges that wait in the queue. *)
Definition width_a (queue : list (nat * nat * nat * nat)) : nat :=
  list_sum (map (fun q => q.1.1.2 - q.1.1.1) queue).

Definition width_b (queue : list (nat * nat * nat * nat)) : nat :=
  list_sum (map (fun q => q.2 - q.1.2) queue).

Definition well_formed_b (queue : list (nat * nat * nat * nat)) : Prop :=
  Forall (fun q => q.1.2 <= q.2) queue.

(** The places of [c] in [b], counted from [i]. *)
Fixpoint positions_from (c : ascii) (i : nat) (b : str) : list nat :=
  match b with
  | [] => []
  | d :: r => if decide (d = c) then i :: positions_from c (S i) r
              else positions_from c (S i) r
  end.

Section Self.
Variable x : str.

(** The element at [m] is not popular: it is a key of [b2j]. *)
Definition kept (m : nat) : bool :=
  match x !! m with
  | Some c => bool_decide (is_Some (chain_b x !! c))
  | None => false
  end.

(** Length of the stretch of kept elements that ends just before [m]. *)
Fixpoint run (m : nat) : nat :=
  match m with
  | 0 => 0
  | S m' => if kept m' then S (run m') else 0
  end.

(** What holds of the best match and of [j2len] when row [i] of the scan
    of [x] against itself starts. *)
Record row_inv (i : nat) (best : block) (j2len : gmap nat nat) : Prop := {
  inv_diag : best.1.1 = best.1.2;
  inv_best : forall m, m <= i -> run m <= best.2;
  inv_len : forall j, j2len_get_pred j2len j <= run j /\ j2len_get_pred j2len j <= run i;
  inv_here : j2len_get_pred j2len i = run i
}.

(** What holds inside row [i], after the places before [i] ([seen] false)
    or after [i] itself too ([seen] true). *)
Record cell_inv (i : nat) (seen : bool) (st : scan_state) : Prop := {
  cell_diag : st.1.1.1 = st.1.1.2;
  cell_best : forall m, m <= i -> run m <= st.1.2;
  cell_seen : seen = true -> run (S i) <= st.1.2 /\ st.2 !! i = Some (run (S i));
  cell_len : forall j k, st.2 !! j = Some k -> k <= run (S j) /\ k <= run (S i)
}.
End Self.
End Matching.

(** ** Configuration of [main.py] *)

(** [SIMILARITY_THRESHOLD = 0.80] *)
Definition SIMILARITY_THRESHOLD : Q := 4 # 5.
Definition MAX_RETRIES : nat := 3.
Definition MAX_SEO_TITLE_LENGTH : nat := 70.
Definition MAX_SEO_DESCRIPTION_LENGTH : nat := 320.
(** [API_DELAY = 5.0], in seconds. *)
Definition API_DELAY : nat := 5.

Definition dquote : ascii := ascii_of_nat 34.
Definition squote : ascii := ascii_of_nat 39.
Definition newline : ascii := ascii_of_nat 10.

(** A row of the catalogue as [csv.DictReader] gives it: a dict from column
    name to text. *)
Abbreviation row := (gmap string str).

(** [row.get(key, "")] *)
Definition get (r : row) (key : string) : str := default [] (r !! key).

(** ** Category detector: [detect_product_type] *)

Inductive category := wall_clocks | water_bottles | lamp_shades.

#[global] Instance category_eq_dec : EqDecision category.
Proof. solve_decision. Defined.

(** The keys of [PRODUCT_TYPE_KEYWORDS], in declaration order. *)
Definition categories : list category := [wall_clocks; water_bottles; lamp_shades].

Definition PRODUCT_TYPE_KEYWORDS (c : category) : list str :=
  map lit
    match c with
    | wall_clocks =>
        ["clock"; "wall clock"; "timepiece"; "hour hand"; "minute hand";
         "quartz"; "pendulum"; "analog"; "dial"; "roman numeral";
         "sweep movement"; "ticking"; "clock face"; "clock hands"]
    | water_bottles =>
        ["water bottle"; "bottle"; "tumbler"; "hydration"; "flask";
         "drink bottle"; "sports bottle"; "insulated bottle"; "bpa free";
         "stainless steel bottle"; "reusable bottle"; "thermos";
         "beverage container"; "sippy"; "straw lid"]
    | lamp_shades =>
        ["lamp shade"; "lampshade"; "shade"; "lamp"; "light shade";
         "lighting"; "pendant shade"; "table lamp"; "floor lamp";
         "drum shade"; "cone shade"; "bell shade"; "fabric shade";
         "linen shade"; "silk shade"]
    end%string.

Definition category_eqb (c d : category) : bool :=
  match c, d with
  | wall_clocks, wall_clocks | water_bottles, water_bottles
  | lamp_shades, lamp_shades => true
  | _, _ => false
  end.

(** The dict [scores]. *)
Definition scores : Type := category -> nat.

(** [scores[product_type] += 1] *)
Definition bump (c : category) (sc : scores) : scores :=
  fun d => if category_eqb c d then S (sc d) else sc d.

(** The text scanned for one row. *)
Definition row_text (r : row) : str :=
  Str.lower (get r "Title" ++ lit " " ++ get r "Body (HTML)" ++ lit " " ++
             get r "Type" ++ lit " " ++ get r "Tags").

(** [for keyword in keywords: if keyword in text: scores[product_type] += 1] *)
Definition score_keywords (text : str) (c : category) (sc : scores) : scores :=
  fold_left (fun sc keyword => if Str.contains keyword text then bump c sc else sc)
            (PRODUCT_TYPE_KEYWORDS c) sc.

(** [for product_type, keywords in PRODUCT_TYPE_KEYWORDS.items(): ...] *)
Definition score_row (sc : scores) (r : row) : scores :=
  fold_left (fun sc c => score_keywords (row_text r) c sc) categories sc.

Definition tally (rows : list row) : scores :=
  fold_left score_row rows (fun _ => 0).

(** [max(scores, key=scores.get)]: the first key with the greatest value. *)
Definition max_key (sc : scores) : category :=
  fold_left (fun best c => if sc best <? sc c then c else best)
            [water_bottles; lamp_shades] wall_clocks.

(** [detect_product_type(rows)]; the second component tells whether the
    warning "Could not confidently detect product type" was printed. *)
Definition detect_product_type (rows : list row) : category * bool :=
  let sc := tally rows in
  let detected := max_key sc in
  if sc detected =? 0 then (wall_clocks, true) else (detected, false).

(** ** Similarity gate: [check_similarity] *)

(** The score of two descriptions: the ratio of their lowercased texts. *)
Definition similarity (x y : str) : Q := Difflib.ratio (Str.lower x) (Str.lower y).

(** [x < y] on scores. *)
Definition Qltb (x y : Q) : bool := negb (Qle_bool y x).

(** The loop body: keep the strictly greater score and its source. *)
Definition worst_step (new_desc : str) (acc : Q * str) (existing : str) : Q * str :=
  let score := similarity new_desc existing in
  if Qltb acc.1 score then (score, existing) else acc.

(** [check_similarity(new_desc, existing_descriptions)], returning
    [(is_ok, worst_score, worst_match)]. *)
Definition check_similarity (new_desc : str) (existing_descriptions : list str)
  : bool * Q * str :=
  match existing_descriptions with
  | [] => (true, 0%Q, [])
  | _ =>
      let '(worst_score, worst_match) :=
        fold_left (worst_step new_desc) existing_descriptions (0%Q, []) in
      (Qltb worst_score SIMILARITY_THRESHOLD, worst_score, worst_match)
  end.

(** What the loop of [check_similarity] has found after the members [seen]
    of the pool: [s] bounds their scores, and [m] is the first of them that
    reaches [s], or the empty text as long as [s] is zero. *)
Definition worst_of (x : str) (seen : list str) (s : Q) (m : str) : Prop :=
  (0 <= s)%Q /\
  (forall z, z ∈ seen -> (similarity x z <= s)%Q) /\
  ((s = 0%Q /\ m = []) \/
   ((0 < s)%Q /\
    exists pre post, seen = pre ++ m :: post /\ similarity x m = s /\
                     forall z, z ∈ pre -> (similarity x z < s)%Q)).

(** ** Response parser: [parse_seo_response] *)

(** [[line.strip() for line in response_text.strip().split("\n") if line.strip()]] *)
Definition response_lines (response_text : str) : list str :=
  List.filter (fun l => negb (Nat.eqb (length l) 0))
    (map Str.strip (Str.split newline (Str.strip response_text))).

(** [line.split(":", 1)[1].strip()]; [None] stands for the [IndexError] of
    the subscript. *)
Definition after_colon (line : str) : option str :=
  Str.strip <$> (Str.split1 ":" line !! 1).

(** The [for line in lines] loop on [(seo_title, seo_description)]. *)
Fixpoint scan_lines (lines : list str) (fields : str * str) : option (str * str) :=
  match lines with
  | [] => Some fields
  | line :: rest =>
      if Str.startswith (lit "seo title:") (Str.lower line)
      then t ← after_colon line; scan_lines rest (t, fields.2)
      else if Str.startswith (lit "seo description:") (Str.lower line)
      then d ← after_colon line; scan_lines rest (fields.1, d)
      else scan_lines rest fields
  end.

(** [re.search(r"<[^>]+>", s) is not None]: the text holds a markup tag. *)
Fixpoint has_tag (s : str) : bool :=
  match s with
  | [] => false
  | c :: r =>
      (Ascii.eqb c "<" && match Str.tag_len r with Some _ => true | None => false end)
      || has_tag r
  end.

Definition no_tag (s : str) : Prop := has_tag s = false.

(** The three [replace] calls on the banned term. *)
Definition replace_banned (d : str) : str :=
  Str.replace (lit "Faux Leather") (lit "Vinyl")
    (Str.replace (lit "Faux leather") (lit "Vinyl")
       (Str.replace (lit "faux leather") (lit "vinyl") d)).

(** The description after tags and quotes are removed and the banned term is
    replaced, before white space is collapsed. *)
Definition substituted (seo_description : str) : str :=
  replace_banned
    (Str.remove_char squote (Str.remove_char dquote (Str.strip_tags seo_description))).

(** The three capitalisations of the banned term that the parser rewrites. *)
Definition banned_terms : list str :=
  [lit "faux leather"; lit "Faux leather"; lit "Faux Leather"].

(** [if len(s) > n: s = s[:n]] *)
Definition cap (n : nat) (s : str) : str :=
  if n <? length s then take n s else s.

(** [parse_seo_response(response_text, original_title)], returning
    [(seo_title, seo_description)]; [None] stands for an exception. *)
Definition parse_seo_response (response_text original_title : str)
  : option (str * str) :=
  fields ← scan_lines (response_lines response_text) (original_title, []);
  let seo_title := original_title in
  let seo_description := Str.strip (Str.collapse_ws (substituted fields.2)) in
  Some (cap MAX_SEO_TITLE_LENGTH seo_title,
        cap MAX_SEO_DESCRIPTION_LENGTH seo_description).

(** ** Effects: the service, the clock and the random source *)

(** What one call of [client.chat.completions.create] gives: the text of
    [response.choices[0].message.content], or an exception whose [str(e)] is
    [err]. *)
Inductive outcome :=
| Response (content : str)
| Failure (err : str).

(** The arguments of a call that vary: the user prompt and the temperature
    (the model, the system message and [max_tokens=256] are constants). *)
Record request := { req_prompt : str; req_temperature : Q }.

(** The service: its answer to the [n]-th call of the run (from 0).  A run is
    sequential and deterministic, so any service, whatever its inner state,
    shows in one run as such a function. *)
Definition service : Type := nat -> request -> outcome.

Inductive event :=
| Call (r : request)
| Sleep (seconds : nat).

(** The collaborators of the orchestrator that the claims leave open. *)
Class Collaborators := {
  rng_state : Type;
  (** [get_variation_hint(product_type)], drawing from the random source *)
  get_variation_hint : category -> rng_state -> str * rng_state;
  (** [strip_html(html_text)] *)
  strip_html : str -> str;
  (** [SEO_PROMPTS[product_type].format(title=, body=, variation_hint=)] *)
  format_prompt : category -> str -> str -> str -> str
}.

Definition is_call (e : event) : bool :=
  match e with Call _ => true | Sleep _ => false end.

Definition calls_in (evs : list event) : nat := length (List.filter is_call evs).

Definition sleeps_in (evs : list event) : list nat :=
  flat_map (fun e => match e with Sleep n => [n] | Call _ => [] end) evs.

(** The seconds spent in [time.sleep]. *)
Definition waited (evs : list event) : nat := list_sum (sleeps_in evs).

(** [r] is [Ok] with a value or [Raise] with the text of the exception. *)
Inductive result (A : Type) :=
| Ok (a : A)
| Raise (err : str).
Arguments Ok {A} a.
Arguments Raise {A} err.

Section Orchestrator.
Context `{Collaborators}.

(** The world outside the program: the random source and what has happened
    so far, oldest event first. *)
Record world := { w_rng : rng_state; w_events : list event }.

Definition log (e : event) (w : world) : world :=
  {| w_rng := w_rng w; w_events := w_events w ++ [e] |}.

(** Computations that change the world and may raise. *)
Definition M (A : Type) : Type := world -> result A * world.

Definition ret {A} (a : A) : M A := fun w => (Ok a, w).
Definition raise {A} (err : str) : M A := fun w => (Raise err, w).
Definition bind {A B} (m : M A) (k : A -> M B) : M B :=
  fun w => match m w with
           | (Ok a, w') => k a w'
           | (Raise err, w') => (Raise err, w')
           end.

Notation "x <~ m ; k" := (bind m (fun x => k))
  (at level 20, m at level 100, k at level 200, only parsing).

(** [time.sleep(seconds)] *)
Definition sleep (seconds : nat) : M unit := fun w => (Ok tt, log (Sleep seconds) w).

Definition draw_hint (product_type : category) : M str :=
  fun w => let '(hint, g) := get_variation_hint product_type (w_rng w) in
           (Ok hint, {| w_rng := g; w_events := w_events w |}).

(** One call of the service: it is logged, and answered by [client]. *)
Definition create (client : service) (r : request) : world -> outcome * world :=
  fun w => (client (calls_in (w_events w)) r, log (Call r) w).

(** The test on [err = str(e)] that tells a transient failure. *)
Definition is_transient (err : str) : bool :=
  Str.contains (lit "503") err || Str.contains (lit "502") err ||
  Str.contains (lit "429") err || Str.contains (lit "server") (Str.lower err) ||
  Str.contains (lit "too_many") (Str.lower err).

(** [for server_retry in range(5)], over the list of the remaining values
    of [server_retry].  The loop is left by [break] or [raise] at 4 at the
    latest, so the empty list is not reached from [seq 0 5]; Python would
    find [response] unbound there. *)
Fixpoint server_retries (client : service) (r : request) (retries : list nat)
  : M str :=
  match retries with
  | [] => raise (lit "UnboundLocalError")
  | server_retry :: rest =>
      fun w =>
        match create client r w with
        | (Response content, w1) => (Ok content, w1)
        | (Failure err, w1) =>
            if is_transient err then
              let wait := (server_retry + 1) * 8 in
              let w2 := log (Sleep wait) w1 in
              if server_retry =? 4 then (Raise err, w2)
              else server_retries client r rest w2
            else (Raise err, w1)
        end
  end.

(** The events of [k] calls that failed and were waited for: call, wait 8
    seconds, call, wait 16 seconds, and so on. *)
Definition retry_trace (r : request) (k : nat) : list event :=
  flat_map (fun server_retry => [Call r; Sleep ((server_retry + 1) * 8)]) (seq 0 k).

(** The world after more events. *)
Definition after (w : world) (evs : list event) : world :=
  {| w_rng := w_rng w; w_events := w_events w ++ evs |}.

(** The call failed, with a message that [is_transient] accepts. *)
Definition transient_failure (o : outcome) : Prop :=
  exists err, o = Failure err /\ is_transient err = true.

(** [temperature=0.5 + (attempt * 0.15)] *)
Definition temperature (attempt : nat) : Q :=
  (1 # 2) + inject_Z (Z.of_nat attempt) * (15 # 100).

Definition lift_exception {A} (o : option A) : M A :=
  match o with
  | Some a => ret a
  | None => raise (lit "IndexError")
  end.

(** [for attempt in range(MAX_RETRIES)], over the list of the remaining
    values of [attempt]; [last] holds [(seo_title, seo_description)] of the
    previous attempt, which the code after the loop returns. *)
Fixpoint attempts (client : service) (title clean_body : str)
  (existing_descriptions : list str) (product_type : category)
  (todo : list nat) (last : option (str * str)) : M (str * str) :=
  match todo with
  | [] => match last with
          | Some fields => ret fields
          | None => raise (lit "UnboundLocalError")
          end
  | attempt :: rest =>
      variation_hint <~ draw_hint product_type;
      let prompt := format_prompt product_type title clean_body variation_hint in
      content <~ server_retries client
                   {| req_prompt := prompt; req_temperature := temperature attempt |}
                   (seq 0 5);
      fields <~ lift_exception (parse_seo_response content title);
      let '(is_ok, score, similar_to) :=
        check_similarity fields.2 existing_descriptions in
      if is_ok then ret fields
      else _ <~ sleep API_DELAY;
           attempts client title clean_body existing_descriptions product_type
                    rest (Some fields)
  end.

(** [generate_seo(client, title, body_html, existing_descriptions, product_type)] *)
Definition generate_seo (client : service) (title body_html : str)
  (existing_descriptions : list str) (product_type : category) : M (str * str) :=
  attempts client title (strip_html body_html) existing_descriptions product_type
           (seq 0 MAX_RETRIES) None.

(** The candidate [fields] was parsed from the answer to the last call of
    [w], was rejected by the gate, and the pause after a rejection
    followed. *)
Definition last_rejected (client : service) (title : str) (pool : list str)
  (w : world) (fields : str * str) : Prop :=
  exists evs r content,
    w_events w = evs ++ [Call r; Sleep API_DELAY] /\
    client (calls_in evs) r = Response content /\
    parse_seo_response content title = Some fields /\
    (check_similarity fields.2 pool).1.1 = false.

(** ** The run: [main] *)

(** The mutable data of [main], and the progress file ([None]: no file). *)
Record state := {
  rows : list row;
  existing_descriptions : list str;
  processed_handles : gset str;
  progress_file : option (gset str)
}.

(** [load_progress()] *)
Definition load_progress (file : option (gset str)) : gset str := default ∅ file.

(** "Load progress": with [--overwrite] the set starts empty and the file
    is removed. *)
Definition startup (overwrite : bool) (file : option (gset str))
  : gset str * option (gset str) :=
  if overwrite then (∅, None) else (load_progress file, file).

Definition nonempty (s : str) : bool := negb (length s =? 0).

(** The test that puts a row among [products_to_process]. *)
Definition needs_seo (overwrite : bool) (processed : gset str) (r : row) : bool :=
  let title := Str.strip (get r "Title") in
  let handle := Str.strip (get r "Handle") in
  let existing_seo_desc := Str.strip (get r "SEO Description") in
  if overwrite
  then nonempty title && bool_decide (handle ∉ processed)
  else nonempty title && negb (nonempty existing_seo_desc)
       && bool_decide (handle ∉ processed).

(** [products_to_process], as the list of the row indices: the row of a
    pair [(i, row)] is the very dict [rows[i]]. *)
Definition products_to_process (overwrite : bool) (processed : gset str)
  (rs : list row) : list nat :=
  List.filter (fun i => match rs !! i with
                        | Some r => needs_seo overwrite processed r
                        | None => false
                        end) (seq 0 (length rs)).

(** "Collect existing descriptions for similarity checking". *)
Definition collect_descriptions (overwrite : bool) (rs : list row) : list str :=
  flat_map (fun r => let desc := Str.strip (get r "SEO Description") in
                     if nonempty desc && negb overwrite then [desc] else []) rs.

(** What the run did for one item: its row, its handle, the pool its
    candidates were gated against, the events of its [generate_seo] call
    and how that call ended. *)
Record report := {
  rp_index : nat;
  rp_handle : str;
  rp_pool : list str;
  rp_events : list event;
  rp_result : result (str * str)
}.

(** The body of the loop over [products_to_process] for one item, but for
    the pacing sleep. *)
Definition process_item (client : service) (product_type : category)
  (row_index : nat) (st : state) (w : world) : report * state * world :=
  let r := default ∅ (rows st !! row_index) in
  let title := Str.strip (get r "Title") in
  let body := get r "Body (HTML)" in
  let handle := Str.strip (get r "Handle") in
  let '(res, w') :=
    generate_seo client title body (existing_descriptions st) product_type w in
  let rp := {| rp_index := row_index; rp_handle := handle;
               rp_pool := existing_descriptions st;
               rp_events := drop (length (w_events w)) (w_events w');
               rp_result := res |} in
  match res with
  | Ok (seo_title, seo_description) =>
      let processed := {[ handle ]} ∪ processed_handles st in
      (rp,
       {| rows := <[row_index :=
                     <["SEO Description"%string := seo_description]>
                       (<["SEO Title"%string := seo_title]> r)]> (rows st);
          existing_descriptions := existing_descriptions st ++ [seo_description];
          processed_handles := processed;
          progress_file := Some processed |},
       w')
  | Raise _ => (rp, st, w')
  end.

(** [for idx, (row_index, row) in enumerate(products_to_process)], with the
    pacing sleep after every item but the last. *)
Fixpoint process_all (client : service) (product_type : category)
  (todo : list nat) (st : state) (w : world) : list report * state * world :=
  match todo with
  | [] => ([], st, w)
  | row_index :: rest =>
      let '(rp, st1, w1) := process_item client product_type row_index st w in
      let w2 := match rest with [] => w1 | _ => log (Sleep API_DELAY) w1 end in
      let '(rps, st2, w3) := process_all client product_type rest st1 w2 in
      (rp :: rps, st2, w3)
  end.

(** [main()], from "Load progress" to the end of the loop; [overwrite] is
    the [--overwrite] flag, [file] the progress file and [rs] the rows read
    from the input. *)
Definition main (client : service) (overwrite : bool) (file : option (gset str))
  (rs : list row) (w : world) : list report * state * world :=
  let '(processed, file') := startup overwrite file in
  let product_type := (detect_product_type rs).1 in
  let todo := products_to_process overwrite processed rs in
  process_all client product_type todo
    {| rows := rs; existing_descriptions := collect_descriptions overwrite rs;
       processed_handles := processed; progress_file := file' |} w.

(** The descriptions that the run appended to the pool for these items. *)
Definition accepted (rps : list report) : list str :=
  flat_map (fun rp => match rp_result rp with
                      | Ok (_, seo_description) => [seo_description]
                      | Raise _ => []
                      end) rps.

(** The item was written back: [generate_seo] returned for it. *)
Definition succeeded (rp : report) : bool :=
  match rp_result rp with Ok _ => true | Raise _ => false end.

(** The handles that the run added to the progress set. *)
Definition saved_handles (rps : list report) : gset str :=
  list_to_set (map rp_handle (List.filter succeeded rps)).

End Orchestrator.

(** The spec's reading of the detector's score, for comparison with
    [tally]: the number of places of [text] where [keyword] occurs, added up
    over the keywords of a category and the rows. *)
Fixpoint occurrences (keyword text : str) : nat :=
  (if Str.startswith keyword text then 1 else 0) +
  match text with
  | [] => 0
  | _ :: r => occurrences keyword r
  end.

Definition occurrence_score (rs : list row) (c : category) : nat :=
  list_sum (map (fun r => list_sum (map (fun keyword => occurrences keyword (row_text r))
                                        (PRODUCT_TYPE_KEYWORDS c))) rs).

(** The score the detector works with: a keyword counts once for every row
    whose text contains it. *)
Definition hit_score (rs : list row) (c : category) : nat :=
  list_sum (map (fun r => length (List.filter (fun keyword => Str.contains keyword (row_text r))
                                              (PRODUCT_TYPE_KEYWORDS c))) rs).

(** Position of a category among the keys of [PRODUCT_TYPE_KEYWORDS]. *)
Definition rank (c : category) : nat :=
  match c with
  | wall_clocks => 0
  | water_bottles => 1
  | lamp_shades => 2
  end.

Definition declared_before (d c : category) : Prop := rank d < rank c.

(** A stand-in for the collaborators, to run the model on examples: no
    randomness, the body as it is, and a prompt made of title and body. *)
Definition plain_collaborators : Collaborators :=
  {| rng_state := unit;
     get_variation_hint := fun _ g => ([], g);
     strip_html := fun s => s;
     format_prompt := fun _ title body _ => title ++ lit "|" ++ body |}.

(** The line carries the description label. *)
Definition has_description_label (line : str) : bool :=
  Str.startswith (lit "seo description:") (Str.lower line).

(** Every white-space character of [s] is a space that comes after a
    character that is not white space; [after_space] tells that the text
    so far ended with white space (or has not begun). *)
Fixpoint spaced (after_space : bool) (s : str) : bool :=
  match s with
  | [] => true
  | c :: r =>
      if Str.isspace c
      then negb after_space && Ascii.eqb c " " && spaced true r
      else spaced false r
  end.

(** White space occurs in [s] only as single spaces between other
    characters or at the end. *)
Definition single_spaced (s : str) : bool := spaced true s.

(** The value of [seo_description] when the loop over the lines ends. *)
Definition extracted_description (response_text original_title : str) : str :=
  match scan_lines (response_lines response_text) (original_title, []) with
  | Some fields => fields.2
  | None => []
  end.

(** A service that answers every call with the same text. *)
Definition echo_client (content : str) : service := fun _ _ => Response content.

(** A service whose first [k] calls fail with [err] and that answers
    [content] from then on. *)
Definition flaky_client (k : nat) (err content : str) : service :=
  fun n _ => if n <? k then Failure err else Response content.

(** The world before the run, for the stand-in collaborators. *)
Definition w0 : @world plain_collaborators := @Build_world plain_collaborators tt [].

(** A row without generated content, and one that has a description. *)
Definition clock_row : row :=
  {[ "Handle"%string := lit "clock-1"; "Title"%string := lit "Silent Wall Clock" ]}.

Definition old_row : row :=
  {[ "Handle"%string := lit "clock-2"; "Title"%string := lit "Oak Wall Clock";
     "SEO Description"%string := lit "Oak clock for the hallway." ]}.

(** ** [strip_html]

    The orchestrator takes the cleaned body as it comes from its
    collaborator; the function of the source is modelled here on its own. *)

Module Html.

(** [re.sub(r"<[^>]+>", " ", s)] *)
Equations? space_tags (s : str) : str by wf (length s) lt :=
  space_tags [] := [];
  space_tags (c :: r) with (if Ascii.eqb c "<" then Str.tag_len r else None) => {
    | Some n := " "%char :: space_tags (drop n r);
    | None := c :: space_tags r }.
Proof. all: rewrite ?length_drop; simpl; lia. Qed.

(** The class [\d] of [re] on code points below 256: the digits 0 to 9. *)
Definition isdigit (c : ascii) : bool :=
  let n := N_of_ascii c in ((48 <=? n) && (n <=? 57))%N.

(** The number of digits that [s] starts with. *)
Fixpoint digits (s : str) : nat :=
  match s with
  | [] => 0
  | c :: r => if isdigit c then S (digits r) else 0
  end.

(** With [r] the text after a [&]: the number of characters of [r] that
    the pattern [&#\d+;] consumes there, or [None] when it does not match
    (a [#], one digit at least, and a [;] right after the digits). *)
Definition charref_len (r : str) : option nat :=
  match r with
  | c :: r' =>
      if Ascii.eqb c "#" then
        let k := digits r' in
        match k, r' !! k with
        | S _, Some e => if Ascii.eqb e ";" then Some (k + 2) else None
        | _, _ => None
        end
      else None
  | [] => None
  end.

(** [re.sub(r"&#\d+;", "", s)] *)
Equations? drop_charrefs (s : str) : str by wf (length s) lt :=
  drop_charrefs [] := [];
  drop_charrefs (c :: r) with (if Ascii.eqb c "&" then charref_len r else None) => {
    | Some n := drop_charrefs (drop n r);
    | None := c :: drop_charrefs r }.
Proof. all: rewrite ?length_drop; simpl; lia. Qed.

(** The five substitutions on entities, in the order of the source; a
    pattern without special characters is replaced as [str.replace]
    does. *)
Definition decode_entities (text : str) : str :=
  drop_charrefs
    (Str.replace (lit "&nbsp;") (lit " ")
       (Str.replace (lit "&gt;") (lit ">")
          (Str.replace (lit "&lt;") (lit "<")
             (Str.replace (lit "&amp;") (lit "&") text)))).

(** [strip_html(html_text)] *)
Definition strip_html (html_text : str) : str :=
  match html_text with
  | [] => []
  | _ =>
      let text := space_tags html_text in
      let text := decode_entities text in
      let text := Str.strip (Str.collapse_ws text) in
      if 800 <? length text then take 800 text ++ lit "..." else text
  end.

End Html.

(** Closed facts are settled by evaluation. *)
Ltac by_computation := compute_done.

(** * Facts and claims

    From here on the file holds lemmas only: first about the text
    primitives and the parser, then about the detector, the matcher and the
    gate, then about the orchestrator and the run, and last further
    properties of the same functions and of the body cleaner. *)

(** * Facts on the [str] primitives *)

Module StrFacts.
Import Str.

Lemma eqb_true (x y : ascii) : Ascii.eqb x y = true <-> x = y.
Proof. apply Ascii.eqb_eq. Qed.

Lemma replace_cons o os new c r :
  replace (o :: os) new (c :: r) =
  if startswith (o :: os) (c :: r)
  then new ++ replace (o :: os) new (drop (length os) r)
  else c :: replace (o :: os) new r.
Proof.
  simp replace. destruct (startswith (o :: os) (c :: r)); reflexivity.
Qed.

Lemma strip_tags_cons c r :
  strip_tags (c :: r) =
  match (if Ascii.eqb c "<" then tag_len r else None) with
  | Some n => strip_tags (drop n r)
  | None => c :: strip_tags r
  end.
Proof.
  simp strip_tags.
  destruct (if Ascii.eqb c "<" then tag_len r else None); reflexivity.
Qed.

(** *** Which characters a step can leave in the text *)

Lemma startswith_elem p s x : startswith p s = true -> x ∈ p -> x ∈ s.
Proof.
  revert s. induction p as [|a p IH]; intros s Hp Hx.
  - inversion Hx.
  - destruct s as [|b s]; [discriminate|]. simpl in Hp.
    apply andb_true_iff in Hp as [Hab Hp]. apply eqb_true in Hab. subst b.
    apply elem_of_cons in Hx as [->|Hx]; [left | right; auto].
Qed.

Lemma lstrip_suffix s : lstrip s `suffix_of` s.
Proof.
  induction s as [|c s IH]; simpl; [done|].
  destruct (isspace c); [by apply suffix_cons_r | done].
Qed.

Lemma rstrip_prefix s : rstrip s `prefix_of` s.
Proof.
  unfold rstrip. destruct (lstrip_suffix (rev s)) as [k Hk].
  exists (rev k). rewrite <- rev_app_distr, <- Hk. by rewrite rev_involutive.
Qed.

Lemma elem_lstrip s x : x ∈ lstrip s -> x ∈ s.
Proof.
  destruct (lstrip_suffix s) as [k Hk]. intros Hx. rewrite Hk.
  apply elem_of_app. by right.
Qed.

Lemma elem_rstrip s x : x ∈ rstrip s -> x ∈ s.
Proof.
  destruct (rstrip_prefix s) as [k Hk]. intros Hx. rewrite Hk.
  apply elem_of_app. by left.
Qed.

Lemma elem_strip s x : x ∈ strip s -> x ∈ s.
Proof. unfold strip. intros Hx. by apply elem_lstrip, elem_rstrip. Qed.

Lemma elem_remove_char c s x : x ∈ remove_char c s <-> x ∈ s /\ x <> c.
Proof.
  unfold remove_char. rewrite list_elem_of_filter.
  split; intros [H1 H2]; split; auto.
  - intros ->. rewrite Ascii.eqb_refl in H1. exact H1.
  - destruct (Ascii.eqb x c) eqn:E; [apply eqb_true in E; contradiction | exact I].
Qed.

Lemma elem_collapse_from b s x :
  x ∈ collapse_from b s -> x ∈ s \/ x = " "%char.
Proof.
  revert b. induction s as [|c s IH]; intros b; simpl; [intros Hx; inversion Hx|].
  destruct (isspace c).
  - destruct b; rewrite ?elem_of_cons; intros Hx.
    + destruct (IH _ Hx); [left; by right | by right].
    + destruct Hx as [->|Hx]; [by right|].
      destruct (IH _ Hx); [left; by right | by right].
  - rewrite !elem_of_cons. intros [->|Hx]; [left; by left|].
    destruct (IH _ Hx); [left; by right | by right].
Qed.

Lemma elem_replace o os new s x :
  x ∈ replace (o :: os) new s -> x ∈ s \/ x ∈ new.
Proof.
  induction (Nat.lt_wf_0_projected length s) as [s _ IH].
  destruct s as [|c r]; [simp replace; intros Hx; inversion Hx|].
  rewrite replace_cons. destruct (startswith (o :: os) (c :: r)).
  - rewrite elem_of_app. intros [Hx|Hx]; [by right|].
    apply IH in Hx; [|rewrite length_drop; simpl; lia].
    destruct Hx as [Hx|Hx]; [left | by right].
    right. eapply elem_of_suffix; [exact Hx | apply suffix_drop].
  - rewrite elem_of_cons. intros [->|Hx]; [left; by left|].
    apply IH in Hx; [|simpl; lia]. destruct Hx; [left; by right | by right].
Qed.

Lemma elem_strip_tags s x : x ∈ strip_tags s -> x ∈ s.
Proof.
  induction (Nat.lt_wf_0_projected length s) as [s _ IH].
  destruct s as [|c r]; [simp strip_tags; done|].
  rewrite strip_tags_cons.
  destruct (if Ascii.eqb c "<" then tag_len r else None) as [n|].
  - intros Hx. apply IH in Hx; [|rewrite length_drop; simpl; lia].
    right. eapply elem_of_suffix; [exact Hx | apply suffix_drop].
  - rewrite !elem_of_cons. intros [->|Hx]; [by left|].
    right. apply IH; [simpl; lia | done].
Qed.

(** *** Markup tags: matches of the pattern [<[^>]+>] *)

Lemma find_gt_None s : find_gt s = None <-> ">"%char ∉ s.
Proof.
  induction s as [|c s IH]; simpl.
  - split; [intros _ Hx; inversion Hx | done].
  - destruct (Ascii.eqb c ">") eqn:E.
    + apply eqb_true in E. subst c. split; [discriminate|].
      intros Hn. exfalso. apply Hn. by left.
    + rewrite fmap_None, IH, not_elem_of_cons.
      split; [intros Hn; split; [|done] | by intros [_ Hn]].
      intros <-. by rewrite Ascii.eqb_refl in E.
Qed.

(** The pattern fails right after a [<] exactly when a [>] follows at once
    or no [>] follows at all. *)
Lemma tag_len_None r :
  tag_len r = None <-> head r = Some ">"%char \/ ">"%char ∉ r.
Proof.
  destruct r as [|c r]; simpl.
  - split; [intros _; right; intros Hx; inversion Hx | done].
  - destruct (Ascii.eqb c ">") eqn:E.
    + apply eqb_true in E. subst c. split; [by left | done].
    + rewrite fmap_None, find_gt_None. split.
      * intros Hn. right. rewrite not_elem_of_cons. split; [|done].
        intros <-. by rewrite Ascii.eqb_refl in E.
      * intros [Hh|Hn]; [|by apply not_elem_of_cons in Hn as [_ Hn]].
        injection Hh as ->. by rewrite Ascii.eqb_refl in E.
Qed.

Lemma no_tag_cons c r :
  no_tag (c :: r) <-> (c = "<"%char -> tag_len r = None) /\ no_tag r.
Proof.
  unfold no_tag. simpl. rewrite orb_false_iff, andb_false_iff. split.
  - intros [[Hc|Ht] Hr]; split; auto.
    + intros ->. by rewrite Ascii.eqb_refl in Hc.
    + intros _. by destruct (tag_len r).
  - intros [Hc Hr]. split; [|done].
    destruct (Ascii.eqb c "<") eqn:E; [right | by left].
    apply eqb_true in E. by rewrite (Hc E).
Qed.

Lemma no_tag_nil : no_tag [].
Proof. reflexivity. Qed.

Lemma no_tag_app_l p s : "<"%char ∉ p -> no_tag s -> no_tag (p ++ s).
Proof.
  induction p as [|c p IH]; intros Hp Hs; [done|].
  apply not_elem_of_cons in Hp as [Hc Hp]. simpl. apply no_tag_cons.
  split; [by intros -> | auto].
Qed.

Lemma no_tag_suffix t s : t `suffix_of` s -> no_tag s -> no_tag t.
Proof.
  intros [k ->]. induction k as [|c k IH]; [done|].
  simpl. intros Hs. apply no_tag_cons in Hs as [_ Hs]. auto.
Qed.

Lemma tag_len_None_take n r : tag_len r = None -> tag_len (take n r) = None.
Proof.
  rewrite !tag_len_None. intros [Hh|Hn].
  - destruct r as [|c r]; [done|]. injection Hh as ->.
    destruct n; simpl; [right; intros Hx; inversion Hx | by left].
  - right. intros Hx. apply Hn. eapply elem_of_prefix; [exact Hx | apply prefix_take].
Qed.

Lemma no_tag_take n s : no_tag s -> no_tag (take n s).
Proof.
  revert n. induction s as [|c s IH]; intros [|n] Hs; try done.
  simpl. apply no_tag_cons in Hs as [Hc Hs]. apply no_tag_cons.
  split; [intros E; by apply tag_len_None_take, Hc | auto].
Qed.

Lemma no_tag_prefix t s : t `prefix_of` s -> no_tag s -> no_tag t.
Proof.
  intros [k ->] Hs. apply (no_tag_take (length t)) in Hs.
  by rewrite take_app_length in Hs.
Qed.

(** A step [f] that keeps a leading [>] in place and brings in no [>]
    keeps the pattern from matching after a [<]. *)
Lemma tag_len_None_step (f : str -> str) r :
  (forall r', head (f (">"%char :: r')) = Some ">"%char) ->
  (">"%char ∈ f r -> ">"%char ∈ r) ->
  tag_len r = None -> tag_len (f r) = None.
Proof.
  intros Hgt Hin. rewrite !tag_len_None. intros [Hh|Hn]; [left | right; auto].
  destruct r as [|c r]; [done|]. injection Hh as ->. apply Hgt.
Qed.

Lemma no_tag_remove_char c s : c <> ">"%char -> no_tag s -> no_tag (remove_char c s).
Proof.
  intros Hc. induction s as [|x s IH]; [done|]. intros Hs.
  apply no_tag_cons in Hs as [Hx Hs]. unfold remove_char in *.
  rewrite filter_cons. case_decide as Hd; [|auto].
  apply no_tag_cons. split; [|auto]. intros E.
  apply (tag_len_None_step (remove_char c)); [| |auto].
  - intros r'. unfold remove_char. rewrite filter_cons.
    case_decide as Hd'; [done|]. exfalso. apply Hd'.
    destruct (Ascii.eqb ">" c) eqn:E'; [apply eqb_true in E'; by subst c | exact I].
  - intros Hin. by apply elem_remove_char in Hin as [Hin _].
Qed.

Lemma no_tag_collapse_from b s : no_tag s -> no_tag (collapse_from b s).
Proof.
  revert b. induction s as [|c s IH]; intros b Hs; [done|].
  apply no_tag_cons in Hs as [Hc Hs]. simpl.
  destruct (isspace c) eqn:Ec.
  - destruct b; [auto|]. apply no_tag_cons. split; [intros E; discriminate | auto].
  - apply no_tag_cons. split; [|auto]. intros E.
    apply (tag_len_None_step (collapse_from false)); [| |auto].
    + intros r'. reflexivity.
    + intros Hin. by destruct (elem_collapse_from _ _ _ Hin).
Qed.

Lemma no_tag_replace o os new s :
  o <> ">"%char -> ">"%char ∉ new -> "<"%char ∉ new ->
  no_tag s -> no_tag (replace (o :: os) new s).
Proof.
  intros Ho Hgt Hlt.
  induction (Nat.lt_wf_0_projected length s) as [s _ IH].
  destruct s as [|c r]; [by simp replace|]. intros Hs.
  rewrite replace_cons. destruct (startswith (o :: os) (c :: r)) eqn:Ep.
  - apply no_tag_app_l; [done|]. apply IH; [rewrite length_drop; simpl; lia|].
    eapply no_tag_suffix; [|exact Hs]. apply suffix_cons_r, suffix_drop.
  - apply no_tag_cons in Hs as [Hc Hs]. apply no_tag_cons.
    split; [|apply IH; [simpl; lia | done]]. intros E.
    apply (tag_len_None_step (replace (o :: os) new)); [| |auto].
    + intros r'. rewrite replace_cons. simpl.
      destruct (Ascii.eqb o ">") eqn:E'; [apply eqb_true in E'; done | done].
    + intros Hin. by destruct (elem_replace _ _ _ _ _ Hin).
Qed.

Lemma no_tag_strip_tags s : no_tag (strip_tags s).
Proof.
  induction (Nat.lt_wf_0_projected length s) as [s _ IH].
  destruct s as [|c r]; [by simp strip_tags|].
  rewrite strip_tags_cons.
  destruct (Ascii.eqb c "<") eqn:Ec.
  - destruct (tag_len r) as [n|] eqn:Et.
    + apply IH. rewrite length_drop. simpl. lia.
    + apply no_tag_cons. split; [|apply IH; simpl; lia]. intros _.
      apply (tag_len_None_step strip_tags); [| |done].
      * intros r'. by rewrite strip_tags_cons.
      * apply elem_strip_tags.
  - apply no_tag_cons. split; [|apply IH; simpl; lia].
    intros ->. discriminate.
Qed.

Lemma no_tag_strip s : no_tag s -> no_tag (strip s).
Proof.
  intros Hs. unfold strip. eapply no_tag_prefix; [apply rstrip_prefix|].
  eapply no_tag_suffix; [apply lstrip_suffix | done].
Qed.
End StrFacts.

(** * The response parser *)

Module ParserFacts.
Import Str StrFacts.

Lemma startswith_take p n s : startswith p (take n s) = true -> startswith p s = true.
Proof.
  revert n s. induction p as [|a p IH]; intros n s; [done|].
  destruct s as [|c s], n as [|n]; simpl; try done.
  rewrite !andb_true_iff. intros [? ?]; split; eauto.
Qed.

Lemma contains_false_cons p c r :
  contains p (c :: r) = false <->
  startswith p (c :: r) = false /\ contains p r = false.
Proof. simpl. apply orb_false_iff. Qed.

Lemma contains_false_suffix p t s :
  t `suffix_of` s -> contains p s = false -> contains p t = false.
Proof.
  intros [k ->]. induction k as [|c k IH]; [done|].
  simpl app. rewrite contains_false_cons. intros [_ Hs]. auto.
Qed.

Lemma contains_false_startswith p t s :
  t `suffix_of` s -> contains p s = false -> startswith p t = false.
Proof.
  intros Ht Hs. pose proof (contains_false_suffix _ _ _ Ht Hs) as Hc.
  destruct t; simpl in Hc; by apply orb_false_iff in Hc as [? _].
Qed.

Lemma contains_false_take p n s : contains p s = false -> contains p (take n s) = false.
Proof.
  revert n. induction s as [|c s IH]; intros n Hs.
  - by rewrite take_nil.
  - destruct n as [|n].
    + simpl take. destruct p; [discriminate | done].
    + apply contains_false_cons in Hs as [Hp Hs]. simpl take.
      apply contains_false_cons. split; [|auto].
      destruct (startswith p (c :: take n s)) eqn:E; [|done].
      change (c :: take n s) with (take (S n) (c :: s)) in E.
      apply startswith_take in E. congruence.
Qed.

Lemma contains_false_prefix p t s :
  t `prefix_of` s -> contains p s = false -> contains p t = false.
Proof.
  intros [k ->] Hs. apply (contains_false_take _ (length t)) in Hs.
  by rewrite take_app_length in Hs.
Qed.

(** A text put in front that lacks the first character of [p] adds no
    occurrence of [p]. *)
Lemma contains_app_new p0 p new s :
  p0 ∉ new -> contains (p0 :: p) (new ++ s) = contains (p0 :: p) s.
Proof.
  induction new as [|n new IH]; intros Hn; [done|].
  apply not_elem_of_cons in Hn as [Hne Hn]. simpl app.
  change (contains (p0 :: p) (n :: new ++ s))
    with (startswith (p0 :: p) (n :: new ++ s) || contains (p0 :: p) (new ++ s)).
  rewrite IH by done. simpl startswith.
  destruct (Ascii.eqb p0 n) eqn:E; [apply eqb_true in E; contradiction | done].
Qed.

(** What starts the text after a replacement already started it before, when
    it lacks the first character of the replacement. *)
Lemma startswith_replace o os n0 new q s :
  n0 ∉ q ->
  startswith q (replace (o :: os) (n0 :: new) s) = true -> startswith q s = true.
Proof.
  revert s. induction q as [|a q IH]; intros s Hq; [done|].
  apply not_elem_of_cons in Hq as [Hne Hq].
  destruct s as [|c r]; [by simp replace|].
  rewrite replace_cons. destruct (startswith (o :: os) (c :: r)).
  - simpl. destruct (Ascii.eqb a n0) eqn:E; [|done].
    apply eqb_true in E. congruence.
  - simpl. rewrite !andb_true_iff. intros [? ?]. split; auto.
Qed.

(** After [replace(old, new)] the text holds no [p], when before every
    occurrence of [p] was one of [old] and neither text holds the first
    character of the other. *)
Lemma contains_replace o os n0 new p0 p s :
  p0 ∉ n0 :: new -> n0 ∉ p0 :: p ->
  (forall t, t `suffix_of` s ->
             startswith (p0 :: p) t = true -> startswith (o :: os) t = true) ->
  contains (p0 :: p) (replace (o :: os) (n0 :: new) s) = false.
Proof.
  intros Hp Hn.
  induction (Nat.lt_wf_0_projected length s) as [s _ IH]. intros Hocc.
  destruct s as [|c r]; [by simp replace|].
  rewrite replace_cons. destruct (startswith (o :: os) (c :: r)) eqn:Eo.
  - rewrite contains_app_new by done. apply IH.
    + rewrite length_drop. simpl. lia.
    + intros t Ht. apply Hocc. etrans; [exact Ht|]. apply suffix_cons_r, suffix_drop.
  - apply contains_false_cons. split.
    + destruct (startswith (p0 :: p) (c :: replace (o :: os) (n0 :: new) r)) eqn:E; [|done].
      assert (startswith (p0 :: p) (replace (o :: os) (n0 :: new) (c :: r)) = true) as E'
        by (by rewrite replace_cons, Eo).
      apply startswith_replace in E'; [|done].
      apply Hocc in E'; [congruence | done].
    + apply IH; [simpl; lia|]. intros t Ht. apply Hocc. by apply suffix_cons_r.
Qed.

Lemma contains_replace_old o os n0 new s :
  o ∉ n0 :: new -> n0 ∉ o :: os ->
  contains (o :: os) (replace (o :: os) (n0 :: new) s) = false.
Proof. intros Ho Hn. apply contains_replace; auto. Qed.

Lemma contains_replace_other o os n0 new p0 p s :
  p0 ∉ n0 :: new -> n0 ∉ p0 :: p ->
  contains (p0 :: p) s = false ->
  contains (p0 :: p) (replace (o :: os) (n0 :: new) s) = false.
Proof.
  intros Hp Hn Hs. apply contains_replace; auto.
  intros t Ht E. by rewrite (contains_false_startswith _ _ _ Ht Hs) in E.
Qed.

(** The text after the three replacements holds none of the three terms. *)
Lemma replace_banned_clean d v :
  v ∈ banned_terms -> contains v (replace_banned d) = false.
Proof.
  unfold banned_terms, replace_banned. rewrite !elem_of_cons.
  set (s1 := replace (lit "faux leather") (lit "vinyl") d).
  set (s2 := replace (lit "Faux leather") (lit "Vinyl") s1).
  assert (contains (lit "faux leather") s1 = false) as H1
    by (apply contains_replace_old; by_computation).
  assert (contains (lit "faux leather") s2 = false) as H12
    by (apply contains_replace_other; [by_computation .. | exact H1]).
  assert (contains (lit "Faux leather") s2 = false) as H2
    by (apply contains_replace_old; by_computation).
  intros [->|[->|[->|Hv]]]; [| | |inversion Hv].
  - apply contains_replace_other; [by_computation .. | exact H12].
  - apply contains_replace_other; [by_computation .. | exact H2].
  - apply contains_replace_old; by_computation.
Qed.

(** *** No exception *)

Lemma lower_char_colon c : lower_char c = ":"%char -> c = ":"%char.
Proof.
  destruct c as [[] [] [] [] [] [] [] []]; vm_compute; congruence.
Qed.

Lemma split1_elem sep s : sep ∈ s -> exists p q, split1 sep s = [p; q].
Proof.
  induction s as [|c s IH]; intros Hs; [inversion Hs|]. simpl.
  destruct (Ascii.eqb c sep) eqn:E; [eauto|].
  apply elem_of_cons in Hs as [->|Hs]; [by rewrite Ascii.eqb_refl in E|].
  destruct (IH Hs) as (p & q & ->). eauto.
Qed.

Lemma after_colon_label p line :
  ":"%char ∈ p -> startswith p (lower line) = true -> is_Some (after_colon line).
Proof.
  intros Hp Hs. pose proof (startswith_elem _ _ _ Hs Hp) as Hl.
  unfold lower in Hl. apply list_elem_of_fmap in Hl as (c & Hc & Hl).
  symmetry in Hc. apply lower_char_colon in Hc. subst c.
  destruct (split1_elem _ _ Hl) as (x & y & E).
  unfold after_colon. rewrite E. simpl. eauto.
Qed.

Lemma scan_lines_total lines fields : is_Some (scan_lines lines fields).
Proof.
  revert fields. induction lines as [|line rest IH]; intros fields; [by eexists|].
  cbn [scan_lines].
  destruct (startswith (lit "seo title:") (lower line)) eqn:Et.
  - destruct (after_colon_label (lit "seo title:") line ltac:(by_computation) Et)
      as [t ->].
    apply IH.
  - destruct (startswith (lit "seo description:") (lower line)) eqn:Ed; [|apply IH].
    destruct (after_colon_label (lit "seo description:") line ltac:(by_computation) Ed)
      as [d ->].
    apply IH.
Qed.

Lemma cap_take n s : cap n s = take n s.
Proof.
  unfold cap. destruct (n <? length s) eqn:E; [done|].
  apply Nat.ltb_ge in E. by rewrite take_ge.
Qed.

(** The parser as one equation: it never raises. *)
Lemma parse_seo_response_eq response_text original_title :
  parse_seo_response response_text original_title =
  Some (take MAX_SEO_TITLE_LENGTH original_title,
        take MAX_SEO_DESCRIPTION_LENGTH
          (strip (collapse_ws
                    (substituted (extracted_description response_text original_title))))).
Proof.
  unfold parse_seo_response, extracted_description.
  destruct (scan_lines_total (response_lines response_text) (original_title, []))
    as [fields ->].
  simpl. by rewrite !cap_take.
Qed.

Lemma elem_substituted x d :
  x ∈ substituted d ->
  (x ∈ strip_tags d /\ x <> dquote /\ x <> squote) \/ x ∈ lit "vinyl" \/ x ∈ lit "Vinyl".
Proof.
  unfold substituted, replace_banned. intros Hx.
  apply elem_replace in Hx as [Hx|Hx]; [|auto].
  apply elem_replace in Hx as [Hx|Hx]; [|auto].
  apply elem_replace in Hx as [Hx|Hx]; [|auto].
  apply elem_remove_char in Hx as [Hx ?]. apply elem_remove_char in Hx as [Hx ?].
  auto.
Qed.

Lemma no_tag_substituted d : no_tag (substituted d).
Proof.
  unfold substituted, replace_banned.
  do 3 (apply no_tag_replace; [done | by_computation | by_computation |]).
  do 2 (apply no_tag_remove_char; [done|]).
  apply no_tag_strip_tags.
Qed.
End ParserFacts.

Section ParserClaims.
Import Str StrFacts ParserFacts.

(** C1, as amended: whatever the raw response says, the parser returns as
    title the first 70 characters of the original title, which is the
    original title itself when that has at most 70 characters. *)
Theorem parse_title_is_capped_original (response_text original_title : str) :
  exists d, parse_seo_response response_text original_title =
            Some (take MAX_SEO_TITLE_LENGTH original_title, d).
Proof. rewrite parse_seo_response_eq. eauto. Qed.

(** C1, as stated, fails for a title of 71 characters: the title that comes
    back has 70. *)
Lemma parse_title_long_is_cut :
  parse_seo_response (lit "SEO Title: Other") (replicate 71 "a"%char) =
    Some (replicate 70 "a"%char, []) /\
  replicate 70 "a"%char <> replicate 71 "a"%char.
Proof. split; [vm_compute; reflexivity | discriminate]. Qed.

(** C8, as amended: the parser raises no exception; the description it
    returns has at most 320 characters, no quote character and no markup
    tag, and the title at most 70 characters; the three capitalisations of
    the banned term are replaced in the text as it stands before white space
    is collapsed, so that text holds none of them, and neither does the
    returned description whenever collapsing white space leaves that text
    as it is. *)
Theorem parse_description_sanitized (response_text original_title : str) :
  exists t d,
    parse_seo_response response_text original_title = Some (t, d) /\
    length t <= MAX_SEO_TITLE_LENGTH /\
    length d <= MAX_SEO_DESCRIPTION_LENGTH /\
    (dquote ∉ d) /\ (squote ∉ d) /\ has_tag d = false /\
    let s := substituted (extracted_description response_text original_title) in
    d = take MAX_SEO_DESCRIPTION_LENGTH (strip (collapse_ws s)) /\
    (forall v, v ∈ banned_terms -> contains v s = false) /\
    (collapse_ws s = s -> forall v, v ∈ banned_terms -> contains v d = false).
Proof.
  rewrite parse_seo_response_eq. eexists _, _. split; [reflexivity|].
  set (s := substituted (extracted_description response_text original_title)).
  assert (forall x, x ∈ take MAX_SEO_DESCRIPTION_LENGTH (strip (collapse_ws s)) ->
                    x ∈ s \/ x = " "%char) as Hchars.
  { intros x Hx. apply elem_collapse_from with (b := false), elem_strip.
    eapply elem_of_prefix; [exact Hx | apply prefix_take]. }
  assert (forall v, v ∈ banned_terms -> contains v s = false) as Hclean
    by (intros v Hv; by apply replace_banned_clean).
  repeat split.
  - rewrite length_take. lia.
  - rewrite length_take. lia.
  - intros Hx. apply Hchars in Hx as [Hx|Hx]; [|discriminate].
    apply elem_substituted in Hx as [(_ & Hq & _)|[Hx|Hx]]; [done | |];
      revert Hx; by_computation.
  - intros Hx. apply Hchars in Hx as [Hx|Hx]; [|discriminate].
    apply elem_substituted in Hx as [(_ & _ & Hq)|[Hx|Hx]]; [done | |];
      revert Hx; by_computation.
  - apply no_tag_take, no_tag_strip, no_tag_collapse_from, no_tag_substituted.
  - exact Hclean.
  - intros Hs v Hv. rewrite Hs. apply contains_false_take.
    unfold strip. eapply contains_false_prefix; [apply rstrip_prefix|].
    eapply contains_false_suffix; [apply lstrip_suffix | auto].
Qed.

(** C8, as stated, fails on the banned term: written with two spaces it is
    not replaced, and collapsing the spaces then yields the term itself. *)
Lemma parse_keeps_spaced_banned_term :
  parse_seo_response (lit "SEO Description: faux  leather strap") (lit "Strap") =
    Some (lit "Strap", lit "faux leather strap") /\
  lit "faux leather" ∈ banned_terms /\
  contains (lit "faux leather") (lit "faux leather strap") = true.
Proof. split; [vm_compute; reflexivity | split; [by left | reflexivity]]. Qed.

(** A response in which the banned term is written with single spaces:
    both capitalisations are replaced. *)
Example parse_replaces_banned_term :
  parse_seo_response (lit "SEO Description: A 'Faux Leather' strap in <b>faux leather</b>.")
                     (lit "Strap") =
    Some (lit "Strap", lit "A Vinyl strap in vinyl.").
Proof. vm_compute. reflexivity. Qed.
End ParserClaims.

(** * The category detector *)

Section DetectorFacts.

Lemma category_eqb_eq c d : category_eqb c d = true <-> c = d.
Proof. destruct c, d; simpl; split; congruence. Qed.

Lemma score_keywords_at text c kws sc d :
  fold_left (fun sc keyword => if Str.contains keyword text then bump c sc else sc) kws sc d =
  sc d + (if category_eqb c d
          then length (List.filter (fun keyword => Str.contains keyword text) kws)
          else 0).
Proof.
  revert sc. induction kws as [|kw kws IH]; intros sc; simpl.
  - destruct (category_eqb c d); lia.
  - rewrite IH. destruct (Str.contains kw text); [|done].
    unfold bump. destruct (category_eqb c d); simpl; lia.
Qed.

Lemma score_row_at sc r d :
  score_row sc r d =
  sc d + length (List.filter (fun keyword => Str.contains keyword (row_text r))
                             (PRODUCT_TYPE_KEYWORDS d)).
Proof.
  unfold score_row, categories, score_keywords. cbn [fold_left].
  rewrite !score_keywords_at. destruct d; cbv [category_eqb]; lia.
Qed.

Lemma tally_from_at rs sc d :
  fold_left score_row rs sc d =
  sc d + list_sum (map (fun r => length (List.filter
                                          (fun keyword => Str.contains keyword (row_text r))
                                          (PRODUCT_TYPE_KEYWORDS d))) rs).
Proof.
  revert sc. induction rs as [|r rs IH]; intros sc; simpl; [lia|].
  rewrite IH, score_row_at. lia.
Qed.

(** The loops of the detector compute [hit_score]. *)
Lemma tally_hit_score rs d : tally rs d = hit_score rs d.
Proof. unfold tally. by rewrite tally_from_at. Qed.

Lemma max_key_first_max sc :
  (forall d, sc d <= sc (max_key sc)) /\
  (forall d, declared_before d (max_key sc) -> sc d < sc (max_key sc)).
Proof.
  unfold max_key, declared_before. cbn [fold_left].
  destruct (sc wall_clocks <? sc water_bottles) eqn:E1;
    [apply Nat.ltb_lt in E1 | apply Nat.ltb_ge in E1].
  - destruct (sc water_bottles <? sc lamp_shades) eqn:E2;
      [apply Nat.ltb_lt in E2 | apply Nat.ltb_ge in E2];
      split; intros []; simpl; lia.
  - destruct (sc wall_clocks <? sc lamp_shades) eqn:E2;
      [apply Nat.ltb_lt in E2 | apply Nat.ltb_ge in E2];
      split; intros []; simpl; lia.
Qed.

End DetectorFacts.

Section DetectorClaims.

(** C5, as amended: with the score of a category the number of pairs of a
    row and a keyword of the category such that the row's lowercased
    title, body, type and tags text contains the keyword (a keyword counts
    once per row, however often it occurs there), the detector returns the
    category of greatest score, the first declared among equals; it warns
    exactly when every score is zero and then returns [wall_clocks]; and
    when exactly one category has a non-zero score it returns that one.
    It is a total function: it never fails. *)
Theorem detect_product_type_first_max (rs : list row) :
  let c := (detect_product_type rs).1 in
  let warned := (detect_product_type rs).2 in
  (forall d, hit_score rs d <= hit_score rs c) /\
  (forall d, declared_before d c -> hit_score rs d < hit_score rs c) /\
  (warned = true <-> forall d, hit_score rs d = 0) /\
  (warned = true -> c = wall_clocks) /\
  (forall d, 0 < hit_score rs d ->
             (forall d', d' <> d -> hit_score rs d' = 0) -> c = d /\ warned = false).
Proof.
  unfold detect_product_type.
  destruct (max_key_first_max (tally rs)) as [Hmax Hfirst].
  assert (forall d, hit_score rs d = tally rs d) as Hs
    by (intros d; by rewrite tally_hit_score).
  destruct (tally rs (max_key (tally rs)) =? 0) eqn:E;
    [apply Nat.eqb_eq in E | apply Nat.eqb_neq in E]; cbn [fst snd].
  - assert (forall d, hit_score rs d = 0) as Hz
      by (intros d; rewrite Hs; specialize (Hmax d); lia).
    split; [intros d; rewrite !Hz; lia|].
    split; [intros d; unfold declared_before; simpl; lia|].
    split; [done|]. split; [done|].
    intros d Hd. rewrite Hz in Hd. lia.
  - split; [intros d; rewrite !Hs; apply Hmax|].
    split; [intros d; rewrite !Hs; apply Hfirst|].
    split; [split; [discriminate|]; intros Hz; exfalso; apply E; by rewrite <- Hs|].
    split; [discriminate|].
    intros d Hd Hothers. split; [|done].
    destruct (decide (max_key (tally rs) = d)) as [Heq|Hne]; [done|].
    exfalso. apply E. rewrite <- Hs. auto.
Qed.

(** C5, as stated, fails when a keyword occurs more than once in a row:
    here "clock" occurs three times, two keywords of [water_bottles] once
    each, and the detector returns [water_bottles]. *)
Lemma detect_counts_a_keyword_once_per_row :
  let rs : list row := [ {[ "Title"%string := lit "Clock clock clock bottle tumbler" ]} ] in
  detect_product_type rs = (water_bottles, false) /\
  occurrence_score rs wall_clocks = 3 /\
  occurrence_score rs water_bottles = 2 /\
  occurrence_score rs lamp_shades = 0.
Proof. vm_compute. repeat split. Qed.

End DetectorClaims.

(** * [difflib]: the matcher terminates *)

Module DifflibBounds.
Import Difflib Matching.

Section Bounds.
Variables a b : str.
Variable b2j : gmap ascii (list nat).
Variables alo ahi blo bhi : nat.

Local Abbreviation in_range := (Matching.in_range alo ahi).

Lemma j2len_get_pred_le bound j2len j :
  lengths_le bound j2len -> j2len_get_pred j2len j <= bound.
Proof.
  intros Hle. destruct j as [|j]; simpl; [lia|].
  destruct (j2len !! j) as [k|] eqn:E; simpl; [eauto | lia].
Qed.

Lemma scan_j_bounds i j2len st j :
  alo <= i < ahi -> lengths_le (i - alo) j2len ->
  in_range st.1 -> lengths_le (S i - alo) st.2 ->
  in_range (scan_j i j2len st j).1 /\ lengths_le (S i - alo) (scan_j i j2len st j).2.
Proof.
  intros Hi Hold Hbest Hnew. destruct st as [[[bi bj] bs] new].
  pose proof (j2len_get_pred_le _ _ j Hold) as Hk.
  unfold scan_j. cbn [fst snd] in *. split.
  - destruct (bs <? j2len_get_pred j2len j + 1); [|done].
    unfold in_range. cbn [fst snd]. lia.
  - intros j' k'. rewrite lookup_insert. case_decide; [|apply Hnew].
    intros [= <-]. lia.
Qed.

Lemma scan_js_bounds i j2len js st :
  alo <= i < ahi -> lengths_le (i - alo) j2len ->
  in_range st.1 -> lengths_le (S i - alo) st.2 ->
  in_range (scan_js blo bhi i j2len js st).1 /\
  lengths_le (S i - alo) (scan_js blo bhi i j2len js st).2.
Proof.
  intros Hi Hold. revert st. induction js as [|j js IH]; intros st Hbest Hnew; [done|].
  simpl. destruct (j <? blo); [by apply IH|].
  destruct (bhi <=? j); [done|].
  destruct (scan_j_bounds i j2len st j Hi Hold Hbest Hnew). by apply IH.
Qed.

Lemma scan_rows_bounds n i best j2len :
  alo <= i -> i + n <= ahi -> lengths_le (i - alo) j2len -> in_range best ->
  in_range (scan_rows a b2j blo bhi (seq i n) best j2len).
Proof.
  revert i best j2len. induction n as [|n IH]; intros i best j2len Hlo Hhi Hold Hbest;
    [done|].
  simpl.
  destruct (scan_js blo bhi i j2len (b2j_get a b2j i) (best, ∅)) as [best' new] eqn:E.
  assert (lengths_le (S i - alo) (∅ : gmap nat nat)) as Hempty
    by (intros j k; by rewrite lookup_empty).
  assert (alo <= i < ahi) as Hi by lia.
  destruct (scan_js_bounds i j2len (b2j_get a b2j i) (best, ∅) Hi Hold Hbest Hempty)
    as [H1 H2].
  rewrite E in H1, H2. cbn [fst snd] in H1, H2.
  apply IH; [lia | lia | exact H2 | done].
Qed.

Lemma extend_back_bounds bi bj bs :
  alo <= bi ->
  alo <= (extend_back a b alo blo bi bj bs).1.1 /\
  (extend_back a b alo blo bi bj bs).1.1 + (extend_back a b alo blo bi bj bs).2 = bi + bs.
Proof.
  revert bj bs. induction bi as [|bi IH]; intros bj bs Hlo; simpl; [lia|].
  destruct (alo <? S bi) eqn:E; simpl; [|lia].
  apply Nat.ltb_lt in E.
  destruct ((blo <? bj) && same_at a b bi (bj - 1)); simpl; [|lia].
  destruct (IH (bj - 1) (bs + 1)) as [H1 H2]; lia.
Qed.

Lemma extend_fwd_bounds room bi bj bs :
  (extend_fwd a b room bhi bi bj bs).1.1 = bi /\
  bs <= (extend_fwd a b room bhi bi bj bs).2 <= bs + room.
Proof.
  revert bs. induction room as [|room IH]; intros bs; simpl; [lia|].
  destruct ((bj + bs <? bhi) && same_at a b (bi + bs) (bj + bs)); simpl; [|lia].
  destruct (IH (bs + 1)) as [H1 H2]. lia.
Qed.

(** [find_longest_match] returns a block inside [a[alo:ahi]]. *)
Lemma find_longest_match_bounds :
  alo <= ahi -> in_range (find_longest_match a b b2j alo ahi blo bhi).
Proof.
  intros Hle. unfold find_longest_match.
  assert (in_range (scan_rows a b2j blo bhi (seq alo (ahi - alo)) (alo, blo, 0) ∅))
    as [H1 H2].
  { apply scan_rows_bounds; [lia | lia | | unfold in_range; simpl; lia].
    intros j k. by rewrite lookup_empty. }
  destruct (scan_rows a b2j blo bhi (seq alo (ahi - alo)) (alo, blo, 0) ∅)
    as [[bi bj] bs].
  cbn [fst snd] in H1, H2.
  pose proof (extend_back_bounds bi bj bs H1) as Hback.
  destruct (extend_back a b alo blo bi bj bs) as [[bi' bj'] bs'].
  cbn [fst snd] in Hback.
  pose proof (extend_fwd_bounds (ahi - (bi' + bs')) bi' bj' bs') as Hfwd.
  destruct (extend_fwd a b (ahi - (bi' + bs')) bhi bi' bj' bs') as [[bi'' bj''] bs''].
  unfold in_range. cbn [fst snd] in *. lia.
Qed.

Local Abbreviation in_range_b := (Matching.in_range_b blo bhi).
Local Abbreviation lengths_fit := (Matching.lengths_fit blo).

Lemma j2len_get_pred_fit j2len j :
  lengths_fit j2len -> blo <= j -> j2len_get_pred j2len j <= j - blo.
Proof.
  intros Hfit Hj. destruct j as [|j]; simpl; [lia|].
  destruct (j2len !! j) as [k|] eqn:E; simpl; [|lia].
  destruct (Hfit j k E). lia.
Qed.

Lemma scan_js_bounds_b i j2len js st :
  lengths_fit j2len -> in_range_b st.1 -> lengths_fit st.2 ->
  in_range_b (scan_js blo bhi i j2len js st).1 /\
  lengths_fit (scan_js blo bhi i j2len js st).2.
Proof.
  intros Hold. revert st. induction js as [|j js IH]; intros st Hbest Hnew; [done|].
  simpl. destruct (j <? blo) eqn:E1; [by apply IH|].
  destruct (bhi <=? j) eqn:E2; [done|].
  apply Nat.ltb_ge in E1. apply Nat.leb_gt in E2.
  pose proof (j2len_get_pred_fit j2len j Hold E1) as Hk.
  destruct st as [[[bi bj] bs] new]. cbn [fst snd] in *.
  apply IH; unfold scan_j; cbn [fst snd].
  - destruct (bs <? j2len_get_pred j2len j + 1); [|done].
    unfold Matching.in_range_b. cbn [fst snd]. lia.
  - intros j' k'. rewrite lookup_insert. case_decide as Hd; [|apply Hnew].
    intros [= <-]. subst j'. lia.
Qed.

Lemma scan_rows_bounds_b rows best j2len :
  lengths_fit j2len -> in_range_b best ->
  in_range_b (scan_rows a b2j blo bhi rows best j2len).
Proof.
  revert best j2len. induction rows as [|i rows IH]; intros best j2len Hold Hbest;
    [done|].
  simpl.
  assert (lengths_fit (∅ : gmap nat nat)) as Hempty
    by (intros j k; by rewrite lookup_empty).
  destruct (scan_js_bounds_b i j2len (b2j_get a b2j i) (best, ∅) Hold Hbest Hempty)
    as [H1 H2].
  destruct (scan_js blo bhi i j2len (b2j_get a b2j i) (best, ∅)) as [best' new].
  by apply IH.
Qed.

Lemma extend_back_bounds_b bi bj bs :
  blo <= bj ->
  blo <= (extend_back a b alo blo bi bj bs).1.2 /\
  (extend_back a b alo blo bi bj bs).1.2 + (extend_back a b alo blo bi bj bs).2 = bj + bs.
Proof.
  revert bj bs. induction bi as [|bi IH]; intros bj bs Hlo; simpl; [lia|].
  destruct (alo <? S bi); simpl; [|lia].
  destruct (blo <? bj) eqn:E; simpl; [|lia]. apply Nat.ltb_lt in E.
  destruct (same_at a b bi (bj - 1)); simpl; [|lia].
  destruct (IH (bj - 1) (bs + 1)) as [H1 H2]; lia.
Qed.

Lemma extend_fwd_bounds_b room bi bj bs :
  bj + bs <= bhi ->
  (extend_fwd a b room bhi bi bj bs).1.2 = bj /\
  bj + (extend_fwd a b room bhi bi bj bs).2 <= bhi.
Proof.
  revert bs. induction room as [|room IH]; intros bs Hhi; simpl; [lia|].
  destruct (bj + bs <? bhi) eqn:E; simpl; [|lia]. apply Nat.ltb_lt in E.
  destruct (same_at a b (bi + bs) (bj + bs)); simpl; [|lia].
  apply IH. lia.
Qed.

(** [find_longest_match] returns a block inside [b[blo:bhi]] too: the
    differences [i-k+1] and [j-k+1] of the scan are never negative. *)
Lemma find_longest_match_bounds_b :
  blo <= bhi -> in_range_b (find_longest_match a b b2j alo ahi blo bhi).
Proof.
  intros Hle. unfold find_longest_match.
  assert (in_range_b (scan_rows a b2j blo bhi (seq alo (ahi - alo)) (alo, blo, 0) ∅))
    as [H1 H2].
  { apply scan_rows_bounds_b; [|unfold Matching.in_range_b; simpl; lia].
    intros j k. by rewrite lookup_empty. }
  destruct (scan_rows a b2j blo bhi (seq alo (ahi - alo)) (alo, blo, 0) ∅)
    as [[bi bj] bs].
  cbn [fst snd] in H1, H2.
  pose proof (extend_back_bounds_b bi bj bs H1) as Hback.
  destruct (extend_back a b alo blo bi bj bs) as [[bi' bj'] bs'].
  cbn [fst snd] in Hback.
  pose proof (extend_fwd_bounds_b (ahi - (bi' + bs')) bi' bj' bs' ltac:(lia)) as Hfwd.
  destruct (extend_fwd a b (ahi - (bi' + bs')) bhi bi' bj' bs') as [[bi'' bj''] bs''].
  unfold Matching.in_range_b. cbn [fst snd] in *. lia.
Qed.
End Bounds.

Lemma weight_cons q queue :
  weight (q :: queue) = 2 * (q.1.1.2 - q.1.1.1) + 1 + weight queue.
Proof. reflexivity. Qed.

(** Fuel that covers the weight of the queue empties it. *)
Lemma blocks_loop_total a b b2j fuel queue acc :
  well_formed queue -> weight queue <= fuel ->
  is_Some (blocks_loop a b b2j fuel queue acc).
Proof.
  revert queue acc. induction fuel as [|fuel IH]; intros queue acc Hwf Hw.
  - destruct queue as [|[[[alo ahi] blo] bhi] queue]; [by eexists|].
    rewrite weight_cons in Hw. lia.
  - destruct queue as [|[[[alo ahi] blo] bhi] queue]; [by eexists|].
    apply Forall_cons in Hwf as [Hle Hwf]. cbn [fst snd] in Hle.
    rewrite weight_cons in Hw. cbn [fst snd] in Hw. cbn [blocks_loop].
    pose proof (find_longest_match_bounds a b b2j alo ahi blo bhi Hle) as Hb.
    destruct (find_longest_match a b b2j alo ahi blo bhi) as [[i j] k].
    unfold in_range in Hb. cbn [fst snd] in Hb.
    destruct (k =? 0) eqn:Ek; [apply IH; [done | lia]|].
    apply Nat.eqb_neq in Ek. apply IH.
    + destruct ((i + k <? ahi) && (j + k <? bhi)) eqn:E2;
        destruct ((alo <? i) && (blo <? j)) eqn:E1;
        repeat (apply Forall_cons; split); try done; cbn [fst snd].
      all: try (apply andb_true_iff in E2 as [E2 _]; apply Nat.ltb_lt in E2).
      all: try (apply andb_true_iff in E1 as [E1 _]; apply Nat.ltb_lt in E1).
      all: lia.
    + destruct ((i + k <? ahi) && (j + k <? bhi));
        destruct ((alo <? i) && (blo <? j));
        rewrite ?weight_cons; cbn [fst snd]; lia.
Qed.

Lemma get_matching_blocks_total a b : is_Some (get_matching_blocks a b).
Proof.
  unfold get_matching_blocks. apply blocks_loop_total.
  - apply Forall_cons. split; [simpl; lia | done].
  - unfold weight. simpl. lia.
Qed.
End DifflibBounds.

(** * [difflib]: a text compared with itself *)

Module DifflibSelf.
Import Difflib Matching DifflibBounds.

Lemma index_elts_lookup c i b b2j :
  index_elts i b b2j !! c =
  match positions_from c i b with
  | [] => b2j !! c
  | ps => Some (default [] (b2j !! c) ++ ps)
  end.
Proof.
  revert i b2j. induction b as [|d r IH]; intros i b2j; simpl; [done|].
  rewrite IH. case_decide as Hd.
  - subst d. rewrite lookup_insert_eq. simpl.
    destruct (positions_from c (S i) r); by rewrite <- ?app_assoc.
  - rewrite lookup_insert_ne by done. done.
Qed.

(** A list kept in [b2j] is the list of all the places of its key. *)
Lemma chain_b_lookup b c js :
  chain_b b !! c = Some js -> js = positions_from c 0 b.
Proof.
  unfold chain_b. intros Hl.
  assert (index_elts 0 b ∅ !! c = Some js) as Hi.
  { destruct (200 <=? length b); [|done].
    by apply map_lookup_filter_Some in Hl as [Hl _]. }
  rewrite index_elts_lookup, lookup_empty in Hi.
  destruct (positions_from c 0 b); [done|]. by injection Hi as <-.
Qed.

Lemma positions_from_spec c i b :
  Forall (fun j => i <= j /\ b !! (j - i) = Some c) (positions_from c i b).
Proof.
  revert i. induction b as [|d r IH]; intros i; simpl; [done|].
  assert (Forall (fun j => i <= j /\ (d :: r) !! (j - i) = Some c)
                 (positions_from c (S i) r)) as Hrest.
  { eapply Forall_impl; [apply IH|]. intros j [Hj Hl]. split; [lia|].
    replace (j - i) with (S (j - S i)) by lia. done. }
  case_decide as Hd; [|done]. apply Forall_cons. split; [|done].
  subst d. split; [lia|]. by rewrite Nat.sub_diag.
Qed.

(** The places come in increasing order: those before a given one are
    smaller, those after it greater. *)
Lemma positions_from_split c i b k :
  b !! k = Some c ->
  exists l1 l2, positions_from c i b = l1 ++ (i + k) :: l2 /\
                Forall (fun j => j < i + k) l1 /\ Forall (fun j => i + k < j) l2.
Proof.
  revert i k. induction b as [|d r IH]; intros i k Hk; [done|].
  destruct k as [|k]; simpl in *.
  - injection Hk as ->. rewrite decide_True by done.
    exists [], (positions_from c (S i) r). rewrite Nat.add_0_r.
    split; [done|]. split; [done|].
    eapply Forall_impl; [apply positions_from_spec|]. intros j [Hj _]. simpl in Hj. lia.
  - destruct (IH (S i) k Hk) as (l1 & l2 & E & H1 & H2).
    replace (i + S k) with (S i + k) by lia.
    case_decide.
    + exists (i :: l1), l2. rewrite E. split; [done|]. split; [|done].
      apply Forall_cons. split; [lia | done].
    + exists l1, l2. by rewrite E.
Qed.

Lemma scan_js_fold blo bhi i j2len js st :
  Forall (fun j => blo <= j < bhi) js ->
  scan_js blo bhi i j2len js st = fold_left (scan_j i j2len) js st.
Proof.
  revert st. induction js as [|j js IH]; intros st Hjs; [done|].
  apply Forall_cons in Hjs as [Hj Hjs]. simpl.
  destruct (j <? blo) eqn:E1; [apply Nat.ltb_lt in E1; lia|].
  destruct (bhi <=? j) eqn:E2; [apply Nat.leb_le in E2; lia|].
  by apply IH.
Qed.

Section Self.
Variable x : str.
Local Abbreviation b2j := (chain_b x).
Local Abbreviation n := (length x).
Local Abbreviation kept := (Matching.kept x).
Local Abbreviation run := (Matching.run x).
Local Abbreviation row_inv := (Matching.row_inv x).
Local Abbreviation cell_inv := (Matching.cell_inv x).

Lemma run_kept j : kept j = true -> run (S j) = S (run j).
Proof. intros Hk. simpl. by rewrite Hk. Qed.

(** A place other than [i]: the best match stays. *)
Lemma cell_step i seen j2len st j :
  (forall j, j2len_get_pred j2len j <= run j /\ j2len_get_pred j2len j <= run i) ->
  kept i = true -> kept j = true -> j <> i -> (j < i \/ seen = true) ->
  cell_inv i seen st ->
  cell_inv i seen (scan_j i j2len st j) /\ (scan_j i j2len st j).1 = st.1.
Proof.
  intros Hlen Hi Hj Hne Hord [Hd Hb Hs Hl].
  destruct st as [[[bi bj] bs] new]. cbn [fst snd] in *.
  destruct (Hlen j) as [Hk1 Hk2].
  assert (j2len_get_pred j2len j + 1 <= run (S j)) as Hkj
    by (rewrite (run_kept j Hj); lia).
  assert (j2len_get_pred j2len j + 1 <= run (S i)) as Hki
    by (rewrite (run_kept i Hi); lia).
  assert (j2len_get_pred j2len j + 1 <= bs) as Hle.
  { destruct Hord as [Hlt|Hseen].
    - specialize (Hb (S j)). lia.
    - destruct (Hs Hseen). lia. }
  unfold scan_j.
  destruct (bs <? j2len_get_pred j2len j + 1) eqn:E;
    [apply Nat.ltb_lt in E; lia|].
  split; [|done]. split; cbn [fst snd]; try done.
  - intros Hseen. destruct (Hs Hseen) as [H1 H2]. split; [done|].
    by rewrite lookup_insert_ne.
  - intros j' k'. rewrite lookup_insert. case_decide as Hd'.
    + intros [= <-]. by subst j'.
    + apply Hl.
Qed.

Lemma cell_steps i seen j2len js st :
  (forall j, j2len_get_pred j2len j <= run j /\ j2len_get_pred j2len j <= run i) ->
  kept i = true ->
  Forall (fun j => kept j = true /\ j <> i /\ (j < i \/ seen = true)) js ->
  cell_inv i seen st ->
  cell_inv i seen (fold_left (scan_j i j2len) js st) /\
  (fold_left (scan_j i j2len) js st).1 = st.1.
Proof.
  intros Hlen Hi. revert st.
  induction js as [|j js IH]; intros st Hjs Hc; [done|].
  apply Forall_cons in Hjs as [(Hj & Hne & Hord) Hjs]. simpl.
  destruct (cell_step i seen j2len st j Hlen Hi Hj Hne Hord Hc) as [Hc' Hsame].
  destruct (IH _ Hjs Hc') as [H1 H2]. split; [done | by rewrite H2].
Qed.

(** The place [i] itself: the match on the diagonal is as long as the
    stretch of kept elements, and becomes the best if it is longer. *)
Lemma cell_diagonal i j2len st :
  (forall j, j2len_get_pred j2len j <= run j /\ j2len_get_pred j2len j <= run i) ->
  j2len_get_pred j2len i = run i -> kept i = true ->
  cell_inv i false st -> cell_inv i true (scan_j i j2len st i).
Proof.
  intros Hlen Hhere Hi [Hd Hb _ Hl].
  destruct st as [[[bi bj] bs] new]. cbn [fst snd] in *.
  unfold scan_j. rewrite Hhere.
  replace (run i + 1) with (run (S i)) by (rewrite (run_kept i Hi); lia).
  destruct (bs <? run (S i)) eqn:E;
    [apply Nat.ltb_lt in E | apply Nat.ltb_ge in E];
    split; cbn [fst snd]; try done.
  - intros m Hm. specialize (Hb m Hm). lia.
  - intros _. by rewrite lookup_insert_eq.
  - intros j' k'. rewrite lookup_insert. case_decide as Hd'; [|apply Hl].
    intros [= <-]. by subst j'.
  - intros _. by rewrite lookup_insert_eq.
  - intros j' k'. rewrite lookup_insert. case_decide as Hd'; [|apply Hl].
    intros [= <-]. by subst j'.
Qed.

Lemma lookup_kept j c js : x !! j = Some c -> b2j !! c = Some js -> kept j = true.
Proof. intros Hj Hc. unfold kept. rewrite Hj, Hc. by apply bool_decide_eq_true. Qed.

(** One row of the scan keeps the invariant. *)
Lemma row_step i best j2len :
  i < n -> row_inv i best j2len ->
  row_inv (S i) (scan_js 0 n i j2len (b2j_get x b2j i) (best, ∅)).1
                (scan_js 0 n i j2len (b2j_get x b2j i) (best, ∅)).2.
Proof.
  intros Hi [Hd Hb Hlen Hhere].
  destruct (lookup_lt_is_Some_2 x i Hi) as [c Hc].
  unfold b2j_get. rewrite Hc.
  destruct (b2j !! c) as [js|] eqn:Ejs; simpl default.
  - pose proof (lookup_kept i c js Hc Ejs) as Hki.
    apply chain_b_lookup in Ejs as Hjs.
    pose proof (positions_from_spec c 0 x) as Hspec. rewrite <- Hjs in Hspec.
    destruct (positions_from_split c 0 x i Hc) as (l1 & l2 & Esplit & H1 & H2).
    rewrite <- Hjs in Esplit. simpl in Esplit.
    assert (Forall (fun j => kept j = true /\ j < n) js) as Hall.
    { eapply Forall_impl; [exact Hspec|]. intros j [_ Hj].
      rewrite Nat.sub_0_r in Hj. split; [by eapply lookup_kept|].
      by eapply lookup_lt_Some. }
    rewrite scan_js_fold
      by (eapply Forall_impl; [exact Hall|]; intros j [_ Hj]; simpl; lia).
    rewrite Esplit in Hall |- *.
    apply Forall_app in Hall as [Hall1 Hall2].
    apply Forall_cons in Hall2 as [_ Hall2].
    rewrite fold_left_app. cbn [fold_left].
    assert (cell_inv i false (best, ∅)) as Hc0.
    { split; cbn [fst snd]; try done; intros j k; by rewrite lookup_empty. }
    assert (Forall (fun j => kept j = true /\ j <> i /\ (j < i \/ false = true)) l1)
      as HF1.
    { apply Forall_forall. intros j Hj.
      rewrite Forall_forall in H1, Hall1.
      specialize (H1 j Hj). destruct (Hall1 j Hj). repeat split; [done|lia|by left]. }
    assert (Forall (fun j => kept j = true /\ j <> i /\ (j < i \/ true = true)) l2)
      as HF2.
    { apply Forall_forall. intros j Hj.
      rewrite Forall_forall in H2, Hall2.
      specialize (H2 j Hj). destruct (Hall2 j Hj). repeat split; [done|lia|by right]. }
    destruct (cell_steps i false j2len l1 (best, ∅) Hlen Hki HF1 Hc0) as [Hc1 _].
    pose proof (cell_diagonal i j2len _ Hlen Hhere Hki Hc1) as Hc2.
    destruct (cell_steps i true j2len l2 _ Hlen Hki HF2 Hc2) as [Hc3 _].
    destruct Hc3 as [Hd3 Hb3 Hs3 Hl3]. destruct (Hs3 eq_refl) as [Hs3a Hs3b].
    split.
    + done.
    + intros m Hm. destruct (decide (m = S i)) as [->|]; [done|]. apply Hb3. lia.
    + intros [|j]; simpl; [lia|].
      destruct (_ !! j) as [k|] eqn:Ek; simpl; [by apply Hl3 | lia].
    + simpl. by rewrite Hs3b.
  - assert (kept i = false) as Hki
      by (unfold kept; rewrite Hc, Ejs; apply bool_decide_eq_false; by intros [? ?]).
    cbn [scan_js fst snd]. split.
    + done.
    + intros m Hm. destruct (decide (m = S i)) as [->|]; [|apply Hb; lia].
      simpl. rewrite Hki. lia.
    + intros [|j]; simpl; rewrite ?lookup_empty; simpl; lia.
    + simpl. rewrite lookup_empty, Hki. done.
Qed.

(** The scan of a text against itself ends with a match on the diagonal. *)
Lemma scan_rows_diag m i best j2len :
  i + m <= n -> row_inv i best j2len ->
  (scan_rows x b2j 0 n (seq i m) best j2len).1.1 =
  (scan_rows x b2j 0 n (seq i m) best j2len).1.2.
Proof.
  revert i best j2len. induction m as [|m IH]; intros i best j2len Hm Hrow.
  - apply Hrow.
  - simpl. pose proof (row_step i best j2len ltac:(lia) Hrow) as Hnext.
    destruct (scan_js 0 n i j2len (b2j_get x b2j i) (best, ∅)) as [best' new].
    apply IH; [lia | done].
Qed.

Lemma same_at_refl i : i < n -> same_at x x i i = true.
Proof.
  intros Hi. destruct (lookup_lt_is_Some_2 x i Hi) as [c Hc].
  unfold same_at. rewrite Hc. apply Ascii.eqb_refl.
Qed.

Lemma extend_back_diag bi bs :
  bi <= n -> extend_back x x 0 0 bi bi bs = (0, 0, bs + bi).
Proof.
  revert bs. induction bi as [|bi IH]; intros bs Hn; simpl.
  - by rewrite Nat.add_0_r.
  - rewrite Nat.sub_0_r, same_at_refl by lia. simpl.
    rewrite IH by lia. f_equal. lia.
Qed.

Lemma extend_fwd_diag room bs :
  bs + room = n -> extend_fwd x x room n 0 0 bs = (0, 0, n).
Proof.
  revert bs. induction room as [|room IH]; intros bs Hn; simpl.
  - f_equal. lia.
  - rewrite same_at_refl by lia.
    destruct (bs <? n) eqn:E; [|apply Nat.ltb_ge in E; lia]. simpl.
    apply IH. lia.
Qed.

(** The longest match of a text with itself is the whole text. *)
Lemma find_longest_match_self : find_longest_match x x b2j 0 n 0 n = (0, 0, n).
Proof.
  unfold find_longest_match.
  assert (row_inv 0 (0, 0, 0) ∅) as Hrow0.
  { split; cbn [fst snd]; try done.
    - intros m Hm. assert (m = 0) as -> by lia. done.
    - intros [|j]; simpl; rewrite ?lookup_empty; simpl; lia. }
  pose proof (scan_rows_diag (n - 0) 0 (0, 0, 0) ∅ ltac:(lia) Hrow0) as Hdiag.
  assert (in_range 0 n (scan_rows x b2j 0 n (seq 0 (n - 0)) (0, 0, 0) ∅)) as [_ Hin].
  { apply scan_rows_bounds; [lia | lia | | unfold in_range; simpl; lia].
    intros j k. by rewrite lookup_empty. }
  destruct (scan_rows x b2j 0 n (seq 0 (n - 0)) (0, 0, 0) ∅) as [[bi bj] bs].
  cbn [fst snd] in *. subst bj.
  rewrite extend_back_diag by lia.
  apply extend_fwd_diag. lia.
Qed.
End Self.

Lemma get_matching_blocks_self x :
  get_matching_blocks x x =
  Some (if length x =? 0 then [] else [(0, 0, length x)]).
Proof.
  unfold get_matching_blocks. replace (2 * length x + 1) with (S (2 * length x)) by lia.
  cbn [blocks_loop]. rewrite find_longest_match_self.
  destruct (length x =? 0) eqn:E; [by destruct (2 * length x)|].
  rewrite Nat.ltb_irrefl. simpl andb.
  replace (0 + length x <? length x) with false
    by (symmetry; apply Nat.ltb_ge; lia).
  simpl. by destruct (length x + (length x + 0)).
Qed.
End DifflibSelf.

(** * The similarity ratio *)

Module RatioFacts.
Import Difflib DifflibBounds DifflibSelf.

Lemma calculate_ratio_canonical m len : Qred (calculate_ratio m len) = calculate_ratio m len.
Proof.
  unfold calculate_ratio. destruct (len =? 0); [reflexivity | apply Qred_involutive].
Qed.

Lemma calculate_ratio_nonneg m len : (0 <= calculate_ratio m len)%Q.
Proof.
  unfold calculate_ratio. destruct (len =? 0); [discriminate|].
  rewrite Qred_correct. unfold Qle. simpl. lia.
Qed.

Lemma calculate_ratio_all n : calculate_ratio n (n + n) = 1%Q.
Proof.
  unfold calculate_ratio. destruct (n + n =? 0) eqn:E; [done|].
  apply Nat.eqb_neq in E. change 1%Q with (Qred 1). apply Qred_complete.
  unfold Qeq. cbn [Qnum Qden].
  assert (Z.pos (Pos.of_nat (n + n)) = Z.of_nat (n + n)) as ->
    by (rewrite <- positive_nat_Z, Nat2Pos.id by done; done).
  lia.
Qed.

Lemma calculate_ratio_none len : len <> 0 -> calculate_ratio 0 len = 0%Q.
Proof.
  intros Hl. unfold calculate_ratio.
  destruct (len =? 0) eqn:E; [apply Nat.eqb_eq in E; done|].
  change 0%Q with (Qred 0). apply Qred_complete. reflexivity.
Qed.

(** Scores are fractions in lowest terms: equal as rationals, they are
    the same. *)
Lemma ratio_canonical a b : Qred (ratio a b) = ratio a b.
Proof. apply calculate_ratio_canonical. Qed.

Lemma ratio_nonneg a b : (0 <= ratio a b)%Q.
Proof. apply calculate_ratio_nonneg. Qed.

Lemma ratio_eq a b q : Qred q = q -> (ratio a b == q)%Q -> ratio a b = q.
Proof.
  intros Hq E. rewrite <- Hq, <- (ratio_canonical a b). by apply Qred_complete.
Qed.

(** [ratio(x, x) = 1.0] *)
Lemma ratio_self x : ratio x x = 1%Q.
Proof.
  unfold ratio. rewrite get_matching_blocks_self. simpl default.
  destruct (length x =? 0) eqn:E.
  - apply Nat.eqb_eq in E. rewrite E. reflexivity.
  - simpl. rewrite Nat.add_0_r. apply calculate_ratio_all.
Qed.

Lemma scan_rows_no_keys a rows best j2len blo bhi :
  scan_rows a ∅ blo bhi rows best j2len = best.
Proof.
  revert j2len. induction rows as [|i rows IH]; intros j2len; [done|].
  simpl. unfold b2j_get. destruct (a !! i); rewrite ?lookup_empty; simpl; apply IH.
Qed.

(** Nothing matches an empty text. *)
Lemma ratio_empty_r a : a <> [] -> ratio a [] = 0%Q.
Proof.
  intros Ha. unfold ratio, get_matching_blocks.
  replace (2 * length a + 1) with (S (2 * length a)) by lia.
  cbn [blocks_loop]. unfold find_longest_match.
  change (chain_b []) with (∅ : gmap ascii (list nat)).
  rewrite scan_rows_no_keys. cbn [extend_back].
  destruct a as [|c a]; [done|]. simpl.
  destruct (length a + S (length a + 0)); simpl; apply calculate_ratio_none; lia.
Qed.

Lemma ratio_empty_l b : b <> [] -> ratio [] b = 0%Q.
Proof.
  intros Hb. unfold ratio, get_matching_blocks. simpl.
  apply calculate_ratio_none. destruct b; [done | simpl; lia].
Qed.

(** The ratio depends on the order of its arguments: scanning "tide"
    against "diet" the first longest match is the "t" at the end of
    "diet", which leaves nothing to match on either side. *)
Example ratio_tide_diet :
  ratio (lit "tide") (lit "diet") = (1 # 4)%Q /\ ratio (lit "diet") (lit "tide") = (1 # 2)%Q.
Proof. split; vm_compute; reflexivity. Qed.

(** A text of 240 characters in which "a" is popular: only "b" is indexed,
    and the match found through it is extended over the popular elements. *)
Example ratio_popular :
  ratio (replicate 120 "a"%char ++ lit "b" ++ replicate 119 "a"%char)
        (replicate 119 "a"%char ++ lit "b" ++ replicate 120 "a"%char) = (239 # 240)%Q.
Proof. vm_compute. reflexivity. Qed.
End RatioFacts.

(** * The similarity gate *)

Module GateFacts.
Import RatioFacts.

Lemma Qltb_lt x y : Qltb x y = true <-> (x < y)%Q.
Proof.
  unfold Qltb. rewrite negb_true_iff. split.
  - intros E. apply Qnot_le_lt. intros Hle. apply Qle_bool_iff in Hle. congruence.
  - intros Hlt. destruct (Qle_bool y x) eqn:E; [|done].
    apply Qle_bool_iff in E. by apply Qlt_not_le in Hlt.
Qed.

Lemma Qltb_ge x y : Qltb x y = false <-> (y <= x)%Q.
Proof.
  unfold Qltb. rewrite negb_false_iff. apply Qle_bool_iff.
Qed.

Lemma similarity_nonneg x y : (0 <= similarity x y)%Q.
Proof. apply ratio_nonneg. Qed.

Lemma similarity_zero x y : (similarity x y <= 0)%Q -> similarity x y = 0%Q.
Proof.
  intros Hle. apply ratio_eq; [reflexivity|].
  apply Qle_antisym; [done | apply ratio_nonneg].
Qed.

Lemma similarity_self x : similarity x x = 1%Q.
Proof. apply ratio_self. Qed.

Lemma worst_step_keeps x seen s m y :
  worst_of x seen s m ->
  worst_of x (seen ++ [y]) (worst_step x (s, m) y).1 (worst_step x (s, m) y).2.
Proof.
  intros (Hs & Hmax & Hm). unfold worst_step. cbn [fst snd].
  destruct (Qltb s (similarity x y)) eqn:E; cbn [fst snd].
  - apply Qltb_lt in E. split; [apply similarity_nonneg|]. split.
    + intros z Hz. apply elem_of_app in Hz as [Hz|Hz].
      * apply Qlt_le_weak. eapply Qle_lt_trans; [by apply Hmax | done].
      * apply list_elem_of_singleton in Hz as ->. apply Qle_refl.
    + right. split; [by eapply Qle_lt_trans|].
      exists seen, []. split; [done|]. split; [done|].
      intros z Hz. eapply Qle_lt_trans; [by apply Hmax | done].
  - apply Qltb_ge in E. split; [done|]. split.
    + intros z Hz. apply elem_of_app in Hz as [Hz|Hz]; [by apply Hmax|].
      by apply list_elem_of_singleton in Hz as ->.
    + destruct Hm as [Hm|(Hpos & pre & post & -> & Hsim & Hpre)]; [by left|].
      right. split; [done|]. exists pre, (post ++ [y]).
      by rewrite <- app_assoc.
Qed.

Lemma worst_fold x rest seen s m :
  worst_of x seen s m ->
  worst_of x (seen ++ rest) (fold_left (worst_step x) rest (s, m)).1
                            (fold_left (worst_step x) rest (s, m)).2.
Proof.
  revert seen s m. induction rest as [|y rest IH]; intros seen s m Hw.
  - by rewrite app_nil_r.
  - simpl. replace (seen ++ y :: rest) with ((seen ++ [y]) ++ rest)
      by (by rewrite <- app_assoc).
    pose proof (worst_step_keeps x seen s m y Hw) as Hy.
    destruct (worst_step x (s, m) y) as [s' m']. by apply IH.
Qed.

Lemma check_similarity_single x y :
  (check_similarity x [y]).1.2 = similarity x y.
Proof.
  unfold check_similarity. cbn [fold_left]. unfold worst_step. cbn [fst snd].
  destruct (Qltb 0 (similarity x y)) eqn:E; cbn [fst snd]; [done|].
  apply Qltb_ge in E. symmetry. by apply similarity_zero.
Qed.
End GateFacts.

Section GateClaims.
Import RatioFacts GateFacts.

(** C2, as amended: [check(x, [])] accepts with score 0; [check(x, [x])]
    rejects with score 1; and for a pool that is not empty the reported
    score is the greatest lowercased similarity ratio over the pool, the
    candidate is accepted exactly when that score is below 0.80, and the
    reported match is the first member of the pool that reaches the score
    when the score is positive, and the empty text when the score is 0. *)
Theorem check_similarity_spec (x y : str) (pool : list str) :
  check_similarity x [] = (true, 0%Q, []) /\
  check_similarity x [x] = (false, 1%Q, x) /\
  exists s m,
    check_similarity x (y :: pool) = (Qltb s SIMILARITY_THRESHOLD, s, m) /\
    (Qltb s SIMILARITY_THRESHOLD = true <-> (s < SIMILARITY_THRESHOLD)%Q) /\
    (forall z, z ∈ y :: pool -> (similarity x z <= s)%Q) /\
    (exists z, z ∈ y :: pool /\ similarity x z = s) /\
    ((0 < s)%Q ->
     exists pre post, y :: pool = pre ++ m :: post /\ similarity x m = s /\
                      forall z, z ∈ pre -> (similarity x z < s)%Q) /\
    (s = 0%Q -> m = []).
Proof.
  split; [reflexivity|]. split.
  - unfold check_similarity. cbn [fold_left]. unfold worst_step. cbn [fst snd].
    rewrite similarity_self. reflexivity.
  - assert (worst_of x [] 0%Q []) as H0.
    { split; [apply Qle_refl|]. split; [intros z Hz; inversion Hz | by left]. }
    pose proof (worst_fold x (y :: pool) [] 0%Q [] H0) as Hw.
    unfold check_similarity.
    destruct (fold_left (worst_step x) (y :: pool) (0%Q, [])) as [s m].
    cbn [fst snd app] in Hw. destruct Hw as (Hs & Hmax & Hm).
    exists s, m. split; [done|]. split; [apply Qltb_lt|]. split; [done|]. split.
    + destruct Hm as [[-> ->]|(Hpos & pre & post & E & Hsim & Hpre)].
      * exists y. split; [by left|]. apply similarity_zero, Hmax. by left.
      * exists m. split; [|done]. rewrite E. apply elem_of_app. right. by left.
    + split.
      * intros Hpos. destruct Hm as [[-> ->]|(_ & Hm)]; [|done].
        by apply Qlt_irrefl in Hpos.
      * intros ->. destruct Hm as [[_ ->]|(Hpos & _)]; [done|].
        by apply Qlt_irrefl in Hpos.
Qed.

(** C2, as stated, fails on the reported match: when no member of the pool
    has a positive score, the empty text is reported, which here is not in
    the pool. *)
Lemma check_similarity_reports_no_member :
  check_similarity (lit "abc") [lit "xyz"] = (true, 0%Q, []) /\
  similarity (lit "abc") (lit "xyz") = 0%Q /\
  ([] : str) ∉ [lit "xyz"].
Proof.
  split; [vm_compute; reflexivity|]. split; [vm_compute; reflexivity|].
  intros Hin. apply list_elem_of_singleton in Hin. discriminate.
Qed.

(** C9, as amended: the score of [check(x, [y])] equals that of
    [check(y, [x])] when [x] and [y] are equal once lowercased, and when
    one of them is empty; for other texts the two scores may differ. *)
Theorem check_similarity_symmetric_cases (x y : str) :
  Str.lower x = Str.lower y \/ x = [] \/ y = [] ->
  (check_similarity x [y]).1.2 = (check_similarity y [x]).1.2.
Proof.
  rewrite !check_similarity_single. unfold similarity.
  intros [E | [ -> | -> ] ].
  - by rewrite E.
  - simpl. destruct y as [|c y]; [done|].
    rewrite ratio_empty_l, ratio_empty_r; done.
  - simpl. destruct x as [|c x]; [done|].
    rewrite ratio_empty_l, ratio_empty_r; done.
Qed.

(** C9 at work: two texts that differ in case only. *)
Lemma check_similarity_symmetric_cases_witness :
  (check_similarity (lit "Wall Clock") [lit "wall clock"]).1.2 =
  (check_similarity (lit "wall clock") [lit "Wall Clock"]).1.2.
Proof.
  apply (check_similarity_symmetric_cases (lit "Wall Clock") (lit "wall clock")).
  left. reflexivity.
Defined.

(** C9, as stated, fails: the score depends on which text is the
    candidate. *)
Lemma check_similarity_order_matters :
  (check_similarity (lit "tide") [lit "diet"]).1.2 = (1 # 4)%Q /\
  (check_similarity (lit "diet") [lit "tide"]).1.2 = (1 # 2)%Q /\
  (check_similarity (lit "tide") [lit "diet"]).1.2 <>
  (check_similarity (lit "diet") [lit "tide"]).1.2.
Proof.
  assert ((check_similarity (lit "tide") [lit "diet"]).1.2 = (1 # 4)%Q) as E1
    by (vm_compute; reflexivity).
  assert ((check_similarity (lit "diet") [lit "tide"]).1.2 = (1 # 2)%Q) as E2
    by (vm_compute; reflexivity).
  rewrite E1, E2. repeat split. discriminate.
Qed.
End GateClaims.

(** * The generation orchestrator *)

Section OrchestratorFacts.
Context `{Collaborators}.
Import ParserFacts.

Lemma calls_in_app evs evs' : calls_in (evs ++ evs') = calls_in evs + calls_in evs'.
Proof. unfold calls_in. by rewrite List.filter_app, length_app. Qed.

Lemma calls_in_retries r j k :
  calls_in (flat_map (fun i => [Call r; Sleep ((i + 1) * 8)]) (seq j k)) = k.
Proof.
  unfold calls_in. revert j. induction k as [|k IH]; intros j; [done|].
  cbn [seq flat_map app List.filter is_call length]. by rewrite IH.
Qed.

Lemma calls_in_retry_trace r k : calls_in (retry_trace r k) = k.
Proof. apply calls_in_retries. Qed.

Lemma sleeps_in_retries r j k :
  sleeps_in (flat_map (fun i => [Call r; Sleep ((i + 1) * 8)]) (seq j k)) =
  map (fun retry_count => retry_count * 8) (seq (S j) k).
Proof.
  unfold sleeps_in. revert j. induction k as [|k IH]; intros j; [done|].
  cbn [seq flat_map app map]. rewrite IH. f_equal. f_equal. lia.
Qed.

(** The waits of [k] retries are 8, 16, ... seconds: the count of the retry
    times 8. *)
Lemma sleeps_in_retry_trace r k :
  sleeps_in (retry_trace r k) = map (fun retry_count => retry_count * 8) (seq 1 k).
Proof. apply sleeps_in_retries. Qed.

Lemma after_after w evs evs' : after (after w evs) evs' = after w (evs ++ evs').
Proof. unfold after. simpl. by rewrite <- app_assoc. Qed.

Lemma log_after e w : log e w = after w [e].
Proof. reflexivity. Qed.

Lemma after_nil w : after w [] = w.
Proof. destruct w. unfold after. simpl. by rewrite app_nil_r. Qed.

(** The loop over [server_retry], started at [j], when the next [k] calls
    fail with a transient error: it comes to the call after them. *)
Lemma server_retries_transient client r k j w :
  j + k <= 4 ->
  (forall i, i < k -> transient_failure (client (calls_in (w_events w) + i) r)) ->
  server_retries client r (seq j (5 - j)) w =
  server_retries client r (seq (j + k) (5 - (j + k)))
    (after w (flat_map (fun i => [Call r; Sleep ((i + 1) * 8)]) (seq j k))).
Proof.
  revert j w. induction k as [|k IH]; intros j w Hj Hfail.
  - by rewrite Nat.add_0_r, after_nil.
  - destruct (Hfail 0 ltac:(lia)) as (err & Herr & Ht). rewrite Nat.add_0_r in Herr.
    replace (5 - j) with (S (5 - S j)) by lia. cbn [seq server_retries].
    unfold create. rewrite Herr, Ht.
    destruct (j =? 4) eqn:E; [apply Nat.eqb_eq in E; lia|].
    rewrite (IH (S j)).
    + rewrite !log_after, !after_after. cbn [seq flat_map app].
      replace (S j + k) with (j + S k) by lia. done.
    + lia.
    + intros i Hi. rewrite !log_after, !after_after. cbn [after w_events].
      rewrite calls_in_app.
      replace (calls_in (w_events w) + calls_in ([Call r] ++ [Sleep ((j + 1) * 8)]) + i)
        with (calls_in (w_events w) + S i) by (unfold calls_in; simpl; lia).
      apply Hfail. lia.
Qed.

Lemma server_retries_skip client r k w :
  k <= 4 ->
  (forall i, i < k -> transient_failure (client (calls_in (w_events w) + i) r)) ->
  server_retries client r (seq 0 5) w =
  server_retries client r (seq k (5 - k)) (after w (retry_trace r k)).
Proof.
  intros Hk Hfail. change (seq 0 5) with (seq 0 (5 - 0)).
  by rewrite (server_retries_transient client r k 0 w).
Qed.

(** After [k < 5] transient failures, an answer ends the loop. *)
Lemma server_retries_answer client r k w content :
  k < 5 ->
  (forall i, i < k -> transient_failure (client (calls_in (w_events w) + i) r)) ->
  client (calls_in (w_events w) + k) r = Response content ->
  server_retries client r (seq 0 5) w = (Ok content, after w (retry_trace r k ++ [Call r])).
Proof.
  intros Hk Hfail Hans.
  rewrite (server_retries_skip client r k w) by (done || lia).
  replace (5 - k) with (S (5 - S k)) by lia.
  cbn [seq server_retries]. unfold create. cbn [after w_events].
  rewrite calls_in_app, calls_in_retry_trace, Hans.
  by rewrite log_after, after_after.
Qed.

(** After [k < 5] transient failures, a failure of another kind is raised
    at once. *)
Lemma server_retries_fatal client r k w err :
  k < 5 ->
  (forall i, i < k -> transient_failure (client (calls_in (w_events w) + i) r)) ->
  client (calls_in (w_events w) + k) r = Failure err -> is_transient err = false ->
  server_retries client r (seq 0 5) w = (Raise err, after w (retry_trace r k ++ [Call r])).
Proof.
  intros Hk Hfail Hans Ht.
  rewrite (server_retries_skip client r k w) by (done || lia).
  replace (5 - k) with (S (5 - S k)) by lia.
  cbn [seq server_retries]. unfold create. cbn [after w_events].
  rewrite calls_in_app, calls_in_retry_trace, Hans, Ht.
  by rewrite log_after, after_after.
Qed.

(** The fifth transient failure in a row is waited for and then raised. *)
Lemma server_retries_give_up client r w err :
  (forall i, i < 4 -> transient_failure (client (calls_in (w_events w) + i) r)) ->
  client (calls_in (w_events w) + 4) r = Failure err -> is_transient err = true ->
  server_retries client r (seq 0 5) w = (Raise err, after w (retry_trace r 5)).
Proof.
  intros Hfail Hans Ht.
  rewrite (server_retries_skip client r 4 w) by (done || lia).
  cbn [seq server_retries Nat.sub]. unfold create. cbn [after w_events].
  rewrite calls_in_app, calls_in_retry_trace, Hans, Ht. simpl (4 =? 4).
  rewrite !log_after, !after_after. reflexivity.
Qed.

(** An exception of the service call ends [generate_seo] for the item. *)
Lemma attempts_raise client title clean_body pool product_type attempt rest last w err w' :
  server_retries client
    {| req_prompt := format_prompt product_type title clean_body
                       (get_variation_hint product_type (w_rng w)).1;
       req_temperature := temperature attempt |}
    (seq 0 5)
    {| w_rng := (get_variation_hint product_type (w_rng w)).2;
       w_events := w_events w |} = (Raise err, w') ->
  attempts client title clean_body pool product_type (attempt :: rest) last w =
  (Raise err, w').
Proof.
  intros Hr. cbn [attempts]. unfold bind at 1. unfold draw_hint.
  destruct (get_variation_hint product_type (w_rng w)) as [hint g].
  cbn [fst snd] in Hr. unfold bind at 1. by rewrite Hr.
Qed.
End OrchestratorFacts.

Section OrchestratorClaims.
Context `{Collaborators}.
Import ParserFacts.

Lemma attempts_all_rejected client title clean_body pool product_type :
  (forall n r, exists content, client n r = Response content) ->
  (forall n r content fields,
      client n r = Response content ->
      parse_seo_response content title = Some fields ->
      (check_similarity fields.2 pool).1.1 = false) ->
  forall todo last w,
    (forall fields, last = Some fields -> last_rejected client title pool w fields) ->
    todo <> [] \/ is_Some last ->
    exists fields w',
      attempts client title clean_body pool product_type todo last w = (Ok fields, w') /\
      last_rejected client title pool w' fields /\
      calls_in (w_events w') = calls_in (w_events w) + length todo.
Proof.
  intros Hans Hrej. induction todo as [|attempt rest IH]; intros last w Hlast Hne.
  - destruct Hne as [?|[fields ->]]; [done|].
    exists fields, w. simpl. split; [done|]. split; [by apply Hlast | lia].
  - cbn [attempts]. unfold bind at 1. unfold draw_hint.
    destruct (get_variation_hint product_type (w_rng w)) as [hint g].
    set (w1 := {| w_rng := g; w_events := w_events w |}).
    set (r := {| req_prompt := format_prompt product_type title clean_body hint;
                 req_temperature := temperature attempt |}).
    destruct (Hans (calls_in (w_events w1)) r) as [content Hc].
    unfold bind at 1.
    rewrite (server_retries_answer client r 0 w1 content);
      [| lia | intros i Hi; lia | by rewrite Nat.add_0_r].
    unfold bind at 1.
    destruct (parse_seo_response content title) as [fields|] eqn:Ep;
      [|by rewrite parse_seo_response_eq in Ep].
    cbn [lift_exception ret].
    pose proof (Hrej _ _ _ _ Hc Ep) as Hr.
    destruct (check_similarity fields.2 pool) as [[is_ok score] similar_to] eqn:Echeck.
    cbn [fst snd] in Hr. subst is_ok.
    unfold bind at 1. cbn [sleep].
    set (w2 := log (Sleep API_DELAY) (after w1 (retry_trace r 0 ++ [Call r]))).
    assert (w_events w2 = w_events w ++ [Call r; Sleep API_DELAY]) as Hev
      by (subst w2 w1; cbn [log after w_events retry_trace seq flat_map app];
          by rewrite <- app_assoc).
    destruct (IH (Some fields) w2) as (fields' & w' & Hrun & Hl & Hcalls).
    + intros f [= <-]. exists (w_events w), r, content.
      split; [done|]. split; [done|]. split; [done|]. by rewrite Echeck.
    + right. by eexists.
    + exists fields', w'. split; [done|]. split; [done|].
      rewrite Hcalls, Hev, calls_in_app. unfold calls_in. simpl. lia.
Qed.

(** C3: if every service call succeeds and the similarity gate rejects
    every candidate, [generate_seo] issues exactly [MAX_RETRIES] (3)
    requests and returns the candidate of the last one, which the gate
    rejected, instead of failing. *)
Theorem generate_seo_exhausted client title body_html pool product_type w :
  (forall n r, exists content, client n r = Response content) ->
  (forall n r content fields,
      client n r = Response content ->
      parse_seo_response content title = Some fields ->
      (check_similarity fields.2 pool).1.1 = false) ->
  exists fields w',
    generate_seo client title body_html pool product_type w = (Ok fields, w') /\
    calls_in (w_events w') = calls_in (w_events w) + MAX_RETRIES /\
    last_rejected client title pool w' fields.
Proof.
  intros Hans Hrej. unfold generate_seo.
  destruct (attempts_all_rejected client title (strip_html body_html) pool product_type
              Hans Hrej (seq 0 MAX_RETRIES) None w) as (fields & w' & Hrun & Hl & Hc).
  - intros fields [=].
  - by left.
  - exists fields, w'. by rewrite Hc.
Qed.

(** C4: a failed service call whose message is classified as transient is
    followed by a wait of (retry count) x 8 seconds and, up to the fifth
    such failure in a row, by another call; the fifth is waited for and
    then raised; a failure of another kind is raised at once; an exception
    of the service call ends [generate_seo] for the item; and [main] then
    skips the item, leaving its data and the progress set as they were,
    and goes on with the next item. *)
Theorem transient_failures_are_retried client r w :
  let n := calls_in (w_events w) in
  (forall k content,
      k < 5 -> (forall i, i < k -> transient_failure (client (n + i) r)) ->
      client (n + k) r = Response content ->
      server_retries client r (seq 0 5) w =
        (Ok content, after w (retry_trace r k ++ [Call r]))) /\
  (forall k err,
      k < 5 -> (forall i, i < k -> transient_failure (client (n + i) r)) ->
      client (n + k) r = Failure err -> is_transient err = false ->
      server_retries client r (seq 0 5) w =
        (Raise err, after w (retry_trace r k ++ [Call r]))) /\
  (forall err,
      (forall i, i < 4 -> transient_failure (client (n + i) r)) ->
      client (n + 4) r = Failure err -> is_transient err = true ->
      server_retries client r (seq 0 5) w = (Raise err, after w (retry_trace r 5))) /\
  (forall k, sleeps_in (retry_trace r k) =
             map (fun retry_count => retry_count * 8) (seq 1 k)) /\
  (forall title clean_body pool product_type attempt rest last w0 err w',
      server_retries client
        {| req_prompt := format_prompt product_type title clean_body
                           (get_variation_hint product_type (w_rng w0)).1;
           req_temperature := temperature attempt |}
        (seq 0 5)
        {| w_rng := (get_variation_hint product_type (w_rng w0)).2;
           w_events := w_events w0 |} = (Raise err, w') ->
      attempts client title clean_body pool product_type (attempt :: rest) last w0 =
        (Raise err, w')) /\
  (forall product_type row_index rest st w0 err,
      rp_result (process_item client product_type row_index st w0).1.1 = Raise err ->
      (process_item client product_type row_index st w0).1.2 = st /\
      process_all client product_type (row_index :: rest) st w0 =
        let w1 := (process_item client product_type row_index st w0).2 in
        let w2 := match rest with [] => w1 | _ => log (Sleep API_DELAY) w1 end in
        ((process_item client product_type row_index st w0).1.1 ::
           (process_all client product_type rest st w2).1.1,
         (process_all client product_type rest st w2).1.2,
         (process_all client product_type rest st w2).2)).
Proof.
  intros n. split; [|split; [|split; [|split; [|split]]]].
  - intros k content. apply server_retries_answer.
  - intros k err. apply server_retries_fatal.
  - intros err. apply server_retries_give_up.
  - intros k. apply sleeps_in_retry_trace.
  - intros *. apply attempts_raise.
  - intros product_type row_index rest st w0 err Hr.
    assert ((process_item client product_type row_index st w0).1.2 = st) as Hst.
    { revert Hr. unfold process_item.
      destruct (generate_seo _ _ _ _ _ _) as [[[t d]|e] w1]; cbn [fst snd rp_result];
        [discriminate | done]. }
    split; [done|]. cbn [process_all].
    destruct (process_item client product_type row_index st w0) as [[rp st1] w1].
    cbn [fst snd] in *. subst st1.
    by destruct (process_all client product_type rest st _) as [[rps st2] w3].
Qed.

(** C10: when processing an item ends with an exception of [generate_seo],
    the rows, the description pool, the progress set and the progress
    file are after the item what they were before it; the row fields are
    written, the description appended and the handle added and saved only
    when [generate_seo] returns. *)
Theorem failed_item_changes_nothing client product_type row_index st w :
  match rp_result (process_item client product_type row_index st w).1.1 with
  | Raise _ => (process_item client product_type row_index st w).1.2 = st
  | Ok (seo_title, seo_description) =>
      let st' := (process_item client product_type row_index st w).1.2 in
      let r := default ∅ (rows st !! row_index) in
      rows st' = <[row_index := <["SEO Description"%string := seo_description]>
                                  (<["SEO Title"%string := seo_title]> r)]> (rows st) /\
      existing_descriptions st' = existing_descriptions st ++ [seo_description] /\
      processed_handles st' = {[ Str.strip (get r "Handle") ]} ∪ processed_handles st /\
      progress_file st' = Some (processed_handles st')
  end.
Proof.
  unfold process_item.
  destruct (generate_seo _ _ _ _ _ _) as [[[t d]|e] w1]; cbn [fst snd rp_result]; done.
Qed.
End OrchestratorClaims.

Section OrchestratorExamples.

(** C3 at work: a service that always answers with a description already
    in the pool; the three candidates are rejected and the last is
    returned. *)
Lemma generate_seo_exhausted_witness :
  exists fields w',
    generate_seo (echo_client (lit "SEO Description: Silent wall clock"))
                 (lit "Clock") [] [lit "silent wall clock"] wall_clocks w0 = (Ok fields, w') /\
    calls_in (w_events w') = calls_in (w_events w0) + MAX_RETRIES /\
    last_rejected (echo_client (lit "SEO Description: Silent wall clock"))
                  (lit "Clock") [lit "silent wall clock"] w' fields.
Proof.
  apply (@generate_seo_exhausted plain_collaborators).
  - intros n r. exists (lit "SEO Description: Silent wall clock"). reflexivity.
  - intros n r content fields Hc Hp. unfold echo_client in Hc. injection Hc as <-.
    vm_compute in Hp. injection Hp as <-. vm_compute. reflexivity.
Defined.

(** Three failures with a rate-limit message, then an answer: four calls,
    with waits of 8, 16 and 24 seconds between them. *)
Example three_transient_failures :
  let r := {| req_prompt := []; req_temperature := temperature 0 |} in
  let res := server_retries (flaky_client 3 (lit "Error code: 429") (lit "ok")) r (seq 0 5) w0 in
  res.1 = Ok (lit "ok") /\ calls_in (w_events res.2) = 4 /\
  sleeps_in (w_events res.2) = [8; 16; 24].
Proof. vm_compute. repeat split. Qed.

(** Five failures with an overload message: five calls, waits of 8 to 40
    seconds, and the error is raised. *)
Example five_transient_failures :
  let r := {| req_prompt := []; req_temperature := temperature 0 |} in
  let res := server_retries (flaky_client 5 (lit "503 Service Unavailable") (lit "ok")) r
                            (seq 0 5) w0 in
  res.1 = Raise (lit "503 Service Unavailable") /\ calls_in (w_events res.2) = 5 /\
  sleeps_in (w_events res.2) = [8; 16; 24; 32; 40].
Proof. vm_compute. repeat split. Qed.

(** A failure of another kind: one call, no wait, and the error is raised. *)
Example other_failure :
  let r := {| req_prompt := []; req_temperature := temperature 0 |} in
  let res := server_retries (flaky_client 1 (lit "401 invalid api key") (lit "ok")) r
                            (seq 0 5) w0 in
  res.1 = Raise (lit "401 invalid api key") /\ calls_in (w_events res.2) = 1 /\
  sleeps_in (w_events res.2) = [].
Proof. vm_compute. repeat split. Qed.
End OrchestratorExamples.

(** * The run *)

Section RunFacts.
Context `{Collaborators}.

(** The orchestrator only adds events. *)
Lemma server_retries_events client r retries w :
  exists evs, w_events (server_retries client r retries w).2 = w_events w ++ evs.
Proof.
  revert w. induction retries as [|server_retry rest IH]; intros w.
  - exists []. simpl. by rewrite app_nil_r.
  - cbn [server_retries]. unfold create.
    destruct (client (calls_in (w_events w)) r) as [content|err].
    + by exists [Call r].
    + destruct (is_transient err); [|by exists [Call r]].
      destruct (server_retry =? 4).
      * exists [Call r; Sleep ((server_retry + 1) * 8)]. simpl. by rewrite <- app_assoc.
      * destruct (IH (log (Sleep ((server_retry + 1) * 8)) (log (Call r) w))) as [evs ->].
        exists ([Call r; Sleep ((server_retry + 1) * 8)] ++ evs).
        simpl. by rewrite <- !app_assoc.
Qed.

Lemma attempts_events client title clean_body pool product_type todo last w :
  exists evs,
    w_events (attempts client title clean_body pool product_type todo last w).2 =
    w_events w ++ evs.
Proof.
  revert last w. induction todo as [|attempt rest IH]; intros last w.
  - exists []. simpl. destruct last; simpl; by rewrite app_nil_r.
  - cbn [attempts]. unfold bind at 1. unfold draw_hint.
    destruct (get_variation_hint product_type (w_rng w)) as [hint g].
    set (w1 := {| w_rng := g; w_events := w_events w |}).
    unfold bind at 1.
    destruct (server_retries_events client
                {| req_prompt := format_prompt product_type title clean_body hint;
                   req_temperature := temperature attempt |} (seq 0 5) w1) as [evs1 E1].
    destruct (server_retries client _ (seq 0 5) w1) as [[content|err] w2];
      cbn [fst snd] in E1; [|by exists evs1].
    unfold bind at 1.
    destruct (parse_seo_response content title) as [fields|]; cbn [lift_exception ret raise];
      [|by exists evs1].
    destruct (check_similarity fields.2 pool) as [[[|] score] similar_to];
      [by exists evs1|].
    unfold bind at 1. cbn [sleep].
    destruct (IH (Some fields) (log (Sleep API_DELAY) w2)) as [evs2 E2].
    exists (evs1 ++ [Sleep API_DELAY] ++ evs2). rewrite E2. cbn [log w_events].
    rewrite E1. by rewrite <- !app_assoc.
Qed.

Lemma generate_seo_events client title body_html pool product_type w :
  exists evs,
    w_events (generate_seo client title body_html pool product_type w).2 =
    w_events w ++ evs.
Proof. apply attempts_events. Qed.

Lemma process_item_report client product_type row_index st w :
  let rp := (process_item client product_type row_index st w).1.1 in
  rp_index rp = row_index /\
  rp_handle rp = Str.strip (get (default ∅ (rows st !! row_index)) "Handle") /\
  rp_pool rp = existing_descriptions st /\
  w_events (process_item client product_type row_index st w).2 =
    w_events w ++ rp_events rp.
Proof.
  unfold process_item.
  destruct (generate_seo_events client
              (Str.strip (get (default ∅ (rows st !! row_index)) "Title"))
              (get (default ∅ (rows st !! row_index)) "Body (HTML)")
              (existing_descriptions st) product_type w) as [evs E].
  destruct (generate_seo _ _ _ _ _ _) as [[[t d]|e] w1]; cbn [fst snd] in *;
    rewrite E, drop_app_length; done.
Qed.

(** Processing an item changes no handle. *)
Lemma process_item_handles client product_type row_index st w i :
  get (default ∅ (rows (process_item client product_type row_index st w).1.2 !! i)) "Handle" =
  get (default ∅ (rows st !! i)) "Handle".
Proof.
  unfold process_item.
  destruct (generate_seo _ _ _ _ _ _) as [[[t d]|e] w1]; cbn [fst snd rows]; [|done].
  destruct (decide (i = row_index)) as [->|Hne]; [|by rewrite list_lookup_insert_ne].
  destruct (decide (row_index < length (rows st))) as [Hlt|Hge].
  - rewrite list_lookup_insert_eq by done. simpl. unfold get.
    by rewrite !lookup_insert_ne.
  - by rewrite list_insert_ge by lia.
Qed.

Lemma process_item_pool client product_type row_index st w :
  existing_descriptions (process_item client product_type row_index st w).1.2 =
  existing_descriptions st ++
    accepted [(process_item client product_type row_index st w).1.1].
Proof.
  unfold process_item, accepted.
  destruct (generate_seo _ _ _ _ _ _) as [[[t d]|e] w1]; cbn; by rewrite ?app_nil_r.
Qed.

Lemma process_all_cons client product_type row_index rest st w :
  process_all client product_type (row_index :: rest) st w =
  let it := process_item client product_type row_index st w in
  let w2 := match rest with [] => it.2 | _ => log (Sleep API_DELAY) it.2 end in
  let run := process_all client product_type rest it.1.2 w2 in
  (it.1.1 :: run.1.1, run.1.2, run.2).
Proof.
  cbn [process_all].
  destruct (process_item client product_type row_index st w) as [[rp st1] w1].
  cbn [fst snd]. by destruct (process_all client product_type rest st1 _) as [[rps st2] w3].
Qed.

(** The reports follow the items; each holds the handle of its row. *)
Lemma process_all_reports client product_type todo st w :
  let reports := (process_all client product_type todo st w).1.1 in
  map rp_index reports = todo /\
  forall rp, rp ∈ reports ->
             rp_handle rp = Str.strip (get (default ∅ (rows st !! rp_index rp)) "Handle").
Proof.
  revert st w. induction todo as [|row_index rest IH]; intros st w.
  - split; [done|]. intros rp Hrp. inversion Hrp.
  - rewrite process_all_cons. cbn zeta. cbn [fst snd].
    destruct (process_item_report client product_type row_index st w) as (Hi & Hh & _).
    set (it := process_item client product_type row_index st w) in *.
    destruct (IH it.1.2 (match rest with [] => it.2 | _ => log (Sleep API_DELAY) it.2 end))
      as [Hmap Hhandles].
    split; [simpl; by rewrite Hi, Hmap|].
    intros rp Hrp. apply elem_of_cons in Hrp as [->|Hrp]; [by rewrite Hh, Hi|].
    rewrite (Hhandles rp Hrp). subst it. by rewrite process_item_handles.
Qed.

(** Every call of the loop is a call of one of the reports. *)
Lemma process_all_calls client product_type todo st w :
  exists evs,
    w_events (process_all client product_type todo st w).2 = w_events w ++ evs /\
    List.filter is_call evs =
    flat_map (fun rp => List.filter is_call (rp_events rp))
             (process_all client product_type todo st w).1.1.
Proof.
  revert st w. induction todo as [|row_index rest IH]; intros st w.
  - exists []. by rewrite app_nil_r.
  - rewrite process_all_cons. cbn zeta. cbn [fst snd].
    destruct (process_item_report client product_type row_index st w) as (_ & _ & _ & Hev).
    set (it := process_item client product_type row_index st w) in *.
    set (w2 := match rest with [] => it.2 | _ => log (Sleep API_DELAY) it.2 end).
    destruct (IH it.1.2 w2) as (evs & E & Hcalls).
    assert (exists pace, w_events w2 = w_events it.2 ++ pace /\ List.filter is_call pace = [])
      as (pace & Hpace & Hnone).
    { subst w2. destruct rest; [exists []; by rewrite app_nil_r | by exists [Sleep API_DELAY]]. }
    exists (rp_events it.1.1 ++ pace ++ evs). split.
    + by rewrite E, Hpace, Hev, <- !app_assoc.
    + cbn [flat_map]. by rewrite !List.filter_app, Hnone, Hcalls.
Qed.

Lemma accepted_cons (rp : report) rps : accepted (rp :: rps) = accepted [rp] ++ accepted rps.
Proof. unfold accepted. cbn [flat_map]. by rewrite app_nil_r. Qed.

(** Every item is gated against the pool of the start with the accepted
    descriptions of the items before it. *)
Lemma process_all_pool client product_type todo st w :
  let reports := (process_all client product_type todo st w).1.1 in
  (forall k rp, reports !! k = Some rp ->
                rp_pool rp = existing_descriptions st ++ accepted (take k reports)) /\
  existing_descriptions (process_all client product_type todo st w).1.2 =
    existing_descriptions st ++ accepted reports.
Proof.
  revert st w. induction todo as [|row_index rest IH]; intros st w.
  - split; [done | by rewrite app_nil_r].
  - rewrite process_all_cons. cbn zeta. cbn [fst snd].
    destruct (process_item_report client product_type row_index st w) as (_ & _ & Hp & _).
    pose proof (process_item_pool client product_type row_index st w) as Hpool.
    set (it := process_item client product_type row_index st w) in *.
    destruct (IH it.1.2 (match rest with [] => it.2 | _ => log (Sleep API_DELAY) it.2 end))
      as [Hk Hend].
    split.
    + intros [|k] rp Hrp.
      * injection Hrp as <-. by rewrite app_nil_r.
      * simpl in Hrp. rewrite (Hk k rp Hrp), Hpool. cbn [take].
        rewrite <- app_assoc. f_equal. symmetry. apply accepted_cons.
    + rewrite Hend, Hpool, <- app_assoc. f_equal. symmetry. apply accepted_cons.
Qed.
End RunFacts.

Section RunClaims.
Context `{Collaborators}.

Lemma products_to_process_spec overwrite processed rs i :
  i ∈ products_to_process overwrite processed rs ->
  exists r, rs !! i = Some r /\ needs_seo overwrite processed r = true.
Proof.
  unfold products_to_process. rewrite list_elem_of_In, List.filter_In.
  intros [_ Hi]. destruct (rs !! i) as [r|]; [eauto | done].
Qed.

Lemma needs_seo_not_processed overwrite processed r :
  needs_seo overwrite processed r = true -> Str.strip (get r "Handle") ∉ processed.
Proof.
  unfold needs_seo. destruct overwrite; rewrite !andb_true_iff.
  - intros [_ Hb]. by apply bool_decide_eq_true in Hb.
  - intros [_ Hb]. by apply bool_decide_eq_true in Hb.
Qed.

Lemma collect_descriptions_overwrite rs : collect_descriptions true rs = [].
Proof.
  unfold collect_descriptions. induction rs as [|r rs IH]; [done|].
  cbn [flat_map]. by rewrite andb_false_r.
Qed.

(** C6, as amended: in normal mode no generation request is issued for an
    item whose handle is in the progress file at startup: the run reports
    no such item, and every call of the run is a call of a reported item.
    (With [--overwrite] the progress file is removed at startup and the set
    starts empty, so there the file is not honoured.) *)
Theorem normal_mode_skips_processed client file rs w :
  let res := main client false file rs w in
  let reports := res.1.1 in
  (forall rp, rp ∈ reports ->
              (rp_handle rp ∉ load_progress file) /\
              exists r, rs !! rp_index rp = Some r /\
                        rp_handle rp = Str.strip (get r "Handle")) /\
  (forall i r, rs !! i = Some r -> Str.strip (get r "Handle") ∈ load_progress file ->
               i ∉ map rp_index reports) /\
  List.filter is_call (drop (length (w_events w)) (w_events res.2)) =
    flat_map (fun rp => List.filter is_call (rp_events rp)) reports.
Proof.
  unfold main. cbn [startup]. cbn zeta.
  set (todo := products_to_process false (load_progress file) rs).
  set (st := {| rows := rs; existing_descriptions := collect_descriptions false rs;
                processed_handles := load_progress file; progress_file := file |}).
  set (product_type := (detect_product_type rs).1).
  destruct (process_all_reports client product_type todo st w) as [Hmap Hhandles].
  destruct (process_all_calls client product_type todo st w) as (evs & Hev & Hcalls).
  assert (forall rp, rp ∈ (process_all client product_type todo st w).1.1 ->
                     exists r, rs !! rp_index rp = Some r /\
                               needs_seo false (load_progress file) r = true /\
                               rp_handle rp = Str.strip (get r "Handle")) as Hrows.
  { intros rp Hrp. assert (rp_index rp ∈ todo) as Hin
      by (rewrite <- Hmap; by apply list_elem_of_fmap_2).
    destruct (products_to_process_spec _ _ _ _ Hin) as (r & Hr & Hneeds).
    exists r. split; [done|]. split; [done|].
    rewrite (Hhandles rp Hrp). cbn [rows st]. by rewrite Hr. }
  split; [|split].
  - intros rp Hrp. destruct (Hrows rp Hrp) as (r & Hr & Hneeds & Hh).
    split; [|by exists r]. rewrite Hh. by eapply needs_seo_not_processed.
  - intros i r Hr Hin Hi. rewrite Hmap in Hi.
    destruct (products_to_process_spec _ _ _ _ Hi) as (r' & Hr' & Hneeds).
    assert (r' = r) as -> by congruence.
    by apply needs_seo_not_processed in Hneeds.
  - by rewrite Hev, drop_app_length.
Qed.

(** C7, as amended: when an item is gated the pool holds the descriptions
    collected from the rows at startup (in normal mode those that the rows
    already had, none with [--overwrite]), followed by the descriptions
    returned for the items processed before it in this run, in order, each
    once; after the run it holds those of all the items; it never
    shrinks. *)
Theorem pool_is_seed_then_accepted client overwrite file rs w :
  let res := main client overwrite file rs w in
  let reports := res.1.1 in
  (forall k rp, reports !! k = Some rp ->
                rp_pool rp = collect_descriptions overwrite rs ++ accepted (take k reports)) /\
  existing_descriptions res.1.2 = collect_descriptions overwrite rs ++ accepted reports /\
  collect_descriptions true rs = [].
Proof.
  unfold main. destruct (startup overwrite file) as [processed file'].
  cbn zeta.
  set (st := {| rows := rs; existing_descriptions := collect_descriptions overwrite rs;
                processed_handles := processed; progress_file := file' |}).
  destruct (process_all_pool client (detect_product_type rs).1
              (products_to_process overwrite processed rs) st w) as [Hk Hend].
  split; [exact Hk|]. split; [exact Hend|]. apply collect_descriptions_overwrite.
Qed.
End RunClaims.

Section RunExamples.

(** C6, as stated, fails with [--overwrite]: the handle of the item is in
    the progress file when the run starts, and yet the item is processed
    and a request is issued for it. *)
Lemma overwrite_ignores_progress_file :
  let file : option (gset str) := Some {[ lit "clock-1" ]} in
  let res := main (echo_client (lit "SEO Description: Quiet clock.")) true file
                  [clock_row] w0 in
  lit "clock-1" ∈ load_progress file /\
  map rp_handle res.1.1 = [lit "clock-1"] /\
  map (fun rp => calls_in (rp_events rp)) res.1.1 = [1].
Proof.
  intros file res. split; [subst file; cbn [load_progress default]; set_solver|].
  split; vm_compute; reflexivity.
Qed.

(** C7, as stated, fails in normal mode: the first item of the run is gated
    against a pool that already holds the description of a row that this
    run does not process. *)
Lemma pool_starts_with_old_descriptions :
  let res := main (echo_client (lit "SEO Description: Quiet clock.")) false None
                  [clock_row; old_row] w0 in
  map rp_index res.1.1 = [0] /\
  map rp_pool res.1.1 = [[lit "Oak clock for the hallway."]] /\
  accepted (take 0 res.1.1) = [].
Proof. intros res. repeat split; vm_compute; reflexivity. Qed.
End RunExamples.

(** * More on the text primitives and the parser *)

Module CleanText.
Import Str StrFacts ParserFacts.

(** Steps of the clean-up that find nothing to do. *)
Lemma strip_tags_no_tag s : no_tag s -> strip_tags s = s.
Proof.
  induction s as [|c r IH]; intros Hs; [by simp strip_tags|].
  apply no_tag_cons in Hs as [Hc Hr]. rewrite strip_tags_cons.
  destruct (Ascii.eqb c "<") eqn:E.
  - apply eqb_true in E. rewrite (Hc E). by rewrite IH.
  - by rewrite IH.
Qed.

Lemma remove_char_absent c s : c ∉ s -> remove_char c s = s.
Proof.
  unfold remove_char. induction s as [|x s IH]; intros Hc; [done|].
  apply not_elem_of_cons in Hc as [Hx Hc]. rewrite filter_cons.
  case_decide as Hd; [by rewrite IH|].
  exfalso. apply Hd. destruct (Ascii.eqb x c) eqn:E; [|exact I].
  apply eqb_true in E. congruence.
Qed.

Lemma replace_absent old new s :
  old <> [] -> contains old s = false -> replace old new s = s.
Proof.
  destruct old as [|o os]; [done|]. intros _.
  induction s as [|c r IH]; intros Hs; [by simp replace|].
  apply contains_false_cons in Hs as [Hp Hr].
  rewrite replace_cons, Hp. by rewrite IH.
Qed.

Lemma spaced_weaken b s : spaced true s = true -> spaced b s = true.
Proof.
  destruct b; [done|]. destruct s as [|c r]; [done|]. simpl.
  destruct (isspace c); [discriminate | done].
Qed.

Lemma collapse_from_spaced b s : spaced b (collapse_from b s) = true.
Proof.
  revert b. induction s as [|c r IH]; intros b; [done|]. simpl.
  destruct (isspace c) eqn:Ec.
  - destruct b; [apply IH|]. simpl. by rewrite IH.
  - simpl. rewrite Ec. apply IH.
Qed.

Lemma collapse_from_id b s : spaced b s = true -> collapse_from b s = s.
Proof.
  revert b. induction s as [|c r IH]; intros b; [done|]. simpl.
  destruct (isspace c).
  - rewrite !andb_true_iff. intros [[Hb Hc] Hr].
    apply negb_true_iff in Hb. subst b. apply eqb_true in Hc. subst c.
    by rewrite IH.
  - intros Hr. by rewrite IH.
Qed.

Lemma lstrip_spaced b s : spaced b s = true -> spaced true (lstrip s) = true.
Proof.
  revert b. induction s as [|c r IH]; intros b; [done|]. simpl.
  destruct (isspace c) eqn:Ec.
  - rewrite !andb_true_iff. intros [_ Hr]. by apply (IH true).
  - intros Hr. simpl. by rewrite Ec.
Qed.

Lemma take_spaced b n s : spaced b s = true -> spaced b (take n s) = true.
Proof.
  revert b n. induction s as [|c r IH]; intros b [|n]; try done. simpl.
  destruct (isspace c).
  - rewrite !andb_true_iff. intros [Hc Hr]. split; [done | by apply IH].
  - apply IH.
Qed.

Lemma prefix_spaced b t s : t `prefix_of` s -> spaced b s = true -> spaced b t = true.
Proof.
  intros [k ->] Hs. apply (take_spaced b (length t)) in Hs.
  by rewrite take_app_length in Hs.
Qed.

Lemma strip_spaced b s : spaced b s = true -> single_spaced (strip s) = true.
Proof.
  intros Hs. unfold single_spaced, strip.
  eapply prefix_spaced; [apply rstrip_prefix|]. by eapply lstrip_spaced.
Qed.

Lemma spaced_lstrip_id s : spaced true s = true -> lstrip s = s.
Proof.
  destruct s as [|c r]; [done|]. simpl. by destruct (isspace c).
Qed.

Lemma spaced_elem b s c : spaced b s = true -> c ∈ s -> isspace c = true -> c = " "%char.
Proof.
  revert b. induction s as [|x r IH]; intros b Hs Hc Hsp; [inversion Hc|].
  simpl in Hs. apply elem_of_cons in Hc as [->|Hc].
  - rewrite Hsp in Hs. apply andb_true_iff in Hs as [Hs _].
    apply andb_true_iff in Hs as [_ Hs]. by apply eqb_true in Hs.
  - destruct (isspace x).
    + apply andb_true_iff in Hs as [_ Hs]. by eapply IH.
    + by eapply IH.
Qed.

Lemma lstrip_shorter s : length (lstrip s) <= length s.
Proof.
  induction s as [|c r IH]; [done|]. simpl. destruct (isspace c); simpl; lia.
Qed.

Lemma lstrip_fixed c r : lstrip (c :: r) = c :: r -> isspace c = false.
Proof.
  simpl. destruct (isspace c); [|done]. intros E.
  pose proof (lstrip_shorter r) as Hl. rewrite E in Hl. simpl in Hl. lia.
Qed.

Lemma lstrip_app_fixed s t : s <> [] -> lstrip s = s -> lstrip (s ++ t) = s ++ t.
Proof.
  destruct s as [|c r]; [done|]. intros _ E.
  apply lstrip_fixed in E. simpl. by rewrite E.
Qed.

(** Text put in front of a text that does not end with white space is
    kept by [rstrip]. *)
Lemma rstrip_app_fixed p d : d <> [] -> rstrip d = d -> rstrip (p ++ d) = p ++ d.
Proof.
  unfold rstrip. intros Hd E. rewrite rev_app_distr.
  assert (lstrip (rev d) = rev d) as E'
    by (rewrite <- (rev_involutive (lstrip (rev d))), E; done).
  rewrite lstrip_app_fixed; [by rewrite <- rev_app_distr, rev_involutive | | done].
  intros Hr. apply Hd. by rewrite <- (rev_involutive d), Hr.
Qed.

Lemma split_no_sep sep s : sep ∉ s -> split sep s = [s].
Proof.
  induction s as [|c r IH]; intros Hs; [done|].
  apply not_elem_of_cons in Hs as [Hc Hr]. simpl.
  destruct (Ascii.eqb c sep) eqn:E; [apply eqb_true in E; congruence|].
  by rewrite IH.
Qed.
End CleanText.

Section ParserExtras.
Import Str StrFacts ParserFacts CleanText.

Lemma scan_lines_app l1 l2 fields :
  scan_lines (l1 ++ l2) fields = (scan_lines l1 fields ≫= scan_lines l2).
Proof.
  revert fields. induction l1 as [|line rest IH]; intros fields; [done|].
  cbn [app scan_lines].
  destruct (startswith (lit "seo title:") (lower line)).
  - destruct (after_colon line); [apply IH | done].
  - destruct (startswith (lit "seo description:") (lower line)); [|apply IH].
    destruct (after_colon line); [apply IH | done].
Qed.

Lemma scan_lines_no_label lines fields :
  (forall l, l ∈ lines -> has_description_label l = false) ->
  exists t, scan_lines lines fields = Some (t, fields.2).
Proof.
  revert fields. induction lines as [|line rest IH]; intros fields Hno; [by exists fields.1; destruct fields|].
  assert (has_description_label line = false) as Hl by (apply Hno; by left).
  assert (forall l, l ∈ rest -> has_description_label l = false) as Hrest
    by (intros l Hin; apply Hno; by right).
  unfold has_description_label in Hl. cbn [scan_lines]. rewrite Hl.
  destruct (startswith (lit "seo title:") (lower line)) eqn:Et; [|by apply IH].
  destruct (after_colon_label (lit "seo title:") line ltac:(by_computation) Et) as [t ->].
  apply (IH (t, fields.2) Hrest).
Qed.

Lemma startswith_take_eq p s : startswith p s = true -> take (length p) s = p.
Proof.
  revert s. induction p as [|a p IH]; intros s; [done|].
  destruct s as [|c s]; [done|]. simpl. rewrite andb_true_iff.
  intros [Hc Hp]. apply eqb_true in Hc. subst c. by rewrite IH.
Qed.

(** A line cannot carry both labels. *)
Lemma description_label_not_title line :
  has_description_label line = true ->
  startswith (lit "seo title:") (lower line) = false.
Proof.
  unfold has_description_label. intros Hd.
  destruct (startswith (lit "seo title:") (lower line)) eqn:Et; [|done].
  apply startswith_take_eq in Hd, Et.
  assert (take 5 (take (length (lit "seo title:")) (lower line)) =
          take 5 (take (length (lit "seo description:")) (lower line))) as E
    by (by rewrite !take_take).
  rewrite Hd, Et in E. discriminate.
Qed.

(** X1: a response in which no line carries the description label gives
    the empty description (and the capped original title). *)
Theorem parse_without_description_label (response_text original_title : str) :
  (forall line, line ∈ response_lines response_text ->
                has_description_label line = false) ->
  parse_seo_response response_text original_title =
    Some (take MAX_SEO_TITLE_LENGTH original_title, []).
Proof.
  intros Hno. rewrite parse_seo_response_eq. unfold extracted_description.
  destruct (scan_lines_no_label _ (original_title, []) Hno) as [t ->].
  reflexivity.
Qed.

Lemma parse_without_description_label_witness :
  parse_seo_response (lit "Sorry, I cannot help with that.") (lit "Oak Wall Clock") =
    Some (take MAX_SEO_TITLE_LENGTH (lit "Oak Wall Clock"), []).
Proof.
  apply (parse_without_description_label (lit "Sorry, I cannot help with that.")).
  intros line Hin. vm_compute in Hin. apply list_elem_of_singleton in Hin.
  subst line. vm_compute. reflexivity.
Defined.

(** X2: when several lines carry the description label, the text after
    the first colon of the last of them is the one that is cleaned and
    returned. *)
Theorem parse_uses_last_description_line
  (response_text original_title : str) (before : list str) (line : str)
  (rest : list str) :
  response_lines response_text = before ++ line :: rest ->
  has_description_label line = true ->
  (forall l, l ∈ rest -> has_description_label l = false) ->
  exists d,
    after_colon line = Some d /\
    parse_seo_response response_text original_title =
      Some (take MAX_SEO_TITLE_LENGTH original_title,
            take MAX_SEO_DESCRIPTION_LENGTH (strip (collapse_ws (substituted d)))).
Proof.
  intros Hlines Hlabel Hrest. rewrite parse_seo_response_eq.
  unfold extracted_description. rewrite Hlines, scan_lines_app.
  destruct (scan_lines_total before (original_title, [])) as [f ->].
  cbn [mbind option_bind scan_lines].
  rewrite (description_label_not_title line Hlabel).
  unfold has_description_label in Hlabel. rewrite Hlabel.
  destruct (after_colon_label (lit "seo description:") line ltac:(by_computation) Hlabel)
    as [d Hd].
  rewrite Hd. cbn [mbind option_bind].
  destruct (scan_lines_no_label rest (f.1, d) Hrest) as [t ->].
  exists d. done.
Qed.

Lemma parse_uses_last_description_line_witness :
  exists d,
    after_colon (lit "SEO Description: Second try.") = Some d /\
    parse_seo_response
      (lit "SEO Description: First try." ++ [newline] ++
       lit "SEO Description: Second try." ++ [newline] ++ lit "Thanks!")
      (lit "Clock") =
      Some (take MAX_SEO_TITLE_LENGTH (lit "Clock"),
            take MAX_SEO_DESCRIPTION_LENGTH
              (Str.strip (Str.collapse_ws (substituted d)))).
Proof.
  apply (parse_uses_last_description_line
           (lit "SEO Description: First try." ++ [newline] ++
            lit "SEO Description: Second try." ++ [newline] ++ lit "Thanks!")
           (lit "Clock") [lit "SEO Description: First try."]
           (lit "SEO Description: Second try.") [lit "Thanks!"]).
  - vm_compute. reflexivity.
  - vm_compute. reflexivity.
  - intros l Hl. apply list_elem_of_singleton in Hl. subst l. vm_compute. reflexivity.
Defined.


(** X4: a description that needs no cleaning comes back as it is: no tag,
    no quote, none of the banned terms, white space only as single spaces
    inside, at most 320 characters. *)
Theorem parse_keeps_clean_description (d original_title : str) :
  has_tag d = false -> dquote ∉ d -> squote ∉ d ->
  (forall v, v ∈ banned_terms -> contains v d = false) ->
  single_spaced d = true -> rstrip d = d ->
  length d <= MAX_SEO_DESCRIPTION_LENGTH ->
  parse_seo_response (lit "SEO Description: " ++ d) original_title =
    Some (take MAX_SEO_TITLE_LENGTH original_title, d).
Proof.
  intros Htag Hdq Hsq Hban Hsp Hr Hlen.
  destruct d as [|c0 d0] eqn:Ed;
    [rewrite parse_seo_response_eq; do 2 f_equal; vm_compute; reflexivity|].
  rewrite <- Ed in *.
  assert (d <> []) as Hne by (by rewrite Ed).
  assert (lstrip d = d) as Hl by (by apply spaced_lstrip_id).
  assert (strip d = d) as Hstrip by (unfold strip; by rewrite Hl).
  assert (newline ∉ d) as Hnl.
  { intros Hin. by pose proof (spaced_elem _ _ _ Hsp Hin eq_refl). }
  set (raw := lit "SEO Description: " ++ d).
  assert (strip raw = raw) as Hraw.
  { unfold strip, raw. change (lstrip (lit "SEO Description: " ++ d))
      with (lit "SEO Description: " ++ d). by apply rstrip_app_fixed. }
  assert (response_lines raw = [raw]) as Hlines.
  { unfold response_lines. rewrite Hraw, split_no_sep.
    - cbn [map]. rewrite Hraw. reflexivity.
    - unfold raw. rewrite not_elem_of_app. split; [by_computation | done]. }
  assert (extracted_description raw original_title = d) as Hext.
  { unfold extracted_description. rewrite Hlines. cbn [scan_lines].
    change (startswith (lit "seo title:") (lower raw)) with false.
    change (startswith (lit "seo description:") (lower raw)) with true.
    change (after_colon raw) with (Some (strip (" "%char :: d))).
    cbn [mbind option_bind snd]. unfold strip at 1.
    change (lstrip (" "%char :: d)) with (lstrip d). by rewrite Hl. }
  rewrite parse_seo_response_eq. fold raw. rewrite Hext. f_equal. f_equal.
  assert (substituted d = d) as ->.
  { unfold substituted, replace_banned.
    rewrite (strip_tags_no_tag d Htag), (remove_char_absent dquote d Hdq),
      (remove_char_absent squote d Hsq).
    assert (forall v, v ∈ banned_terms -> v <> []) as Hne'
      by (unfold banned_terms; intros v Hv E; subst v; revert Hv; by_computation).
    rewrite (replace_absent (lit "faux leather")), (replace_absent (lit "Faux leather")),
      (replace_absent (lit "Faux Leather")); [done | ..];
      first [apply Hne' | apply Hban]; unfold banned_terms; rewrite !elem_of_cons; auto. }
  unfold collapse_ws. rewrite collapse_from_id by (by apply spaced_weaken).
  rewrite Hstrip. by apply take_ge.
Qed.

Lemma parse_keeps_clean_description_witness :
  parse_seo_response
    (lit "SEO Description: " ++ lit "Silent oak wall clock for the hallway.")
    (lit "Oak Wall Clock") =
    Some (take MAX_SEO_TITLE_LENGTH (lit "Oak Wall Clock"),
          lit "Silent oak wall clock for the hallway.").
Proof.
  apply (parse_keeps_clean_description (lit "Silent oak wall clock for the hallway.")).
  - reflexivity.
  - by_computation.
  - by_computation.
  - intros v Hv. unfold banned_terms in Hv.
    repeat (apply elem_of_cons in Hv as [->|Hv]; [vm_compute; reflexivity|]).
    inversion Hv.
  - reflexivity.
  - vm_compute. reflexivity.
  - vm_compute. lia.
Defined.
End ParserExtras.

(** * More on the matcher and the gate *)

Module RatioBounds.
Import Difflib Matching DifflibBounds RatioFacts GateFacts.

Lemma total_size_snoc blocks (t : block) :
  total_size (blocks ++ [t]) = total_size blocks + t.2.
Proof.
  unfold total_size. rewrite map_app, list_sum_app. simpl. lia.
Qed.

Lemma width_a_cons q queue : width_a (q :: queue) = q.1.1.2 - q.1.1.1 + width_a queue.
Proof. reflexivity. Qed.

Lemma width_b_cons q queue : width_b (q :: queue) = q.2 - q.1.2 + width_b queue.
Proof. reflexivity. Qed.

(** The blocks found fit side by side in the ranges they come from. *)
Lemma blocks_loop_sizes a b b2j fuel queue acc res :
  well_formed queue -> well_formed_b queue ->
  blocks_loop a b b2j fuel queue acc = Some res ->
  total_size res <= total_size acc + width_a queue /\
  total_size res <= total_size acc + width_b queue.
Proof.
  revert queue acc. induction fuel as [|fuel IH]; intros queue acc Hwa Hwb Hrun.
  - destruct queue as [|[[[alo ahi] blo] bhi] queue]; [|done].
    injection Hrun as <-. lia.
  - destruct queue as [|[[[alo ahi] blo] bhi] queue]; [injection Hrun as <-; lia|].
    apply Forall_cons in Hwa as [Ha Hwa]. apply Forall_cons in Hwb as [Hb Hwb].
    cbn [fst snd] in Ha, Hb. cbn [blocks_loop] in Hrun.
    pose proof (find_longest_match_bounds a b b2j alo ahi blo bhi Ha) as [Ha1 Ha2].
    pose proof (find_longest_match_bounds_b a b b2j alo ahi blo bhi Hb) as [Hb1 Hb2].
    destruct (find_longest_match a b b2j alo ahi blo bhi) as [[i j] k].
    cbn [fst snd] in *. rewrite width_a_cons, width_b_cons. cbn [fst snd].
    destruct (k =? 0) eqn:Ek.
    + destruct (IH _ _ Hwa Hwb Hrun). lia.
    + apply IH in Hrun.
      * rewrite total_size_snoc in Hrun. cbn [snd] in Hrun.
        destruct ((i + k <? ahi) && (j + k <? bhi));
          destruct ((alo <? i) && (blo <? j));
          rewrite ?width_a_cons, ?width_b_cons in Hrun; cbn [fst snd] in Hrun; lia.
      * destruct ((i + k <? ahi) && (j + k <? bhi)) eqn:E2;
          destruct ((alo <? i) && (blo <? j)) eqn:E1;
          repeat (apply Forall_cons; split); try done; cbn [fst snd].
        all: try (apply andb_true_iff in E2 as [E2 _]; apply Nat.ltb_lt in E2).
        all: try (apply andb_true_iff in E1 as [E1 _]; apply Nat.ltb_lt in E1).
        all: lia.
      * destruct ((i + k <? ahi) && (j + k <? bhi)) eqn:E2;
          destruct ((alo <? i) && (blo <? j)) eqn:E1;
          repeat (apply Forall_cons; split); try done; cbn [fst snd].
        all: try (apply andb_true_iff in E2 as [_ E2]; apply Nat.ltb_lt in E2).
        all: try (apply andb_true_iff in E1 as [_ E1]; apply Nat.ltb_lt in E1).
        all: lia.
Qed.

(** No more elements are matched than either text has. *)
Lemma matches_le a b blocks :
  get_matching_blocks a b = Some blocks ->
  total_size blocks <= length a /\ total_size blocks <= length b.
Proof.
  unfold get_matching_blocks. intros Hrun.
  apply blocks_loop_sizes in Hrun.
  - unfold total_size, width_a, width_b in *. simpl in Hrun. lia.
  - apply Forall_cons. split; [simpl; lia | done].
  - apply Forall_cons. split; [simpl; lia | done].
Qed.

Lemma calculate_ratio_le_1 m len : 2 * m <= len -> (calculate_ratio m len <= 1)%Q.
Proof.
  intros Hm. unfold calculate_ratio. destruct (len =? 0) eqn:E; [apply Qle_refl|].
  apply Nat.eqb_neq in E. rewrite Qred_correct. unfold Qle. cbn [Qnum Qden].
  assert (Z.pos (Pos.of_nat len) = Z.of_nat len) as ->
    by (rewrite <- positive_nat_Z, Nat2Pos.id by done; done).
  lia.
Qed.

Lemma ratio_le_1 a b : (ratio a b <= 1)%Q.
Proof.
  unfold ratio. destruct (get_matching_blocks_total a b) as [blocks Hb].
  rewrite Hb. simpl default. destruct (matches_le a b blocks Hb).
  apply calculate_ratio_le_1. unfold total_size in *. lia.
Qed.

Lemma similarity_le_1 x y : (similarity x y <= 1)%Q.
Proof. apply ratio_le_1. Qed.

(** For a pool that is not empty, what [check_similarity] returns comes
    from the loop. *)
Lemma check_similarity_worst x y pool :
  exists s m,
    check_similarity x (y :: pool) = (Qltb s SIMILARITY_THRESHOLD, s, m) /\
    worst_of x (y :: pool) s m.
Proof.
  assert (worst_of x [] 0%Q []) as H0.
  { split; [apply Qle_refl|]. split; [intros z Hz; inversion Hz | by left]. }
  pose proof (worst_fold x (y :: pool) [] 0%Q [] H0) as Hw.
  unfold check_similarity.
  destruct (fold_left (worst_step x) (y :: pool) (0%Q, [])) as [s m].
  by exists s, m.
Qed.

Lemma worst_of_le_1 x seen s m : worst_of x seen s m -> (s <= 1)%Q.
Proof.
  intros (_ & _ & [[-> _]|(_ & pre & post & _ & <- & _)]); [unfold Qle; simpl; lia|].
  apply similarity_le_1.
Qed.

Lemma worst_step_grows x acc y : (acc.1 <= (worst_step x acc y).1)%Q.
Proof.
  unfold worst_step. destruct (Qltb acc.1 (similarity x y)) eqn:E; [|apply Qle_refl].
  apply Qltb_lt in E. by apply Qlt_le_weak.
Qed.

Lemma worst_fold_grows x pool acc : (acc.1 <= (fold_left (worst_step x) pool acc).1)%Q.
Proof.
  revert acc. induction pool as [|y pool IH]; intros acc; [apply Qle_refl|].
  simpl. eapply Qle_trans; [apply worst_step_grows | apply IH].
Qed.
End RatioBounds.

Section GateExtras.
Import RatioFacts GateFacts RatioBounds.

Lemma score_between_0_and_1 (x : str) (pool : list str) :
  (0 <= (check_similarity x pool).1.2)%Q /\ ((check_similarity x pool).1.2 <= 1)%Q.
Proof.
  destruct pool as [|y pool]; [split; unfold Qle; simpl; lia|].
  destruct (check_similarity_worst x y pool) as (s & m & -> & Hw).
  cbn [fst snd]. split; [apply Hw | by eapply worst_of_le_1].
Qed.

(** X5: the score that [check_similarity] reports lies between 0 and 1. *)
Theorem check_similarity_score_range (x : str) (pool : list str) :
  (0 <= (check_similarity x pool).1.2)%Q /\ ((check_similarity x pool).1.2 <= 1)%Q.
Proof. apply score_between_0_and_1. Qed.

(** X6: a candidate that equals a member of the pool up to case is
    rejected, with score 1. *)
Theorem check_similarity_rejects_duplicate (x y : str) (pool : list str) :
  y ∈ pool -> Str.lower x = Str.lower y ->
  (check_similarity x pool).1.1 = false /\ (check_similarity x pool).1.2 = 1%Q.
Proof.
  intros Hy Hl. destruct pool as [|y0 pool]; [inversion Hy|].
  destruct (check_similarity_worst x y0 pool) as (s & m & -> & Hw).
  cbn [fst snd].
  assert (similarity x y = 1%Q) as Hsim
    by (unfold similarity; rewrite Hl; apply ratio_self).
  assert (1 <= s)%Q as Hge by (rewrite <- Hsim; by apply Hw).
  pose proof (worst_of_le_1 _ _ _ _ Hw) as Hle.
  split.
  - apply Qltb_ge. eapply Qle_trans; [|exact Hge]. unfold Qle; simpl; lia.
  - destruct Hw as (_ & _ & [[-> _]|(_ & pre & post & _ & <- & _)]).
    + exfalso. revert Hge. unfold Qle; simpl; lia.
    + apply ratio_eq; [reflexivity | by apply Qle_antisym].
Qed.

Lemma check_similarity_rejects_duplicate_witness :
  (check_similarity (lit "Silent WALL clock") [lit "Oak clock"; lit "silent wall Clock"]).1.1
    = false /\
  (check_similarity (lit "Silent WALL clock") [lit "Oak clock"; lit "silent wall Clock"]).1.2
    = 1%Q.
Proof.
  apply (check_similarity_rejects_duplicate _ (lit "silent wall Clock")).
  - right. left.
  - reflexivity.
Defined.

(** X7: more descriptions in the pool never lower the reported score, and
    never turn a rejection into an acceptance. *)
Theorem check_similarity_pool_grows (x : str) (pool more : list str) :
  ((check_similarity x pool).1.2 <= (check_similarity x (pool ++ more)).1.2)%Q /\
  ((check_similarity x (pool ++ more)).1.1 = true -> (check_similarity x pool).1.1 = true).
Proof.
  destruct pool as [|y pool].
  - split; [|done]. apply score_between_0_and_1.
  - assert ((check_similarity x (y :: pool)).1.2 <=
            (check_similarity x ((y :: pool) ++ more)).1.2)%Q as Hle.
    { unfold check_similarity. cbn [app].
      change (y :: pool ++ more) with ((y :: pool) ++ more).
      rewrite fold_left_app.
      pose proof (worst_fold_grows x more (fold_left (worst_step x) (y :: pool) (0%Q, [])))
        as Hg.
      destruct (fold_left (worst_step x) (y :: pool) (0%Q, [])) as [s m].
      destruct (fold_left (worst_step x) more (s, m)) as [s' m']. exact Hg. }
    split; [exact Hle|].
    destruct (check_similarity_worst x y pool) as (s & m & E & _).
    destruct (check_similarity_worst x y (pool ++ more)) as (s' & m' & E' & _).
    cbn [app] in *. rewrite E, E' in *. cbn [fst snd] in *.
    rewrite !Qltb_lt. intros Hlt. by eapply Qle_lt_trans.
Qed.

Lemma worst_empty_candidate pool (found : bool) :
  fold_left (worst_step []) pool (if found then 1%Q else 0%Q, []) =
  (if found || bool_decide ([] ∈ pool) then 1%Q else 0%Q, []).
Proof.
  revert found. induction pool as [|y pool IH]; intros found.
  - rewrite bool_decide_eq_false_2 by (intros Hin; inversion Hin).
    by rewrite orb_false_r.
  - cbn [fold_left]. unfold worst_step at 2. cbn [fst snd].
    destruct y as [|c y].
    + assert (similarity [] [] = 1%Q) as -> by apply similarity_self.
      rewrite (bool_decide_eq_true_2 ([] ∈ [] :: pool)) by (by left).
      rewrite orb_true_r. destruct found; lazy beta iota.
      * change (Qltb 1 1) with false. lazy beta iota. exact (IH true).
      * change (Qltb 0 1) with true. lazy beta iota. exact (IH true).
    + assert (similarity [] (c :: y) = 0%Q) as ->
        by (unfold similarity; by apply ratio_empty_l).
      assert (Qltb (if found then 1%Q else 0%Q) 0 = false) as ->
        by (apply Qltb_ge; destruct found; unfold Qle; simpl; lia).
      rewrite IH.
      assert (bool_decide ([] ∈ (c :: y) :: pool) = bool_decide ([] ∈ pool)) as ->; [|done].
      apply bool_decide_ext. rewrite elem_of_cons. split; [by intros [?|?] | auto].
Qed.

(** X8: an empty description passes the gate unless the pool already
    holds an empty description; its score is then 1, and 0 otherwise. *)
Theorem check_similarity_empty_candidate (pool : list str) :
  check_similarity [] pool =
    (bool_decide ([] ∉ pool), if bool_decide ([] ∈ pool) then 1%Q else 0%Q, []).
Proof.
  destruct pool as [|y pool]; [reflexivity|].
  unfold check_similarity. rewrite (worst_empty_candidate (y :: pool) false).
  cbn [orb]. destruct (decide ([] ∈ y :: pool)) as [Hin|Hout].
  - by rewrite (bool_decide_eq_true_2 _ Hin), bool_decide_eq_false_2 by auto.
  - by rewrite (bool_decide_eq_false_2 _ Hout), bool_decide_eq_true_2 by done.
Qed.
End GateExtras.

(** * More on the detector *)

Section DetectorExtras.

Lemma max_key_ext (sc sc' : scores) : (forall d, sc d = sc' d) -> max_key sc = max_key sc'.
Proof. intros E. unfold max_key. cbn [fold_left]. by rewrite !E. Qed.

Lemma hit_score_perm rs rs' d : Permutation rs rs' -> hit_score rs d = hit_score rs' d.
Proof.
  unfold hit_score. induction 1 as [|r l l' _ IH|r r' l|l l' l'' _ IH1 _ IH2];
    simpl; lia.
Qed.

(** X9: the detected category, and whether the warning is given, do not
    depend on the order of the rows. *)
Theorem detect_product_type_row_order (rs rs' : list row) :
  Permutation rs rs' -> detect_product_type rs = detect_product_type rs'.
Proof.
  intros Hp.
  assert (forall d, tally rs d = tally rs' d) as E
    by (intros d; rewrite !tally_hit_score; by apply hit_score_perm).
  unfold detect_product_type. by rewrite (max_key_ext _ _ E), !E.
Qed.

Lemma detect_product_type_row_order_witness :
  detect_product_type [clock_row; old_row] = detect_product_type [old_row; clock_row].
Proof.
  apply (detect_product_type_row_order [clock_row; old_row] [old_row; clock_row]).
  apply perm_swap.
Defined.
End DetectorExtras.

(** * More on the orchestrator *)

Section OrchestratorBounds.
Context `{Collaborators}.
Import ParserFacts CleanText.

Lemma waited_app evs evs' : waited (evs ++ evs') = waited evs + waited evs'.
Proof. unfold waited, sleeps_in. by rewrite flat_map_app, list_sum_app. Qed.

(** What one run of the loop over [server_retry] costs and where its
    exception comes from. *)
Lemma server_retries_cost client r retries w :
  exists evs,
    w_events (server_retries client r retries w).2 = w_events w ++ evs /\
    w_rng (server_retries client r retries w).2 = w_rng w /\
    calls_in evs <= length retries /\
    waited evs <= list_sum (map (fun server_retry => (server_retry + 1) * 8) retries) /\
    (forall content, (server_retries client r retries w).1 = Ok content ->
                     1 <= calls_in evs /\
                     exists n, client n r = Response content).
Proof.
  revert w. induction retries as [|server_retry rest IH]; intros w.
  - exists []. simpl. rewrite app_nil_r. split_and!; try done; lia.
  - cbn [server_retries]. unfold create.
    destruct (client (calls_in (w_events w)) r) as [content|err] eqn:Ec.
    + exists [Call r]. cbn [fst snd log w_events w_rng]. split_and!; try done.
      * unfold calls_in. simpl. lia.
      * unfold waited. simpl. lia.
      * intros c [= <-]. split; [unfold calls_in; simpl; lia | eauto].
    + destruct (is_transient err).
      * destruct (server_retry =? 4).
        -- exists [Call r; Sleep ((server_retry + 1) * 8)].
           cbn [fst snd log w_events w_rng]. rewrite <- app_assoc.
           split_and!; try done.
           ++ unfold calls_in. simpl. lia.
           ++ unfold waited. simpl. lia.
        -- destruct (IH (log (Sleep ((server_retry + 1) * 8)) (log (Call r) w)))
             as (evs & Hev & Hrng & Hcalls & Hwait & Hok).
           exists ([Call r; Sleep ((server_retry + 1) * 8)] ++ evs).
           split; [rewrite Hev; cbn [log w_events]; by rewrite <- !app_assoc|].
           split; [by rewrite Hrng|].
           split; [rewrite calls_in_app; unfold calls_in at 1; simpl; lia|].
           split; [rewrite waited_app; unfold waited at 1; simpl; lia|].
           intros content Hc. destruct (Hok content Hc) as [_ Hn].
           split; [rewrite calls_in_app; unfold calls_in at 1; simpl; lia | exact Hn].
      * exists [Call r]. cbn [fst snd log w_events w_rng]. split_and!; try done.
        -- unfold calls_in. simpl. lia.
        -- unfold waited. simpl. lia.
Qed.

(** The range of [server_retry] ends with 4, where the loop raises: an
    exception of the loop is an exception of the service. *)
Lemma server_retries_raise client r k j w err :
  j + k = 4 ->
  (server_retries client r (seq j (S k)) w).1 = Raise err ->
  exists n, client n r = Failure err.
Proof.
  revert j w. induction k as [|k IH]; intros j w Hj.
  - cbn [seq server_retries]. unfold create.
    destruct (client (calls_in (w_events w)) r) as [content|e] eqn:Ec; [done|].
    destruct (is_transient e).
    + replace (j =? 4) with true by (symmetry; apply Nat.eqb_eq; lia).
      intros [= <-]. eauto.
    + intros [= <-]. eauto.
  - cbn [seq server_retries]. unfold create.
    destruct (client (calls_in (w_events w)) r) as [content|e] eqn:Ec; [done|].
    destruct (is_transient e).
    + replace (j =? 4) with false by (symmetry; apply Nat.eqb_neq; lia).
      apply IH. lia.
    + intros [= <-]. eauto.
Qed.

(** What the parser returns is clean, whatever the answer was. *)
Lemma parsed_fields_clean content title fields :
  parse_seo_response content title = Some fields ->
  fields.1 = take MAX_SEO_TITLE_LENGTH title /\
  length fields.2 <= MAX_SEO_DESCRIPTION_LENGTH /\
  (dquote ∉ fields.2) /\ (squote ∉ fields.2) /\ has_tag fields.2 = false /\
  single_spaced fields.2 = true.
Proof.
  rewrite parse_seo_response_eq. intros [= <-]. cbn [fst snd].
  set (s := substituted (extracted_description content title)).
  assert (forall x, x ∈ take MAX_SEO_DESCRIPTION_LENGTH (Str.strip (Str.collapse_ws s)) ->
                    x ∈ s \/ x = " "%char) as Hchars.
  { intros x Hx. apply StrFacts.elem_collapse_from with (b := false), StrFacts.elem_strip.
    eapply elem_of_prefix; [exact Hx | apply prefix_take]. }
  split_and!.
  - done.
  - rewrite length_take. lia.
  - intros Hx. apply Hchars in Hx as [Hx|Hx]; [|discriminate].
    apply elem_substituted in Hx as [(_ & Hq & _)|[Hx|Hx]]; [done | |];
      revert Hx; by_computation.
  - intros Hx. apply Hchars in Hx as [Hx|Hx]; [|discriminate].
    apply elem_substituted in Hx as [(_ & _ & Hq)|[Hx|Hx]]; [done | |];
      revert Hx; by_computation.
  - apply StrFacts.no_tag_take, StrFacts.no_tag_strip, StrFacts.no_tag_collapse_from,
      no_tag_substituted.
  - apply take_spaced. eapply strip_spaced. apply collapse_from_spaced.
Qed.

(** The loop over [attempt]: its cost, where a returned candidate comes
    from, when a rejected one is returned, and where an exception comes
    from. *)
Lemma attempts_profile client title clean_body pool product_type todo :
  forall last w,
  exists evs,
    w_events (attempts client title clean_body pool product_type todo last w).2 =
      w_events w ++ evs /\
    calls_in evs <= 5 * length todo /\
    waited evs <= length todo * (8 + 16 + 24 + 32 + 40 + API_DELAY) /\
    (forall fields,
        (attempts client title clean_body pool product_type todo last w).1 = Ok fields ->
        ((exists n r content,
             client n r = Response content /\
             parse_seo_response content title = Some fields) \/ last = Some fields) /\
        ((check_similarity fields.2 pool).1.1 = true \/ length todo <= calls_in evs)) /\
    (forall err,
        (attempts client title clean_body pool product_type todo last w).1 = Raise err ->
        (exists n r, client n r = Failure err) \/ (todo = [] /\ last = None)).
Proof.
  induction todo as [|attempt rest IH]; intros last w.
  - exists []. rewrite app_nil_r. cbn [attempts length].
    destruct last as [fields0|]; cbn [ret raise fst snd].
    + split_and!; try done; try (unfold calls_in, waited; simpl; lia).
      intros fields [= <-]. split; [by right | right; lia].
    + split_and!; try done; try (unfold calls_in, waited; simpl; lia).
      intros err _. by right.
  - cbn [length].
    remember (attempts client title clean_body pool product_type (attempt :: rest) last w)
      as run eqn:Hrun.
    cbn [attempts] in Hrun. unfold bind at 1 in Hrun. unfold draw_hint in Hrun.
    destruct (get_variation_hint product_type (w_rng w)) as [hint g].
    set (w1 := {| w_rng := g; w_events := w_events w |}) in Hrun.
    set (r := {| req_prompt := format_prompt product_type title clean_body hint;
                 req_temperature := temperature attempt |}) in Hrun.
    unfold bind at 1 in Hrun.
    destruct (server_retries_cost client r (seq 0 5) w1)
      as (evs1 & E1 & _ & Hcalls1 & Hwait1 & Hok1).
    pose proof (server_retries_raise client r 4 0 w1) as Hraise1.
    change (length (seq 0 5)) with 5 in Hcalls1.
    change (list_sum _) with 120 in Hwait1.
    destruct (server_retries client r (seq 0 5) w1) as [[content|err] w2];
      cbn [fst snd] in *.
    + destruct (Hok1 content eq_refl) as [Hone [n Hn]].
      unfold bind at 1 in Hrun.
      destruct (parse_seo_response content title) as [fields|] eqn:Ep;
        [|by rewrite parse_seo_response_eq in Ep].
      cbn [lift_exception ret] in Hrun.
      destruct (check_similarity fields.2 pool) as [[is_ok score] similar_to] eqn:Echeck.
      destruct is_ok.
      * subst run. exists evs1. cbn [fst snd]. unfold API_DELAY.
        split_and!; try done; try lia.
        intros f Hf. injection Hf as <-. rewrite Echeck. split; [left; eauto | by left].
      * unfold bind at 1 in Hrun. cbn [sleep] in Hrun.
        destruct (IH (Some fields) (log (Sleep API_DELAY) w2))
          as (evs2 & E2 & Hcalls2 & Hwait2 & Hok2 & Hraise2).
        subst run.
        exists (evs1 ++ [Sleep API_DELAY] ++ evs2).
        split; [rewrite E2; cbn [log w_events]; by rewrite E1, <- !app_assoc|].
        rewrite !calls_in_app, !waited_app.
        change (calls_in [Sleep API_DELAY]) with 0.
        change (waited [Sleep API_DELAY]) with API_DELAY.
        unfold API_DELAY in *. split_and!; try lia.
        -- intros f Hf. destruct (Hok2 f Hf) as [Hsrc Hgate]. split.
           ++ left. destruct Hsrc as [Hsrc|Hsrc]; [done|].
              injection Hsrc as <-. eauto.
           ++ destruct Hgate as [?|?]; [by left | right; lia].
        -- intros err Herr. left.
           destruct (Hraise2 err Herr) as [?|[_ ?]]; [done | discriminate].
    + subst run. exists evs1. cbn [fst snd]. unfold API_DELAY.
      split_and!; try done; try lia.
      intros e He. injection He as <-. left.
      destruct (Hraise1 err eq_refl eq_refl) as [n Hn]. eauto.
Qed.

(** X10: whatever the service does, [generate_seo] issues at most 15
    requests for an item (5 tries of each of the [MAX_RETRIES] attempts)
    and sleeps at most 375 seconds (8+16+24+32+40 for the retries of an
    attempt, and [API_DELAY] after a rejected candidate). *)
Theorem generate_seo_bounded client title body_html pool product_type w :
  exists evs,
    w_events (generate_seo client title body_html pool product_type w).2 =
      w_events w ++ evs /\
    calls_in evs <= 5 * MAX_RETRIES /\
    waited evs <= MAX_RETRIES * (8 + 16 + 24 + 32 + 40 + API_DELAY).
Proof.
  unfold generate_seo.
  destruct (attempts_profile client title (strip_html body_html) pool product_type
              (seq 0 MAX_RETRIES) None w) as (evs & E & Hc & Hw & _).
  exists evs. by rewrite length_seq in Hc, Hw.
Qed.

(** X11: the fields that [generate_seo] returns are always what the parser
    made of an answer of the service for this title, also when the attempts
    are used up: the title is the given title cut to 70 characters and the
    description has at most 320 characters, no quote and no tag. *)
Theorem generate_seo_returns_parsed_answer client title body_html pool product_type w
    fields w' :
  generate_seo client title body_html pool product_type w = (Ok fields, w') ->
  (exists n r content,
      client n r = Response content /\
      parse_seo_response content title = Some fields) /\
  fields.1 = take MAX_SEO_TITLE_LENGTH title /\
  length fields.2 <= MAX_SEO_DESCRIPTION_LENGTH /\
  (dquote ∉ fields.2) /\ (squote ∉ fields.2) /\ has_tag fields.2 = false.
Proof.
  unfold generate_seo. intros Hrun.
  destruct (attempts_profile client title (strip_html body_html) pool product_type
              (seq 0 MAX_RETRIES) None w) as (evs & _ & _ & _ & Hok & _).
  rewrite Hrun in Hok. destruct (Hok fields eq_refl) as [[Hsrc|[=]] _].
  split; [exact Hsrc|].
  destruct Hsrc as (n & r & content & _ & Hp).
  destruct (parsed_fields_clean content title fields Hp) as (? & ? & ? & ? & ? & _).
  done.
Qed.

(** X12: a candidate that the similarity gate rejects is returned only
    after [MAX_RETRIES] requests at least: what [generate_seo] returns
    either passed the gate against the pool or is the result of using up
    the attempts. *)
Theorem generate_seo_accepted_or_exhausted client title body_html pool product_type w
    fields w' :
  generate_seo client title body_html pool product_type w = (Ok fields, w') ->
  exists evs,
    w_events w' = w_events w ++ evs /\
    ((check_similarity fields.2 pool).1.1 = true \/ MAX_RETRIES <= calls_in evs).
Proof.
  unfold generate_seo. intros Hrun.
  destruct (attempts_profile client title (strip_html body_html) pool product_type
              (seq 0 MAX_RETRIES) None w) as (evs & E & _ & _ & Hok & _).
  rewrite Hrun in Hok, E. destruct (Hok fields eq_refl) as [_ Hgate].
  exists evs. split; [exact E|]. by rewrite length_seq in Hgate.
Qed.

(** X13: when the first answer parses to a candidate that passes the gate,
    [generate_seo] returns it after one request, one draw of a variation
    hint and no sleep. *)
Theorem generate_seo_first_attempt client title body_html pool product_type w
    content fields :
  let hint := (get_variation_hint product_type (w_rng w)).1 in
  let r := {| req_prompt := format_prompt product_type title (strip_html body_html) hint;
              req_temperature := temperature 0 |} in
  client (calls_in (w_events w)) r = Response content ->
  parse_seo_response content title = Some fields ->
  (check_similarity fields.2 pool).1.1 = true ->
  generate_seo client title body_html pool product_type w =
    (Ok fields, {| w_rng := (get_variation_hint product_type (w_rng w)).2;
                   w_events := w_events w ++ [Call r] |}).
Proof.
  intros hint r Hc Hp Hgate. subst hint r. unfold generate_seo.
  change (seq 0 MAX_RETRIES) with [0; 1; 2]. cbn [attempts].
  unfold bind at 1. unfold draw_hint.
  destruct (get_variation_hint product_type (w_rng w)) as [hint g]. cbn [fst snd] in *.
  unfold bind at 1. cbn [seq server_retries]. unfold create. cbn [w_events].
  rewrite Hc. unfold bind at 1. rewrite Hp. cbn [lift_exception ret].
  destruct (check_similarity fields.2 pool) as [[is_ok score] similar_to].
  cbn [fst snd] in Hgate. subst is_ok. reflexivity.
Qed.

(** X14: an exception of [generate_seo] is always an exception of a
    service call, with its message: neither the parser nor the similarity
    gate makes an item fail. *)
Theorem generate_seo_raises_service_error client title body_html pool product_type w
    err w' :
  generate_seo client title body_html pool product_type w = (Raise err, w') ->
  exists n r, client n r = Failure err.
Proof.
  unfold generate_seo. intros Hrun.
  destruct (attempts_profile client title (strip_html body_html) pool product_type
              (seq 0 MAX_RETRIES) None w) as (evs & _ & _ & _ & _ & Hraise).
  rewrite Hrun in Hraise. destruct (Hraise err eq_refl) as [?|[[=] _]]. done.
Qed.
End OrchestratorBounds.


Section OrchestratorBoundsExamples.

(** A service that repeats a description of the pool: the third candidate
    is returned, and it is still what the parser made of an answer. *)
Lemma generate_seo_returns_parsed_answer_witness :
  let client := echo_client (lit "SEO Description: 'Silent' <b>wall</b> clock") in
  let fields := (lit "Clock", lit "Silent wall clock") in
  (exists n r content,
      client n r = Response content /\
      parse_seo_response content (lit "Clock") = Some fields) /\
  fields.1 = take MAX_SEO_TITLE_LENGTH (lit "Clock") /\
  length fields.2 <= MAX_SEO_DESCRIPTION_LENGTH /\
  (dquote ∉ fields.2) /\ (squote ∉ fields.2) /\ has_tag fields.2 = false.
Proof.
  intros client fields.
  apply (@generate_seo_returns_parsed_answer plain_collaborators client (lit "Clock") []
           [lit "silent wall clock"] wall_clocks w0 fields
           (generate_seo client (lit "Clock") [] [lit "silent wall clock"] wall_clocks w0).2).
  vm_compute. reflexivity.
Defined.

Lemma generate_seo_accepted_or_exhausted_witness :
  let client := echo_client (lit "SEO Description: Silent wall clock") in
  let run := generate_seo client (lit "Clock") [] [lit "silent wall clock"] wall_clocks w0 in
  exists evs,
    w_events run.2 = w_events w0 ++ evs /\
    ((check_similarity (lit "Silent wall clock") [lit "silent wall clock"]).1.1 = true \/
     MAX_RETRIES <= calls_in evs).
Proof.
  intros client run.
  apply (@generate_seo_accepted_or_exhausted plain_collaborators client (lit "Clock") []
           [lit "silent wall clock"] wall_clocks w0
           (lit "Clock", lit "Silent wall clock") run.2).
  vm_compute. reflexivity.
Defined.

Lemma generate_seo_first_attempt_witness :
  let client := echo_client (lit "SEO Description: Silent wall clock") in
  let r := {| req_prompt := lit "Clock|"; req_temperature := temperature 0 |} in
  generate_seo client (lit "Clock") [] [lit "Oak clock for the hallway."] wall_clocks w0 =
    (Ok (lit "Clock", lit "Silent wall clock"),
     @Build_world plain_collaborators tt [Call r]).
Proof.
  intros client r.
  apply (@generate_seo_first_attempt plain_collaborators client (lit "Clock") []
           [lit "Oak clock for the hallway."] wall_clocks w0
           (lit "SEO Description: Silent wall clock")
           (lit "Clock", lit "Silent wall clock")).
  - reflexivity.
  - vm_compute. reflexivity.
  - vm_compute. reflexivity.
Defined.

Lemma generate_seo_raises_service_error_witness :
  exists n r,
    flaky_client 1 (lit "401 invalid api key") (lit "ok") n r =
    Failure (lit "401 invalid api key").
Proof.
  apply (@generate_seo_raises_service_error plain_collaborators
           (flaky_client 1 (lit "401 invalid api key") (lit "ok")) (lit "Clock") [] []
           wall_clocks w0 (lit "401 invalid api key")
           (generate_seo (flaky_client 1 (lit "401 invalid api key") (lit "ok"))
                         (lit "Clock") [] [] wall_clocks w0).2).
  vm_compute. reflexivity.
Defined.
End OrchestratorBoundsExamples.

(** * More on the run *)

Section RunExtras.
Context `{Collaborators}.

Lemma saved_handles_cons (rp : report) rps :
  saved_handles (rp :: rps) =
  (if succeeded rp then {[ rp_handle rp ]} else ∅) ∪ saved_handles rps.
Proof.
  unfold saved_handles. cbn [List.filter]. destruct (succeeded rp); cbn [map list_to_set].
  - done.
  - set_solver.
Qed.

Lemma saved_handles_none rps : existsb succeeded rps = false -> saved_handles rps = ∅.
Proof.
  induction rps as [|rp rps IH]; [done|]. cbn [existsb]. rewrite orb_false_iff.
  intros [Hrp Hrps]. rewrite saved_handles_cons, Hrp, IH by done. set_solver.
Qed.

Lemma elem_saved_handles h rps :
  h ∈ saved_handles rps <-> exists rp, rp ∈ rps /\ succeeded rp = true /\ rp_handle rp = h.
Proof.
  induction rps as [|rp rps IH].
  - split; [set_solver | intros (rp & Hrp & _); inversion Hrp].
  - rewrite saved_handles_cons, elem_of_union, IH. split.
    + intros [Hh|(rp' & ? & ? & ?)].
      * destruct (succeeded rp) eqn:E; [|set_solver].
        apply elem_of_singleton in Hh. exists rp. split; [left|done].
      * exists rp'. split; [by right|done].
    + intros (rp' & Hin & Hs & Hh). apply elem_of_cons in Hin as [->|Hin].
      * left. rewrite Hs. set_solver.
      * right. eauto.
Qed.

(** What one item does to the rows and to the progress. *)
Lemma process_item_state client product_type row_index st w :
  let it := process_item client product_type row_index st w in
  length (rows it.1.2) = length (rows st) /\
  (forall i, i <> row_index \/ succeeded it.1.1 = false ->
             rows it.1.2 !! i = rows st !! i) /\
  (forall i (key : string),
      key <> "SEO Title"%string -> key <> "SEO Description"%string ->
      default ∅ (rows it.1.2 !! i) !! key = default ∅ (rows st !! i) !! key) /\
  (forall t d, rp_result it.1.1 = Ok (t, d) -> row_index < length (rows st) ->
               exists r', rows it.1.2 !! row_index = Some r' /\
                          r' !! "SEO Title"%string = Some t /\
                          r' !! "SEO Description"%string = Some d) /\
  processed_handles it.1.2 =
    (if succeeded it.1.1 then {[ rp_handle it.1.1 ]} else ∅) ∪ processed_handles st /\
  progress_file it.1.2 =
    (if succeeded it.1.1 then Some (processed_handles it.1.2) else progress_file st).
Proof.
  unfold process_item, succeeded.
  destruct (generate_seo _ _ _ _ _ _) as [[[t d]|e] w1];
    cbn [fst snd rows rp_result rp_handle processed_handles progress_file].
  - split_and!.
    + by rewrite length_insert.
    + intros i [Hi|?]; [|done]. by rewrite list_lookup_insert_ne.
    + intros i key Ht Hd. destruct (decide (i = row_index)) as [->|Hne];
        [|by rewrite list_lookup_insert_ne].
      destruct (decide (row_index < length (rows st))) as [Hlt|Hge].
      * rewrite list_lookup_insert_eq by done. change (default ∅ (Some ?x)) with x.
        by rewrite !lookup_insert_ne.
      * by rewrite list_insert_ge by lia.
    + intros t' d' [= <- <-] Hlt. eexists. split; [by apply list_lookup_insert_eq|].
      split; [by rewrite lookup_insert_ne, lookup_insert_eq | by rewrite lookup_insert_eq].
    + done.
    + done.
  - split_and!; try done. set_solver.
Qed.

Lemma process_all_state client product_type todo :
  forall st w,
    let run := process_all client product_type todo st w in
    length (rows run.1.2) = length (rows st) /\
    (forall i, (forall rp, rp ∈ run.1.1 -> rp_index rp = i -> succeeded rp = false) ->
               rows run.1.2 !! i = rows st !! i) /\
    (forall i (key : string),
        key <> "SEO Title"%string -> key <> "SEO Description"%string ->
        default ∅ (rows run.1.2 !! i) !! key = default ∅ (rows st !! i) !! key) /\
    (NoDup todo -> (forall i, i ∈ todo -> i < length (rows st)) ->
     forall rp t d, rp ∈ run.1.1 -> rp_result rp = Ok (t, d) ->
                    exists r', rows run.1.2 !! rp_index rp = Some r' /\
                               r' !! "SEO Title"%string = Some t /\
                               r' !! "SEO Description"%string = Some d) /\
    processed_handles run.1.2 = saved_handles run.1.1 ∪ processed_handles st /\
    progress_file run.1.2 =
      (if existsb succeeded run.1.1 then Some (processed_handles run.1.2)
       else progress_file st).
Proof.
  induction todo as [|row_index rest IH]; intros st w.
  - cbn [process_all fst snd existsb]. split_and!; try done.
    + intros _ _ rp t d Hrp. inversion Hrp.
    + unfold saved_handles. cbn. set_solver.
  - rewrite process_all_cons. cbn zeta. cbn [fst snd].
    destruct (process_item_report client product_type row_index st w) as (Hidx & _).
    destruct (process_item_state client product_type row_index st w)
      as (Hlen1 & Hsame1 & Hkeys1 & Hset1 & Hproc1 & Hfile1).
    set (it := process_item client product_type row_index st w) in *.
    set (w2 := match rest with [] => it.2 | _ => log (Sleep API_DELAY) it.2 end).
    destruct (IH it.1.2 w2) as (Hlen & Hsame & Hkeys & Hset & Hproc & Hfile).
    destruct (process_all_reports client product_type rest it.1.2 w2) as [Hmap _].
    set (run := process_all client product_type rest it.1.2 w2) in *.
    split_and!.
    + by rewrite Hlen.
    + intros i Hi. rewrite Hsame, Hsame1; [done | |].
      * destruct (decide (i = row_index)) as [->|?]; [|by left].
        right. apply Hi; [left | done].
      * intros rp Hrp. apply Hi. by right.
    + intros i key Ht Hd. by rewrite Hkeys, Hkeys1.
    + intros Hnd Hlt rp t d Hrp Hres.
      apply NoDup_cons in Hnd as [Hfresh Hnd].
      apply elem_of_cons in Hrp as [->|Hrp].
      * destruct (Hset1 t d Hres) as (r' & Hr' & Hrt & Hrd); [apply Hlt; left|].
        exists r'. split; [|done]. rewrite Hsame; [by rewrite Hidx|].
        intros rp Hrp Hi. exfalso. apply Hfresh. rewrite <- Hmap, <- Hidx, <- Hi.
        apply list_elem_of_In, in_map, list_elem_of_In, Hrp.
      * apply Hset; [done | | done | done].
        intros i Hi. rewrite Hlen1. apply Hlt. by right.
    + rewrite Hproc, Hproc1, saved_handles_cons. set_solver.
    + cbn [existsb]. rewrite Hfile, Hfile1.
      destruct (existsb succeeded run.1.1) eqn:Eany; [by rewrite orb_true_r|].
      rewrite orb_false_r. destruct (succeeded it.1.1); [|done].
      f_equal. rewrite Hproc, (saved_handles_none _ Eany). set_solver.
Qed.

Lemma products_to_process_lt overwrite processed (rs : list row) i :
  i ∈ products_to_process overwrite processed rs -> i < length rs.
Proof.
  intros Hi. apply products_to_process_spec in Hi as (r & Hr & _).
  by apply lookup_lt_Some in Hr.
Qed.

Lemma filter_sorted (f : nat -> bool) l :
  StronglySorted lt l -> StronglySorted lt (List.filter f l).
Proof.
  induction 1 as [|a l Hs IH Hall]; cbn [List.filter]; [constructor|].
  destruct (f a); [|done]. constructor; [done|].
  rewrite List.Forall_forall in *. intros x Hx. apply List.filter_In in Hx as [Hx _]. auto.
Qed.

Lemma seq_sorted j n : StronglySorted lt (seq j n).
Proof.
  revert j. induction n as [|n IH]; intros j; cbn [seq]; constructor; [apply IH|].
  rewrite List.Forall_forall. intros x Hx. apply in_seq in Hx. lia.
Qed.

Lemma products_to_process_sorted overwrite processed (rs : list row) :
  StronglySorted lt (products_to_process overwrite processed rs).
Proof. apply filter_sorted, seq_sorted. Qed.

Lemma sorted_NoDup (l : list nat) : StronglySorted lt l -> NoDup l.
Proof.
  induction 1 as [|a l Hs IH Hall]; constructor; [|done].
  intros Ha. rewrite List.Forall_forall in Hall.
  apply list_elem_of_In, Hall in Ha. lia.
Qed.

Lemma not_elem_of_union_b (h : str) (A B : gset str) :
  bool_decide (h ∉ A ∪ B) = bool_decide (h ∉ B) && bool_decide (h ∉ A).
Proof.
  apply eq_iff_eq_true. rewrite andb_true_iff, !bool_decide_eq_true.
  rewrite not_elem_of_union. tauto.
Qed.

Lemma filter_and {A} (f g fg : A -> bool) l :
  (forall x, fg x = f x && g x) -> List.filter fg l = List.filter g (List.filter f l).
Proof.
  intros E. induction l as [|a l IH]; [done|]. cbn [List.filter]. rewrite E.
  destruct (f a); cbn [andb List.filter]; [|done]. destruct (g a); by rewrite IH.
Qed.

(** X15: a run changes nothing of the table but the two SEO fields of the
    rows it generated for: the number of rows is kept, every other field
    of every row is kept, a row without a successful item is left as it
    was, and the row of a successful item holds the returned title and
    description at the end of the run. *)
Theorem main_writes_only_seo_fields client overwrite file rs w :
  let res := main client overwrite file rs w in
  let reports := res.1.1 in
  let rows' := rows res.1.2 in
  length rows' = length rs /\
  (forall i (key : string),
      key <> "SEO Title"%string -> key <> "SEO Description"%string ->
      default ∅ (rows' !! i) !! key = default ∅ (rs !! i) !! key) /\
  (forall i, (forall rp, rp ∈ reports -> rp_index rp = i -> succeeded rp = false) ->
             rows' !! i = rs !! i) /\
  (forall rp t d, rp ∈ reports -> rp_result rp = Ok (t, d) ->
                  exists r', rows' !! rp_index rp = Some r' /\
                             r' !! "SEO Title"%string = Some t /\
                             r' !! "SEO Description"%string = Some d).
Proof.
  unfold main. destruct (startup overwrite file) as [processed file'] eqn:Es. cbn zeta.
  set (st := {| rows := rs; existing_descriptions := collect_descriptions overwrite rs;
                processed_handles := processed; progress_file := file' |}).
  destruct (process_all_state client (detect_product_type rs).1
              (products_to_process overwrite processed rs) st w)
    as (Hlen & Hsame & Hkeys & Hset & _).
  split_and!; [done | done | done |].
  apply Hset.
  - apply sorted_NoDup, products_to_process_sorted.
  - intros i. apply products_to_process_lt.
Qed.

(** The progress set and the progress file at the end of a run. *)
Lemma progress_after_run client overwrite file rs w :
  let res := main client overwrite file rs w in
  processed_handles res.1.2 =
    saved_handles res.1.1 ∪ (if overwrite then ∅ else load_progress file) /\
  progress_file res.1.2 =
    (if existsb succeeded res.1.1 then Some (processed_handles res.1.2)
     else if overwrite then None else file).
Proof.
  unfold main, startup.
  destruct overwrite; cbn zeta;
    match goal with
    | |- context [process_all ?c ?p ?t ?s ?w] =>
        destruct (process_all_state c p t s w) as (_ & _ & _ & _ & Hproc & Hfile)
    end; done.
Qed.

Lemma main_report_indices client overwrite file rs w :
  let reports := (main client overwrite file rs w).1.1 in
  map rp_index reports =
    products_to_process overwrite (if overwrite then ∅ else load_progress file) rs /\
  forall rp, rp ∈ reports ->
             rp_handle rp = Str.strip (get (default ∅ (rs !! rp_index rp)) "Handle").
Proof.
  unfold main, startup.
  destruct overwrite; cbn zeta;
    match goal with
    | |- context [process_all ?c ?p ?t ?s ?w] =>
        destruct (process_all_reports c p t s w) as [Hmap Hhandles]
    end; done.
Qed.

Lemma products_to_process_iff overwrite processed (rs : list row) i :
  i ∈ products_to_process overwrite processed rs <->
  exists r, rs !! i = Some r /\ needs_seo overwrite processed r = true.
Proof.
  split; [apply products_to_process_spec|]. intros (r & Hr & Hneeds).
  unfold products_to_process. apply list_elem_of_In, List.filter_In. split.
  - apply in_seq. apply lookup_lt_Some in Hr. lia.
  - by rewrite Hr.
Qed.

(** X16: at the end of a run the progress set is the set of the start
    (empty with [--overwrite]) with the handles of the items that
    succeeded; the progress file holds that set when an item succeeded,
    and is otherwise what the start left: the old file in normal mode, no
    file with [--overwrite]. *)
Theorem main_progress client overwrite file rs w :
  let res := main client overwrite file rs w in
  processed_handles res.1.2 =
    saved_handles res.1.1 ∪ (if overwrite then ∅ else load_progress file) /\
  progress_file res.1.2 =
    (if existsb succeeded res.1.1 then Some (processed_handles res.1.2)
     else if overwrite then None else file).
Proof. apply progress_after_run. Qed.

(** X17: the items of a run are rows of the input in the order of the
    file, none of them twice; each has a title, and in normal mode no SEO
    description. *)
Theorem main_items_in_file_order client overwrite file rs w :
  let reports := (main client overwrite file rs w).1.1 in
  StronglySorted lt (map rp_index reports) /\
  forall rp, rp ∈ reports ->
             exists r, rs !! rp_index rp = Some r /\
                       Str.strip (get r "Title") <> [] /\
                       (overwrite = false -> Str.strip (get r "SEO Description") = []).
Proof.
  unfold main. destruct (startup overwrite file) as [processed file'] eqn:Es. cbn zeta.
  set (st := {| rows := rs; existing_descriptions := collect_descriptions overwrite rs;
                processed_handles := processed; progress_file := file' |}).
  destruct (process_all_reports client (detect_product_type rs).1
              (products_to_process overwrite processed rs) st w) as [Hmap _].
  split; [rewrite Hmap; apply products_to_process_sorted|].
  intros rp Hrp.
  assert (rp_index rp ∈ products_to_process overwrite processed rs) as Hin
    by (rewrite <- Hmap; apply list_elem_of_In, in_map, list_elem_of_In, Hrp).
  apply products_to_process_spec in Hin as (r & Hr & Hneeds).
  exists r. split; [done|]. revert Hneeds. unfold needs_seo, nonempty.
  destruct overwrite; rewrite !andb_true_iff, ?negb_true_iff, ?negb_false_iff,
    ?Nat.eqb_eq, ?Nat.eqb_neq.
  - intros [Ht _]. split; [|done]. intros E. by rewrite E in Ht.
  - intros [[Ht Hd] _]. split; [intros E; by rewrite E in Ht|].
    intros _. by apply nil_length_inv.
Qed.

(** X18: after a run in normal mode, the next run in normal mode on the
    same input takes up the items of this run but those whose handle was
    saved, in the same order: a failed item is tried again, unless a row
    with the same handle succeeded. *)
Theorem next_run_retries_failures client file rs w :
  let res := main client false file rs w in
  let saved := saved_handles res.1.1 in
  load_progress (progress_file res.1.2) = saved ∪ load_progress file /\
  products_to_process false (load_progress (progress_file res.1.2)) rs =
    List.filter (fun i => bool_decide (Str.strip (get (default ∅ (rs !! i)) "Handle") ∉ saved))
                (map rp_index res.1.1).
Proof.
  intros res saved.
  destruct (progress_after_run client false file rs w) as [Hproc Hfile].
  fold res in Hproc, Hfile. fold saved in Hproc.
  assert (load_progress (progress_file res.1.2) = saved ∪ load_progress file) as Hload.
  { rewrite Hfile. destruct (existsb succeeded res.1.1) eqn:Eany.
    - cbn [load_progress default]. exact Hproc.
    - subst saved. rewrite (saved_handles_none _ Eany). set_solver. }
  split; [exact Hload|]. rewrite Hload.
  assert (map rp_index res.1.1 = products_to_process false (load_progress file) rs) as ->.
  { apply (main_report_indices client false file rs w). }
  unfold products_to_process. apply filter_and. intros i.
  destruct (rs !! i) as [r|]; [|done]. cbn [default]. unfold needs_seo.
  by rewrite not_elem_of_union_b, !andb_assoc.
Qed.

(** X19: when every item of a run succeeded, the next run in normal mode
    on the same input finds nothing to process, whether this run was in
    normal mode or with [--overwrite]. *)
Theorem clean_run_leaves_nothing client overwrite file rs w :
  let res := main client overwrite file rs w in
  forallb succeeded res.1.1 = true ->
  products_to_process false (load_progress (progress_file res.1.2)) rs = [].
Proof.
  intros res Hall.
  destruct (progress_after_run client overwrite file rs w) as [Hproc Hfile].
  destruct (main_report_indices client overwrite file rs w) as [Hmap Hhandles].
  fold res in Hproc, Hfile, Hmap, Hhandles.
  apply elem_of_nil_inv. intros i Hi.
  apply products_to_process_iff in Hi as (r & Hr & Hneeds).
  assert (load_progress file ⊆ load_progress (progress_file res.1.2) \/ overwrite = true)
    as Hgrows.
  { destruct overwrite; [by right|left]. rewrite Hfile.
    destruct (existsb succeeded res.1.1); [|done].
    cbn [load_progress default]. rewrite Hproc. set_solver. }
  assert (needs_seo overwrite (if overwrite then ∅ else load_progress file) r = true)
    as Hfirst.
  { revert Hneeds. unfold needs_seo. rewrite !andb_true_iff, !bool_decide_eq_true.
    intros [[Ht Hd] Hh]. destruct overwrite.
    - rewrite andb_true_iff, bool_decide_eq_true. split; [done | set_solver].
    - rewrite !andb_true_iff, bool_decide_eq_true. destruct Hgrows as [?|?]; [|done].
      split; [done | set_solver]. }
  assert (i ∈ map rp_index res.1.1) as Hin
    by (rewrite Hmap; apply products_to_process_iff; eauto).
  apply list_elem_of_In, in_map_iff in Hin as (rp & Hidx & Hrp).
  assert (succeeded rp = true) as Hs
    by (rewrite forallb_forall in Hall; by apply Hall).
  apply list_elem_of_In in Hrp.
  assert (existsb succeeded res.1.1 = true) as Hany
    by (apply existsb_exists; exists rp; split; [by apply list_elem_of_In | done]).
  assert (Str.strip (get r "Handle") ∈ saved_handles res.1.1) as Hsaved.
  { apply elem_saved_handles. exists rp. split; [done|]. split; [done|].
    by rewrite (Hhandles rp Hrp), Hidx, Hr. }
  apply needs_seo_not_processed in Hneeds. apply Hneeds.
  rewrite Hfile, Hany. cbn [load_progress default]. rewrite Hproc. set_solver.
Qed.

Lemma process_item_cost client product_type row_index st w :
  let rp := (process_item client product_type row_index st w).1.1 in
  calls_in (rp_events rp) <= 5 * MAX_RETRIES /\
  waited (rp_events rp) <= MAX_RETRIES * (8 + 16 + 24 + 32 + 40 + API_DELAY).
Proof.
  unfold process_item.
  match goal with
  | |- context [generate_seo ?c ?t ?b ?p ?pt ?w] =>
      destruct (attempts_profile c t (strip_html b) p pt (seq 0 MAX_RETRIES) None w)
        as (evs & E & Hc & Hw & _);
      fold (generate_seo c t b p pt w) in E;
      destruct (generate_seo c t b p pt w) as [[[t' d']|e] w1]
  end; cbn [fst snd rp_events] in *; rewrite E, drop_app_length;
    by rewrite length_seq in Hc, Hw.
Qed.

Lemma process_all_cost client product_type todo :
  forall st w,
    exists evs,
      w_events (process_all client product_type todo st w).2 = w_events w ++ evs /\
      calls_in evs <= length todo * (5 * MAX_RETRIES).
Proof.
  induction todo as [|row_index rest IH]; intros st w.
  - exists []. by rewrite app_nil_r.
  - rewrite process_all_cons. cbn zeta. cbn [fst snd length].
    destruct (process_item_report client product_type row_index st w) as (_ & _ & _ & Hev).
    destruct (process_item_cost client product_type row_index st w) as [Hc1 _].
    set (it := process_item client product_type row_index st w) in *.
    set (w2 := match rest with [] => it.2 | _ => log (Sleep API_DELAY) it.2 end).
    destruct (IH it.1.2 w2) as (evs & E & Hc).
    assert (exists pace, w_events w2 = w_events it.2 ++ pace /\ calls_in pace = 0)
      as (pace & Hpace & Hnone).
    { subst w2. destruct rest; [exists []; by rewrite app_nil_r | by exists [Sleep API_DELAY]]. }
    exists (rp_events it.1.1 ++ pace ++ evs). split.
    + by rewrite E, Hpace, Hev, <- !app_assoc.
    + rewrite !calls_in_app, Hnone. unfold MAX_RETRIES in *. lia.
Qed.

(** X20: a run issues at most 15 requests for each item it takes up, and
    it takes up at most one item for each row of the input (whatever the
    service answers). *)
Theorem main_call_budget client overwrite file rs w :
  let res := main client overwrite file rs w in
  exists evs,
    w_events res.2 = w_events w ++ evs /\
    calls_in evs <= length res.1.1 * (5 * MAX_RETRIES) /\
    length res.1.1 <= length rs.
Proof.
  intros res.
  destruct (main_report_indices client overwrite file rs w) as [Hmap _].
  fold res in Hmap.
  assert (length res.1.1 =
          length (products_to_process overwrite
                    (if overwrite then ∅ else load_progress file) rs)) as Hlen
    by (by rewrite <- Hmap, length_map).
  subst res. unfold main, startup in *.
  destruct overwrite; cbn zeta in *;
    match goal with
    | |- context [process_all ?c ?p ?t ?s ?w] =>
        destruct (process_all_cost c p t s w) as (evs & E & Hc);
        exists evs; rewrite Hlen; split_and!; [done | done |]
    end;
    unfold products_to_process;
    (etransitivity; [apply List.filter_length_le | by rewrite length_seq]).
Qed.
End RunExtras.

Section RunExtrasExamples.

(** A run of two items that both succeed leaves nothing for the next
    run. *)
Lemma clean_run_leaves_nothing_witness :
  let res := main (echo_client (lit "SEO Description: Quiet clock.")) true None
                  [clock_row; old_row] w0 in
  products_to_process false (load_progress (progress_file res.1.2)) [clock_row; old_row] = [].
Proof.
  intros res.
  apply (@clean_run_leaves_nothing plain_collaborators
           (echo_client (lit "SEO Description: Quiet clock.")) true None
           [clock_row; old_row] w0).
  vm_compute. reflexivity.
Defined.
End RunExtrasExamples.

(** * The body cleaner [strip_html] *)

Module HtmlFacts.
Import Str StrFacts ParserFacts CleanText Html.

Lemma space_tags_cons c r :
  space_tags (c :: r) =
  match (if Ascii.eqb c "<" then tag_len r else None) with
  | Some n => " "%char :: space_tags (drop n r)
  | None => c :: space_tags r
  end.
Proof.
  simp space_tags.
  destruct (if Ascii.eqb c "<" then tag_len r else None); reflexivity.
Qed.

Lemma drop_charrefs_cons c r :
  drop_charrefs (c :: r) =
  match (if Ascii.eqb c "&" then charref_len r else None) with
  | Some n => drop_charrefs (drop n r)
  | None => c :: drop_charrefs r
  end.
Proof.
  simp drop_charrefs.
  destruct (if Ascii.eqb c "&" then charref_len r else None); reflexivity.
Qed.

Lemma elem_space_tags s x : x ∈ space_tags s -> x ∈ s \/ x = " "%char.
Proof.
  induction (Nat.lt_wf_0_projected length s) as [s _ IH].
  destruct s as [|c r]; [simp space_tags; by left|].
  rewrite space_tags_cons.
  destruct (if Ascii.eqb c "<" then tag_len r else None) as [n|].
  - rewrite elem_of_cons. intros [->|Hx]; [by right|].
    apply IH in Hx as [Hx|Hx]; [|by right | rewrite length_drop; simpl; lia].
    left. right. eapply elem_of_suffix; [exact Hx | apply suffix_drop].
  - rewrite !elem_of_cons. intros [->|Hx]; [left; by left|].
    apply IH in Hx as [Hx|Hx]; [left; by right | by right | simpl; lia].
Qed.

Lemma no_tag_space_tags s : no_tag (space_tags s).
Proof.
  induction (Nat.lt_wf_0_projected length s) as [s _ IH].
  destruct s as [|c r]; [by simp space_tags|].
  rewrite space_tags_cons.
  destruct (Ascii.eqb c "<") eqn:Ec.
  - destruct (tag_len r) as [n|] eqn:Et.
    + apply no_tag_cons. split; [intros E; discriminate|].
      apply IH. rewrite length_drop. simpl. lia.
    + apply no_tag_cons. split; [|apply IH; simpl; lia]. intros _.
      apply (tag_len_None_step space_tags); [| |done].
      * intros r'. by rewrite space_tags_cons.
      * intros Hin. by destruct (elem_space_tags _ _ Hin).
  - apply no_tag_cons. split; [|apply IH; simpl; lia].
    intros ->. discriminate.
Qed.

Lemma space_tags_id s : "<"%char ∉ s -> space_tags s = s.
Proof.
  induction s as [|c r IH]; intros Hs; [by simp space_tags|].
  apply not_elem_of_cons in Hs as [Hc Hr]. rewrite space_tags_cons.
  destruct (Ascii.eqb c "<") eqn:E; [apply eqb_true in E; congruence|].
  by rewrite IH.
Qed.

Lemma drop_charrefs_id s : "&"%char ∉ s -> drop_charrefs s = s.
Proof.
  induction s as [|c r IH]; intros Hs; [by simp drop_charrefs|].
  apply not_elem_of_cons in Hs as [Hc Hr]. rewrite drop_charrefs_cons.
  destruct (Ascii.eqb c "&") eqn:E; [apply eqb_true in E; congruence|].
  by rewrite IH.
Qed.

Lemma contains_absent o os s : o ∉ s -> contains (o :: os) s = false.
Proof.
  induction s as [|c r IH]; intros Hs; [done|].
  apply not_elem_of_cons in Hs as [Hc Hr]. cbn [contains startswith].
  destruct (Ascii.eqb o c) eqn:E; [apply eqb_true in E; congruence|].
  cbn [andb orb]. auto.
Qed.

Lemma decode_entities_id s : "&"%char ∉ s -> decode_entities s = s.
Proof.
  intros Hs. unfold decode_entities.
  rewrite (replace_absent (lit "&amp;")), (replace_absent (lit "&lt;")),
    (replace_absent (lit "&gt;")), (replace_absent (lit "&nbsp;"));
    try done; try (by apply contains_absent).
  by apply drop_charrefs_id.
Qed.

Lemma spaced_app b p q :
  spaced b p = true -> (forall c, c ∈ q -> isspace c = false) -> spaced b (p ++ q) = true.
Proof.
  intros Hp Hq. revert b Hp. induction p as [|c p IH]; intros b Hp.
  - clear Hp. simpl. revert b. induction q as [|c q IH]; intros b; [done|].
    simpl. rewrite (Hq c) by (by left). apply IH. intros x Hx. apply Hq. by right.
  - simpl in *. destruct (isspace c); [|auto].
    apply andb_true_iff in Hp as [Hc Hp]. rewrite Hc. simpl. auto.
Qed.

Lemma no_tag_app_r p q : no_tag p -> ">"%char ∉ q -> no_tag (p ++ q).
Proof.
  intros Hp Hq. induction p as [|c p IH].
  - simpl. induction q as [|c q IH]; [done|].
    apply not_elem_of_cons in Hq as [Hc Hq]. apply no_tag_cons. split; [|auto].
    intros _. apply tag_len_None. by right.
  - apply no_tag_cons in Hp as [Hc Hp]. simpl. apply no_tag_cons. split; [|auto].
    intros E. specialize (Hc E). apply tag_len_None in Hc. apply tag_len_None.
    destruct Hc as [Hh|Hn].
    + left. by destruct p.
    + right. rewrite not_elem_of_app. done.
Qed.
End HtmlFacts.

Section HtmlExtras.
Import Str StrFacts ParserFacts CleanText Html HtmlFacts.

(** X21: the cleaned body has at most 803 characters (800 and the dots),
    and white space occurs in it only as single spaces, never at the
    start. *)
Theorem strip_html_bounded (html_text : str) :
  length (strip_html html_text) <= 803 /\
  single_spaced (strip_html html_text) = true.
Proof.
  unfold strip_html. destruct html_text as [|c0 r0]; [split; [simpl; lia | done]|].
  cbn zeta. set (text := strip (collapse_ws (decode_entities (space_tags (c0 :: r0))))).
  assert (single_spaced text = true) as Hsp
    by (eapply strip_spaced; apply collapse_from_spaced).
  destruct (800 <? length text) eqn:E.
  - split.
    + rewrite length_app, length_take. change (length (lit "...")) with 3. lia.
    + apply spaced_app; [by apply take_spaced|].
      intros c Hc. unfold lit in Hc. cbn [list_ascii_of_string] in Hc.
      repeat (apply elem_of_cons in Hc as [ -> |Hc]; [reflexivity|]). inversion Hc.
  - apply Nat.ltb_ge in E. split; [lia | done].
Qed.

(** X22: plain text comes back as it is: no [<], no [&], white space only
    as single spaces inside, at most 800 characters. *)
Theorem strip_html_plain_text (s : str) :
  "<"%char ∉ s -> "&"%char ∉ s ->
  single_spaced s = true -> rstrip s = s -> length s <= 800 ->
  strip_html s = s.
Proof.
  intros Hlt Hamp Hsp Hr Hlen. unfold strip_html. destruct s as [|c0 r0] eqn:Es; [done|].
  rewrite <- Es in *. cbn zeta.
  rewrite (space_tags_id s Hlt), (decode_entities_id s Hamp).
  unfold collapse_ws. rewrite collapse_from_id by (by apply spaced_weaken).
  unfold strip. rewrite (spaced_lstrip_id s Hsp), Hr.
  apply Nat.ltb_ge in Hlen. by rewrite Hlen.
Qed.

Lemma strip_html_plain_text_witness :
  strip_html (lit "Silent oak wall clock, 30 cm.") = lit "Silent oak wall clock, 30 cm.".
Proof.
  apply (strip_html_plain_text (lit "Silent oak wall clock, 30 cm.")).
  - by_computation.
  - by_computation.
  - reflexivity.
  - vm_compute. reflexivity.
  - vm_compute. lia.
Defined.

(** X23: when the body holds no [&], the cleaned body holds no markup
    tag.  (Entities are decoded after the tags are replaced, so an escaped
    tag can come out as a tag.) *)
Theorem strip_html_removes_tags (html_text : str) :
  "&"%char ∉ html_text -> has_tag (strip_html html_text) = false.
Proof.
  intros Hamp. unfold strip_html. destruct html_text as [|c0 r0] eqn:Es; [done|].
  rewrite <- Es in *. cbn zeta.
  assert ("&"%char ∉ space_tags html_text) as Hamp'.
  { intros Hin. by destruct (elem_space_tags _ _ Hin). }
  rewrite (decode_entities_id _ Hamp').
  assert (no_tag (strip (collapse_ws (space_tags html_text)))) as Hno
    by (apply no_tag_strip, no_tag_collapse_from, no_tag_space_tags).
  destruct (800 <? _); [|exact Hno].
  apply no_tag_app_r; [by apply no_tag_take | by_computation].
Qed.

Lemma strip_html_removes_tags_witness :
  has_tag (strip_html (lit "<p>Silent <b>oak</b> wall clock</p>")) = false.
Proof.
  apply (strip_html_removes_tags (lit "<p>Silent <b>oak</b> wall clock</p>")).
  by_computation.
Defined.

(** An escaped tag comes out as a tag. *)
Example strip_html_decodes_escaped_tag :
  strip_html (lit "&lt;b&gt;oak&lt;/b&gt;") = lit "<b>oak</b>".
Proof. vm_compute. reflexivity. Qed.

Example strip_html_clock :
  strip_html (lit "<p>Silent&nbsp;oak  clock &amp; stand &#169;</p>") =
  lit "Silent oak clock & stand".
Proof. vm_compute. reflexivity. Qed.
End HtmlExtras.
